(** * jass: component-wise slice sampling, embedded and verified

    Shallow embedding of [jass/samplers.py] ([ComponentWiseSlice]) and
    [jass/mcmc.py] ([run]).

    - Python floats are kept behind the interface [Float]; its instance
      is IEEE binary64 (through [SpecFloat]), the arithmetic the program
      runs on.
    - The random source ([numpy.random.RandomState]) is an external
      collaborator: a state with two draw operations, [RandomState].
    - The two generators ([sample] and [_sample]) are explicit resumable
      frames with a [next] operation.  The unbounded [while] loops take
      fuel; running out of fuel stands for a loop that is still running.
    - The mutable objects a run touches (the sampler instance and the
      random source) live in one record, [world], threaded through a
      state-and-exception monad.  Two ghost counters record how many
      draws and how many log-density evaluations have happened. *)

From Stdlib Require Import ZArith Lia Bool List SpecFloat.
From stdpp Require Import base list.

(** ** Floating-point interface *)

Class Float (F : Type) := {
  fadd : F -> F -> F;
  fsub : F -> F -> F;
  fmul : F -> F -> F;
  fabs : F -> F;                (* np.abs *)
  flt : F -> F -> bool;         (* x < y *)
  zero : F;                     (* 0.0 *)
  one : F;                      (* 1.0, the entries of np.ones *)
  tenth : F;                    (* the literal 0.1 *)
  nine_tenths : F;              (* the literal 0.9 *)
  epsilon : F                   (* the literal 1e-9 *)
}.

Declare Scope float_scope.
Delimit Scope float_scope with fl.
Infix "+" := fadd : float_scope.
Infix "-" := fsub : float_scope.
Infix "*" := fmul : float_scope.
Infix "<?" := flt : float_scope.
(* Python's [x > y] on floats is the IEEE comparison [y < x]. *)
Notation "x >? y" := (flt y x) : float_scope.

(** ** Random source: the two methods of [RandomState] the sampler uses *)

Class RandomState (F RD : Type) := {
  exponential : RD -> F * RD;
  uniform : RD -> F * RD
}.

(** ** Exceptions.  [InvalidConfiguration] is the error the documentation
    names; no path of the program raises it. *)

Inductive exn := TypeError | IndexError | ValueError | InvalidConfiguration.

Section Sampler.
Context {F : Type} {FF : Float F} {RD : Type} {RS : RandomState F RD}.

(** The caller's log-density, a pure function of the parameter vector. *)
Variable logprob : list F -> F.

(** What [np.empty] leaves in the cells it allocates. *)
Variable uninit : F.

Local Open Scope float_scope.

(** The sampler instance ([self.widths], [self.ntune]), the random
    source, and the ghost counters.  [self.widths] is [None] or a vector
    of floats that can be updated in place (the array [np.ones] builds, or
    the array the caller passed); [self.ntune] is an integer. *)
Record world := World {
  widths : option (list F);
  ntune : Z;
  rd : RD;
  draws : nat;
  evals : nat
}.

Inductive outcome (A : Type) :=
| Ok (a : A) (w : world)
| Raise (e : exn) (w : world)
| OutOfFuel.
Arguments Ok {A} a w.
Arguments Raise {A} e w.
Arguments OutOfFuel {A}.

Definition M (A : Type) := world -> outcome A.

Definition ret {A} (a : A) : M A := fun w => Ok a w.
Definition raise {A} (e : exn) : M A := fun w => Raise e w.
Definition diverge {A} : M A := fun _ => OutOfFuel.
Definition bind {A B} (m : M A) (k : A -> M B) : M B :=
  fun w => match m w with
           | Ok a w' => k a w'
           | Raise e w' => Raise e w'
           | OutOfFuel => OutOfFuel
           end.

Notation "'let*' x ':=' m 'in' k" := (bind m (fun x => k))
  (at level 10, x pattern, m at level 100, k at level 200).

(** *** Primitive actions *)

Definition call_logprob (x : list F) : M F := fun w =>
  Ok (logprob x) (World (widths w) (ntune w) (rd w) (draws w) (S (evals w))).

Definition rd_exp : M F := fun w =>
  let '(e, r) := exponential (rd w) in
  Ok e (World (widths w) (ntune w) r (S (draws w)) (evals w)).

Definition rd_uniform : M F := fun w =>
  let '(u, r) := uniform (rd w) in
  Ok u (World (widths w) (ntune w) r (S (draws w)) (evals w)).

(* [v[d]] on a list or array *)
Definition index (v : list F) (d : nat) : M F :=
  match v !! d with
  | Some a => ret a
  | None => raise IndexError
  end.

(* [self.widths[d]] *)
Definition get_width (d : nat) : M F := fun w =>
  match widths w with
  | None => Raise TypeError w
  | Some ws => index ws d w
  end.

(* [self.widths[d] = v], an update in place of the vector *)
Definition set_width (d : nat) (v : F) : M unit := fun w =>
  match widths w with
  | None => Raise TypeError w
  | Some ws =>
      if (d <? length ws)%nat
      then Ok tt (World (Some (<[d := v]> ws)) (ntune w) (rd w) (draws w) (evals w))
      else Raise IndexError w
  end.

Definition get_ntune : M Z := fun w => Ok (ntune w) w.

(** *** [ComponentWiseSlice._sample] *)

(* [while logprob(x) > logy: x[d] -= width] (or [+=]); [xd] is the
   current content of [x[d]], the value the loop leaves there is
   returned. *)
Fixpoint step_out (op : F -> F -> F) (fuel : nat) (x : list F) (d : nat)
    (width logy xd : F) : M F :=
  match fuel with
  | O => diverge
  | S fuel' =>
      let* lp := call_logprob (<[d := xd]> x) in
      if lp >? logy
      then step_out op fuel' x d width logy (op xd width)
      else ret xd
  end.

(* The rejection loop; returns the accepted [x[d]] and its log-density. *)
Fixpoint shrink (fuel : nat) (x : list F) (d : nat) (x_p logy a b : F)
    : M (F * F) :=
  match fuel with
  | O => diverge
  | S fuel' =>
      let* v := rd_uniform in
      let c := a + v * (b - a) in
      let* x_prob := call_logprob (<[d := c]> x) in
      if x_prob >? logy then ret (c, x_prob)
      else if c <? x_p then shrink fuel' x d x_p logy c b
      else shrink fuel' x d x_p logy a c
  end.

(* The slice height and the initial interval, as computed from the
   cached log-density and the two draws. *)
Definition slice_height (x_prob e : F) : F := x_prob - e - epsilon.
Definition interval_left (x_d u width : F) : F := x_d - u * width.
Definition interval_right (a width : F) : F := a + width.

(* The part of the body of [for d in range(ndims)] that follows the
   two draws. *)
Definition slice_coordinate (fuel : nat) (x : list F) (d : nat)
    (width logy x_p a b : F) : M (list F * F) :=
  let* a' := step_out fsub fuel x d width logy a in
  let* b' := step_out fadd fuel x d width logy b in
  let* (c, x_prob') := shrink fuel x d x_p logy a' b' in
  ret (<[d := c]> x, x_prob').

(* The body of [for d in range(ndims)], up to the [yield]. *)
Definition elementary (fuel : nat) (x : list F) (x_prob : F) (d : nat)
    : M (list F * F) :=
  let* width := get_width d in
  let* e := rd_exp in
  let logy := slice_height x_prob e in
  let* x_d := index x d in
  let* u := rd_uniform in
  let a := interval_left x_d u width in
  let b := interval_right a width in
  let x_p := x_d in
  slice_coordinate fuel x d width logy x_p a b.

(* A suspended [_sample] generator. *)
Inductive frame :=
| Fresh (init : list F)                         (* body not entered yet *)
| Yielded (x : list F) (x_prob : F) (d : nat).  (* at the [yield] of dimension [d] *)

Definition _sample (init : list F) : frame := Fresh init.

(* Continue the [for] loop at dimension [d]; when the range is exhausted
   the enclosing [while True] starts it again. *)
Fixpoint resume (fuel : nat) (x : list F) (x_prob : F) (d : nat)
    : M (list F * frame) :=
  match fuel with
  | O => diverge
  | S fuel' =>
      if (d <? length x)%nat then
        let* (x', x_prob') := elementary fuel x x_prob d in
        ret (x', Yielded x' x_prob' d)
      else resume fuel' x x_prob 0%nat
  end.

(* [next(state)] for a [_sample] generator. *)
Definition next__sample (fuel : nat) (state : frame) : M (list F * frame) :=
  match state with
  | Fresh init =>
      let* x_prob := call_logprob init in
      resume fuel init x_prob 0%nat
  | Yielded x x_prob d => resume fuel x x_prob (S d)
  end.

(** *** [ComponentWiseSlice.sample] *)

Fixpoint for_each {A S : Type} (body : A -> S -> M S) (l : list A) (s : S)
    : M S :=
  match l with
  | [] => ret s
  | a :: l' => let* s' := body a s in for_each body l' s'
  end.

(* [if self.widths is None: self.widths = np.ones((len(init),))] *)
Definition default_widths (init : list F) : M unit := fun w =>
  match widths w with
  | None => Ok tt (World (Some (replicate (length init) one))
                         (ntune w) (rd w) (draws w) (evals w))
  | Some _ => Ok tt w
  end.

(* The exponential moving average of the tuning loop. *)
Definition ema (delta width : F) : F := tenth * delta + nine_tenths * width.

(* The body of the inner tuning loop. *)
Definition tune_step (fuel : nat) (d : nat) (st : frame * list F)
    : M (frame * list F) :=
  let '(state, prev) := st in
  let* (cur, state') := next__sample fuel state in
  let* cur_d := index cur d in
  let* prev_d := index prev d in
  let delta := fabs (cur_d - prev_d) in
  let* width := get_width d in
  let* _ := set_width d (ema delta width) in
  ret (state', cur).

(* [for i in range(self.ntune): for d in range(len(init)): ...] *)
Definition tune (fuel : nat) (n : Z) (init : list F) (state : frame)
    : M (frame * list F) :=
  for_each (fun _ : nat => for_each (tune_step fuel) (seq 0 (length init)))
           (seq 0 (Z.to_nat n)) (state, init).

(* A suspended [sample] generator. *)
Inductive sample_frame :=
| Created (init : list F)       (* body not entered yet *)
| Sampling (state : frame).     (* at [yield next(state)] *)

Definition sample (init : list F) : sample_frame := Created init.

(* [next(...)] for a [sample] generator. *)
Definition next_sample (fuel : nat) (g : sample_frame)
    : M (list F * sample_frame) :=
  match g with
  | Created init =>
      let* _ := default_widths init in
      let state := _sample init in
      let* n := get_ntune in
      let* (state, _) := (if (0 <? n)%Z then tune fuel n init state
                           else ret (state, init)) in
      let* (s, state') := next__sample fuel state in
      ret (s, Sampling state')
  | Sampling state =>
      let* (s, state') := next__sample fuel state in
      ret (s, Sampling state')
  end.

(** *** [mcmc.run] *)

(* [np.empty((n, m))] *)
Definition np_empty (n : Z) (m : nat) : M (list (list F)) :=
  if (n <? 0)%Z then raise ValueError
  else ret (replicate (Z.to_nat n) (replicate m uninit)).

(* [for i, sample in zip(range(nsteps), gen): samples[i] = sample], with
   [n] the number of elements still left in the range.  [zip] asks the
   range first and stops as soon as it is exhausted. *)
Fixpoint zip_loop (fuel : nat) (n i : nat) (g : sample_frame)
    (samples : list (list F)) : M (list (list F) * sample_frame) :=
  match n with
  | O => ret (samples, g)
  | S n' =>
      let* (s, g') := next_sample fuel g in
      zip_loop fuel n' (S i) g' (<[i := s]> samples)
  end.

Definition run_gen (fuel : nat) (init : list F) (nsteps : Z)
    : M (list (list F) * sample_frame) :=
  let* samples := np_empty nsteps (length init) in
  zip_loop fuel (Z.to_nat nsteps) 0 (sample init) samples.

Definition run (fuel : nat) (init : list F) (nsteps : Z)
    : M (list (list F)) :=
  let* (samples, _) := run_gen fuel init nsteps in
  ret samples.

End Sampler.

Arguments world : clear implicits.
Arguments outcome : clear implicits.
Arguments M : clear implicits.
Arguments frame : clear implicits.
Arguments sample_frame : clear implicits.
Arguments Ok {F RD A} a w.
Arguments Raise {F RD A} e w.
Arguments OutOfFuel {F RD A}.

(** ** The two arithmetics *)

(** IEEE 754 binary64, the arithmetic of Python's [float] and of the
    [float64] arrays the program allocates. *)
Module Binary64.
Definition prec : Z := 53.
Definition emax : Z := 1024.

Definition of_Z (z : Z) : spec_float := binary_normalize prec emax z 0 false.

Definition nan : spec_float := S754_nan.
Definition neg_infinity : spec_float := S754_infinity true.
Definition infinity : spec_float := S754_infinity false.

(* The doubles nearest to the decimal literals of the source. *)
Definition lit_1 : spec_float := S754_finite false 4503599627370496 (-52).
Definition lit_0_1 : spec_float := S754_finite false 7205759403792794 (-56).
Definition lit_0_9 : spec_float := S754_finite false 8106479329266893 (-53).
Definition lit_1e_9 : spec_float := S754_finite false 4835703278458517 (-82).

#[global] Instance float64 : Float spec_float := {
  fadd := SFadd prec emax;
  fsub := SFsub prec emax;
  fmul := SFmul prec emax;
  fabs := SFabs;
  flt := SFltb;
  zero := S754_zero false;
  one := lit_1;
  tenth := lit_0_1;
  nine_tenths := lit_0_9;
  epsilon := lit_1e_9
}.

Definition finite (x : spec_float) : bool :=
  match x with
  | S754_zero _ | S754_finite _ _ _ => true
  | _ => false
  end.

(* The exponent of the subnormal numbers, the least a double can have. *)
Definition emin : Z := SpecFloat.emin prec emax.

(* Plus infinity, or a positive finite number whose exponent is not below
   [emin].  Every positive double is of this kind. *)
Definition strictly_positive (x : spec_float) : Prop :=
  match x with
  | S754_infinity false => True
  | S754_finite false _ e => (emin <= e)%Z
  | _ => False
  end.

(* The same, or plus zero. *)
Definition non_negative (x : spec_float) : Prop :=
  match x with
  | S754_zero false => True
  | _ => strictly_positive x
  end.

(* What the caller can put in [widths]: a double that compares above 0. *)
Definition positive_double (x : spec_float) : Prop :=
  valid_binary prec emax x = true /\ SFltb (S754_zero false) x = true.

(* The second half of [binary_round_aux]: the rounded mantissa [m] at
   exponent [e] is normalised and packed with sign [s]. *)
Definition round_tail (s : bool) (m e : Z) : spec_float :=
  let '(mrs, e') := shr_fexp prec emax m e loc_Exact in
  match shr_m mrs with
  | Z0 => S754_zero s
  | Zpos m' => if (e' <=? emax - prec)%Z then S754_finite s m' e'
               else S754_infinity s
  | Zneg _ => S754_nan
  end.
End Binary64.

(** ** A scripted random source: the draws are read off two lists, and a
    list that has run out keeps returning its default. *)
Record script (F : Type) := Script {
  exp_draws : list F;
  uniform_draws : list F;
  exp_default : F;
  uniform_default : F
}.
Arguments Script {F} _ _ _ _.
Arguments exp_draws {F} _.
Arguments uniform_draws {F} _.
Arguments exp_default {F} _.
Arguments uniform_default {F} _.

#[global] Instance scripted (F : Type) : RandomState F (script F) := {
  exponential s :=
    match exp_draws s with
    | [] => (exp_default s, s)
    | e :: es => (e, Script es (uniform_draws s) (exp_default s) (uniform_default s))
    end;
  uniform s :=
    match uniform_draws s with
    | [] => (uniform_default s, s)
    | u :: us => (u, Script (exp_draws s) us (exp_default s) (uniform_default s))
    end
}.

(** ** The documentation's test scenario: two independent standard
    normals, started at the origin, on a sampler built with the default
    configuration ([ComponentWiseSlice()]). *)
Module Scenario.
Import Binary64.
Local Open Scope float_scope.

Definition half : spec_float := S754_finite false 4503599627370496 (-53).
Definition two : spec_float := S754_finite false 4503599627370496 (-51).
(* the double nearest to log(2 pi) *)
Definition log_2pi : spec_float := S754_finite false 8277062471433908 (-52).

Definition normal_logpdf (x : list spec_float) : spec_float :=
  match x with
  | [x0; x1] => SFopp (half * (two * log_2pi + (x0 * x0 + x1 * x1)))
  | _ => nan
  end.

Definition origin : list spec_float := [zero; zero].

(* [ComponentWiseSlice()] next to a random source in state [r] *)
Definition default_sampler (r : script spec_float)
    : world spec_float (script spec_float) :=
  World None 0 r 0 0.

(* A random source whose uniform draws are all 0.5 and whose
   exponential draws are all 1.0. *)
Definition midpoint_source : script spec_float := Script [] [] lit_1 half.

(* A random source with varied draws. *)
Definition varied_source : script spec_float :=
  Script [lit_0_1; lit_1; lit_0_9] [lit_0_1; lit_0_9; half; lit_0_1] lit_1 lit_0_9.

(* The number of coordinates in which two rows differ ([!=] on floats). *)
Definition differing (r r' : list spec_float) : nat :=
  length (filter (fun p : spec_float * spec_float => negb (SFeqb (fst p) (snd p)))
                 (zip r r')).
(* The sampler of the scenario, configured with two tuning sweeps. *)
Definition tuned_sampler : world spec_float (script spec_float) :=
  World None 2 varied_source 0 0.

(* The sampler of the scenario, configured with a negative [ntune]. *)
Definition negative_ntune : world spec_float (script spec_float) :=
  World None (-2) varied_source 0 0.

(* The largest double below 1, [1 - 2^-53], and the double [1e17]. *)
Definition almost_one : spec_float := S754_finite false 9007199254740991 (-53).
Definition large : spec_float := S754_finite false 6250000000000000 4.

(* A sampler with unit widths next to a random source whose uniform
   draws are all [1 - 2^-53]. *)
Definition near_one_sampler : world spec_float (script spec_float) :=
  World (Some [lit_1; lit_1]) 0 (Script [] [] lit_1 almost_one) 0 0.
End Scenario.

(** ** Notions the statements below are phrased with *)

Section Notions.
Context {F : Type} {FF : Float F} {RD : Type} {RS : RandomState F RD}.
Variable logprob : list F -> F.

(* The state vector a [_sample] generator holds. *)
Definition frame_x (fr : frame F) : list F :=
  match fr with
  | Fresh init => init
  | Yielded x _ _ => x
  end.

(* The log-density it has cached for that vector ([x_prob]). *)
Definition cached (fr : frame F) : F :=
  match fr with
  | Fresh init => logprob init
  | Yielded _ x_prob _ => x_prob
  end.

(* The dimension the [for] loop over [range(len(x))] continues with
   when asked for [d]: past the end, the loop starts over at 0. *)
Definition wrap (x : list F) (d : nat) : nat :=
  if (d <? length x)%nat then d else 0%nat.

(* The dimension its next elementary step updates. *)
Definition next_dim (fr : frame F) : nat :=
  match fr with
  | Fresh _ => 0%nat
  | Yielded x _ d => wrap x (S d)
  end.

(* The slice height of the elementary step that starts in world [w]. *)
Definition logy_at (fr : frame F) (w : world F RD) : F :=
  slice_height (cached fr) (fst (exponential (rd w))).

(* The dimension the next elementary step of a [sample] generator that
   is asked for a state updates: a generator that has not started yet
   begins, after whole tuning sweeps, at dimension 0. *)
Definition gen_dim (g : sample_frame F) : nat :=
  match g with
  | Created _ => 0%nat
  | Sampling state => next_dim state
  end.

(* The vector a [sample] generator was created for or holds. *)
Definition sample_x (g : sample_frame F) : list F :=
  match g with
  | Created init => init
  | Sampling state => frame_x state
  end.

(* [n] successive successful [next] calls on a [sample] generator. *)
Inductive pulls (fuel : nat)
  : nat -> sample_frame F -> world F RD -> list (list F) ->
    sample_frame F -> world F RD -> Prop :=
| pulls_O g w : pulls fuel 0 g w [] g w
| pulls_S n g w s g1 w1 rows g' w' :
    next_sample logprob fuel g w = Ok (s, g1) w1 ->
    pulls fuel n g1 w1 rows g' w' ->
    pulls fuel (S n) g w (s :: rows) g' w'.

(* The sampler instance is the same in both worlds. *)
Definition same_sampler (w w' : world F RD) : Prop :=
  widths w' = widths w /\ ntune w' = ntune w.

Definition set_widths (ws : option (list F)) (w : world F RD) : world F RD :=
  World ws (ntune w) (rd w) (draws w) (evals w).

(* The world once [sample] has filled in the default widths. *)
Definition defaulted (init : list F) (w : world F RD) : world F RD :=
  set_widths (match widths w with
              | None => Some (replicate (length init) one)
              | Some ws => Some ws
              end) w.

(* The dimensions visited by [n] sweeps over [D] dimensions. *)
Definition sweeps (n D : nat) : list nat := concat (replicate n (seq 0 D)).

(* A run of tuning steps, one per listed dimension: each step pulls one
   state [cur] from the [_sample] generator, moves [widths[d]] to the
   moving average of its old value and the distance [|cur[d] - prev[d]|],
   and keeps [cur] only as the next [prev]. *)
Inductive tuning (fuel : nat)
  : list nat -> frame F * list F -> world F RD ->
    frame F * list F -> world F RD -> Prop :=
| tuning_nil st w : tuning fuel [] st w st w
| tuning_cons d ds state prev w cur state1 w1 ws cur_d prev_d width st' w' :
    next__sample logprob fuel state w = Ok (cur, state1) w1 ->
    widths w1 = Some ws ->
    ws !! d = Some width ->
    cur !! d = Some cur_d ->
    prev !! d = Some prev_d ->
    tuning fuel ds (state1, cur)
      (set_widths
         (Some (<[d := (tenth * fabs (cur_d - prev_d) + nine_tenths * width)%fl]> ws))
         w1)
      st' w' ->
    tuning fuel (d :: ds) (state, prev) w st' w'.

(* The configurations the documentation wants rejected. *)
Definition invalid_configuration (init : list F) (nsteps : Z) (w : world F RD)
    : Prop :=
  (nsteps < 0)%Z \/ (ntune w < 0)%Z \/ init = [] \/
  exists ws, widths w = Some ws /\
             (length ws <> length init \/
              exists v, In v ws /\ (zero <? v)%fl = false).



(* The world after the exponential and the uniform draw that open an
   elementary step. *)
Definition after_two_draws (w : world F RD) : world F RD :=
  World (widths w) (ntune w) (snd (uniform (snd (exponential (rd w)))))
        (S (S (draws w))) (evals w).

(* Two vectors of one length that agree everywhere except, possibly, at
   index [d]. *)
Definition differ_only_at (d : nat) (r r' : list F) : Prop :=
  length r' = length r /\ forall j, j <> d -> r' !! j = r !! j.

(* The rows [samples[i], samples[i+1], ...] overwritten in turn. *)
Fixpoint fill (i : nat) (rows samples : list (list F)) : list (list F) :=
  match rows with
  | [] => samples
  | r :: rows' => fill (S i) rows' (<[i := r]> samples)
  end.

(* A relation between the world before and the world after that holds
   however the computation ends, where an exception, if there is one,
   is one of Python's own. *)
Definition keeps (P : world F RD -> world F RD -> Prop) {A} (m : M F RD A) : Prop :=
  forall w, match m w with
            | Ok _ w' => P w w'
            | Raise e w' => P w w' /\ e <> InvalidConfiguration
            | OutOfFuel => True
            end.

(* Wherever [m1] ends (with a value or an exception), [m2] ends in the
   same way: [m2] is [m1] with at least as much fuel. *)
Definition refines {A} (m1 m2 : M F RD A) : Prop :=
  forall w, m1 w <> OutOfFuel -> m2 w = m1 w.

(* No constraint between the two worlds. *)
Definition anything (w w' : world F RD) : Prop := True.

(* One tuning update: [widths[d] = 0.1 * |delta| + 0.9 * widths[d]]. *)
Definition tune_width (ws : list F) (d : nat) (delta : F) : list F :=
  match ws !! d with
  | Some width => <[d := (tenth * fabs delta + nine_tenths * width)%fl]> ws
  | None => ws
  end.

End Notions.

(** ** Two random sources that produce the same draws *)

Section RelatedSources.
Context {F : Type} {RD1 RD2 : Type}
        {RS1 : RandomState F RD1} {RS2 : RandomState F RD2}.

(* [R] relates states of the two sources from which they go on producing
   the same draws. *)
Variable R : RD1 -> RD2 -> Prop.

Definition same_draws : Prop :=
  forall r1 r2, R r1 r2 ->
    fst (exponential r1) = fst (exponential r2) /\
    R (snd (exponential r1)) (snd (exponential r2)) /\
    fst (uniform r1) = fst (uniform r2) /\
    R (snd (uniform r1)) (snd (uniform r2)).

Definition world_rel (w1 : world F RD1) (w2 : world F RD2) : Prop :=
  widths w1 = widths w2 /\ ntune w1 = ntune w2 /\ R (rd w1) (rd w2) /\
  draws w1 = draws w2 /\ evals w1 = evals w2.

(* Both computations end the same way, with the same value. *)
Definition outcome_rel {A} (o1 : outcome F RD1 A) (o2 : outcome F RD2 A) : Prop :=
  match o1, o2 with
  | Ok a1 w1, Ok a2 w2 => a1 = a2 /\ world_rel w1 w2
  | Raise e1 w1, Raise e2 w2 => e1 = e2 /\ world_rel w1 w2
  | OutOfFuel, OutOfFuel => True
  | _, _ => False
  end.

Definition M_rel {A} (m1 : M F RD1 A) (m2 : M F RD2 A) : Prop :=
  forall w1 w2, world_rel w1 w2 -> outcome_rel (m1 w1) (m2 w2).

End RelatedSources.

(** ** Further notions: exit conditions, costs and error classes *)

Section MoreNotions.
Context {F : Type} {FF : Float F} {RD : Type} {RS : RandomState F RD}.

(* The coordinate after [k] steps of [x[d] -= width] (or [+=]). *)
Definition stepped (op : F -> F -> F) (width : F) (k : nat) (xd : F) : F :=
  Nat.iter k (fun v => op v width) xd.

(* The world after [de] more evaluations and [dd] more draws that leave
   the random source in state [r]. *)
Definition advanced (de dd : nat) (r : RD) (w : world F RD) : world F RD :=
  World (widths w) (ntune w) r (draws w + dd) (evals w + de).

(* [self.widths] holds a vector with an entry for each of the first [D]
   dimensions. *)
Definition wide (D : nat) (w : world F RD) : Prop :=
  exists ws, widths w = Some ws /\ (D <= length ws)%nat.

(* [self.widths] holds a vector. *)
Definition has_widths (w : world F RD) : Prop :=
  exists ws, widths w = Some ws.

(* From a world that satisfies [I], the computation keeps [I], returns a
   value that satisfies [Q], and raises only exceptions that satisfy [E]. *)
Definition triple (I : world F RD -> Prop) (E : exn -> Prop) {A}
    (m : M F RD A) (Q : A -> Prop) : Prop :=
  forall w, I w ->
    match m w with
    | Ok a w' => I w' /\ Q a
    | Raise e _ => E e
    | OutOfFuel => True
    end.

(* The evaluation a generator that has not started yet still owes:
   [x_prob = logprob(x)]. *)
Definition fresh_cost (fr : frame F) : nat :=
  match fr with
  | Fresh _ => 1%nat
  | Yielded _ _ _ => 0%nat
  end.

(* Between the two worlds at least [ne] evaluations and [nd] draws have
   been made, and no fewer evaluations than draws. *)
Definition cost_at_least (ne nd : nat) (w w' : world F RD) : Prop :=
  (evals w + ne <= evals w')%nat /\
  (draws w + nd <= draws w')%nat /\
  (draws w' + evals w <= evals w' + draws w)%nat.

(* The number of elementary steps a run takes: the tuning sweeps and the
   [nsteps] states it returns. *)
Definition elementary_steps (init : list F) (nsteps : Z) (w : world F RD) : nat :=
  (Z.to_nat (ntune w) * length init + Z.to_nat nsteps)%nat.

End MoreNotions.


(** ** Reasoning about the monad *)

Section MonadFacts.
Context {F RD : Type}.

Lemma bind_Ok {A B} (m : M F RD A) (k : A -> M F RD B) w b w' :
  bind m k w = Ok b w' <-> exists a w1, m w = Ok a w1 /\ k a w1 = Ok b w'.
Proof.
  unfold bind. destruct (m w) as [a w1| |]; split.
  - intros Hk. exists a, w1. auto.
  - intros (a0 & w0 & E & Hk). inversion E; subst. exact Hk.
  - discriminate.
  - intros (? & ? & E & _). discriminate.
  - discriminate.
  - intros (? & ? & E & _). discriminate.
Qed.

Lemma bind_Raise {A B} (m : M F RD A) (k : A -> M F RD B) w e w' :
  bind m k w = Raise e w' <->
  m w = Raise e w' \/ exists a w1, m w = Ok a w1 /\ k a w1 = Raise e w'.
Proof.
  unfold bind. destruct (m w) as [a w1|e0 w0|]; split.
  - intros Hk. right. exists a, w1. auto.
  - intros [E|(a0 & w0 & E & Hk)]; [discriminate|]. inversion E; subst. exact Hk.
  - intros E. left. congruence.
  - intros [E|(? & ? & E & _)]; [congruence|discriminate].
  - discriminate.
  - intros [E|(? & ? & E & _)]; discriminate.
Qed.

Lemma keeps_bind (P : world F RD -> world F RD -> Prop) {A B}
    (m : M F RD A) (k : A -> M F RD B) :
  (forall w1 w2 w3, P w1 w2 -> P w2 w3 -> P w1 w3) ->
  keeps P m -> (forall a, keeps P (k a)) -> keeps P (bind m k).
Proof.
  intros Htrans Hm Hk w. unfold bind. specialize (Hm w).
  destruct (m w) as [a w1|e w1|]; auto.
  specialize (Hk a w1). destruct (k a w1); [eauto| |exact I].
  destruct Hk. eauto.
Qed.

Lemma keeps_weaken (P Q : world F RD -> world F RD -> Prop) {A} (m : M F RD A) :
  (forall w w', P w w' -> Q w w') -> keeps P m -> keeps Q m.
Proof.
  intros HPQ Hm w. specialize (Hm w). destruct (m w); [auto| |exact I].
  destruct Hm. auto.
Qed.

Lemma keeps_Ok (P : world F RD -> world F RD -> Prop) {A} (m : M F RD A) w a w' :
  keeps P m -> m w = Ok a w' -> P w w'.
Proof. intros Hm E. specialize (Hm w). rewrite E in Hm. exact Hm. Qed.

Lemma keeps_Raise (P : world F RD -> world F RD -> Prop) {A} (m : M F RD A) w e w' :
  keeps P m -> m w = Raise e w' -> P w w' /\ e <> InvalidConfiguration.
Proof. intros Hm E. specialize (Hm w). rewrite E in Hm. exact Hm. Qed.
End MonadFacts.

Ltac bind_inv H :=
  let a := fresh "a" in
  let w := fresh "w" in
  let E := fresh "E" in
  apply bind_Ok in H; destruct H as (a & w & E & H).

(** ** Facts about [_sample] *)

Section SamplerFacts.
Context {F : Type} {FF : Float F} {RD : Type} {RS : RandomState F RD}.
Variable logprob : list F -> F.
Variable uninit : F.

Local Open Scope float_scope.

Lemma rd_exp_eq (w : world F RD) :
  rd_exp w = Ok (fst (exponential (rd w)))
                (World (widths w) (ntune w) (snd (exponential (rd w)))
                       (S (draws w)) (evals w)).
Proof. unfold rd_exp. destruct (exponential (rd w)); reflexivity. Qed.

Lemma rd_uniform_eq (w : world F RD) :
  rd_uniform w = Ok (fst (uniform (rd w)))
                    (World (widths w) (ntune w) (snd (uniform (rd w)))
                           (S (draws w)) (evals w)).
Proof. unfold rd_uniform. destruct (uniform (rd w)); reflexivity. Qed.

Lemma index_Ok (v : list F) d a (w w' : world F RD) :
  index v d w = Ok a w' -> v !! d = Some a /\ w' = w.
Proof.
  unfold index. destruct (v !! d); cbn; intros E; inversion E; auto.
Qed.

Lemma get_width_Ok d a (w w' : world F RD) :
  get_width d w = Ok a w' ->
  exists ws, widths w = Some ws /\ ws !! d = Some a /\ w' = w.
Proof.
  unfold get_width. destruct (widths w) as [ws|]; [|discriminate].
  intros E. apply index_Ok in E. exists ws. tauto.
Qed.

(** The rejection loop only ever returns a point it has just evaluated
    and found above the slice height. *)
Lemma shrink_Ok fuel x d x_p logy : forall a b (w : world F RD) c p w',
  shrink logprob fuel x d x_p logy a b w = Ok (c, p) w' ->
  p = logprob (<[d := c]> x) /\ (p >? logy) = true.
Proof.
  induction fuel as [|fuel IH]; intros a b w c p w' H; [discriminate|].
  cbn [shrink] in H. bind_inv H. rewrite rd_uniform_eq in E.
  inversion E; subst; clear E. bind_inv H. inversion E; subst; clear E.
  destruct (flt logy _) eqn:Hacc.
  - inversion H; subst. auto.
  - destruct (flt _ x_p); eapply IH; eassumption.
Qed.

Lemma slice_coordinate_Ok fuel x d width logy x_p a b (w : world F RD) x' p w' :
  slice_coordinate logprob fuel x d width logy x_p a b w = Ok (x', p) w' ->
  exists c, x' = <[d := c]> x /\ p = logprob x' /\ (p >? logy) = true.
Proof.
  unfold slice_coordinate. intros H. do 3 bind_inv H.
  destruct a2 as [c p']. inversion H; subst.
  apply shrink_Ok in E1. exists c. intuition congruence.
Qed.

Lemma elementary_Ok fuel x x_prob d (w : world F RD) x' p w' :
  elementary logprob fuel x x_prob d w = Ok (x', p) w' ->
  (d < length x)%nat /\
  exists c, x' = <[d := c]> x /\ p = logprob x' /\
            (p >? slice_height x_prob (fst (exponential (rd w)))) = true.
Proof.
  unfold elementary. intros H. bind_inv H.
  apply get_width_Ok in E as (ws & _ & _ & ->).
  bind_inv H. rewrite rd_exp_eq in E. inversion E; subst; clear E.
  bind_inv H. apply index_Ok in E as [Hd ->].
  bind_inv H. rewrite rd_uniform_eq in E. inversion E; subst; clear E.
  split; [eapply lookup_lt_Some; eassumption|].
  eapply slice_coordinate_Ok; eassumption.
Qed.

Lemma wrap_0 (x : list F) : wrap x 0 = 0%nat.
Proof. unfold wrap. destruct (0 <? length x)%nat; reflexivity. Qed.

Lemma resume_Ok fuel x x_prob : forall d (w : world F RD) s fr' w',
  resume logprob fuel x x_prob d w = Ok (s, fr') w' ->
  (wrap x d < length x)%nat /\
  exists c, s = <[wrap x d := c]> x /\ fr' = Yielded s (logprob s) (wrap x d) /\
            (logprob s >? slice_height x_prob (fst (exponential (rd w)))) = true.
Proof.
  induction fuel as [|fuel IH]; intros d w s fr' w' H; [discriminate|].
  cbn [resume] in H. unfold wrap. destruct (d <? length x)%nat eqn:Hd.
  - bind_inv H. destruct a as [x' p]. inversion H; subst; clear H.
    apply elementary_Ok in E as (Hlt & c & -> & -> & Hacc).
    split; [exact Hlt|]. exists c. auto.
  - apply IH in H. rewrite wrap_0 in H. exact H.
Qed.

Lemma next__sample_Ok fuel fr (w : world F RD) s fr' w' :
  next__sample logprob fuel fr w = Ok (s, fr') w' ->
  (next_dim fr < length (frame_x fr))%nat /\
  exists c, s = <[next_dim fr := c]> (frame_x fr) /\
            fr' = Yielded s (logprob s) (next_dim fr) /\
            (logprob s >? logy_at logprob fr w) = true.
Proof.
  destruct fr as [init|x x_prob d]; cbn [next__sample]; intros H.
  - bind_inv H. inversion E; subst; clear E.
    apply resume_Ok in H. rewrite wrap_0 in H. exact H.
  - apply resume_Ok in H. exact H.
Qed.

(** [_sample] never touches the sampler instance. *)

Lemma same_sampler_refl (w : world F RD) : same_sampler w w.
Proof. split; reflexivity. Qed.

Lemma same_sampler_trans (w1 w2 w3 : world F RD) :
  same_sampler w1 w2 -> same_sampler w2 w3 -> same_sampler w1 w3.
Proof. unfold same_sampler. intros [-> ->] [-> ->]. auto. Qed.

Lemma keeps_bind_sampler {A B} (m : M F RD A) (k : A -> M F RD B) :
  keeps same_sampler m -> (forall a, keeps same_sampler (k a)) ->
  keeps same_sampler (bind m k).
Proof. apply keeps_bind, same_sampler_trans. Qed.

Lemma keeps_ret {A} (a : A) : keeps (F:=F) (RD:=RD) same_sampler (ret a).
Proof. intros w. apply same_sampler_refl. Qed.

Lemma keeps_call_logprob x : keeps (RD:=RD) same_sampler (call_logprob logprob x).
Proof. intros w. split; reflexivity. Qed.

Lemma keeps_rd_exp : keeps (F:=F) (RD:=RD) same_sampler rd_exp.
Proof. intros w. rewrite rd_exp_eq. split; reflexivity. Qed.

Lemma keeps_rd_uniform : keeps (F:=F) (RD:=RD) same_sampler rd_uniform.
Proof. intros w. rewrite rd_uniform_eq. split; reflexivity. Qed.

Lemma keeps_index v d : keeps (F:=F) (RD:=RD) same_sampler (index v d).
Proof.
  intros w. unfold index. destruct (v !! d); cbn.
  - apply same_sampler_refl.
  - split; [apply same_sampler_refl|discriminate].
Qed.

Lemma keeps_get_width d : keeps (F:=F) (RD:=RD) same_sampler (get_width d).
Proof.
  intros w. unfold get_width. destruct (widths w); [apply keeps_index|].
  split; [apply same_sampler_refl|discriminate].
Qed.

Lemma keeps_step_out op fuel x d width logy : forall xd,
  keeps (RD:=RD) same_sampler (step_out logprob op fuel x d width logy xd).
Proof.
  induction fuel as [|fuel IH]; intros xd; [intros w; exact I|].
  cbn [step_out]. apply keeps_bind_sampler; [apply keeps_call_logprob|].
  intros lp. destruct (flt logy lp); [apply IH|apply keeps_ret].
Qed.

Lemma keeps_shrink fuel x d x_p logy : forall a b,
  keeps (RD:=RD) same_sampler (shrink logprob fuel x d x_p logy a b).
Proof.
  induction fuel as [|fuel IH]; intros a b; [intros w; exact I|].
  cbn [shrink]. apply keeps_bind_sampler; [apply keeps_rd_uniform|].
  intros v. apply keeps_bind_sampler; [apply keeps_call_logprob|].
  intros p. destruct (flt logy p); [apply keeps_ret|].
  destruct (flt _ x_p); apply IH.
Qed.

Lemma keeps_elementary fuel x x_prob d :
  keeps (RD:=RD) same_sampler (elementary logprob fuel x x_prob d).
Proof.
  unfold elementary, slice_coordinate.
  repeat first
    [ apply keeps_get_width | apply keeps_rd_exp | apply keeps_rd_uniform
    | apply keeps_index | apply keeps_step_out | apply keeps_shrink
    | apply keeps_ret
    | apply keeps_bind_sampler; [|intros ?]
    | match goal with |- keeps _ (let (_, _) := ?p in _) => destruct p end ].
Qed.

Lemma keeps_resume fuel x x_prob : forall d,
  keeps (RD:=RD) same_sampler (resume logprob fuel x x_prob d).
Proof.
  induction fuel as [|fuel IH]; intros d; [intros w; exact I|].
  cbn [resume]. destruct (d <? length x)%nat; [|apply IH].
  apply keeps_bind_sampler; [apply keeps_elementary|].
  intros [x' p]. apply keeps_ret.
Qed.

Lemma keeps_next__sample fuel fr :
  keeps (RD:=RD) same_sampler (next__sample logprob fuel fr).
Proof.
  destruct fr as [init|x x_prob d]; cbn [next__sample]; [|apply keeps_resume].
  apply keeps_bind_sampler; [apply keeps_call_logprob|].
  intros p. apply keeps_resume.
Qed.

(** *** The loops of [sample] and [run] *)

Lemma for_each_app {A S} (body : A -> S -> M F RD S) l1 l2 : forall s w,
  for_each body (l1 ++ l2) s w = bind (for_each body l1 s) (for_each body l2) w.
Proof.
  induction l1 as [|a l1 IH]; intros s w; [reflexivity|].
  cbn [for_each app]. unfold bind.
  destruct (body a s w) as [s1 w1| |]; [|reflexivity..].
  rewrite IH. reflexivity.
Qed.

Lemma for_each_sweeps {S} (body : nat -> S -> M F RD S) D n : forall a s w,
  for_each (fun _ : nat => for_each body (seq 0 D)) (seq a n) s w =
  for_each body (sweeps n D) s w.
Proof.
  unfold sweeps.
  induction n as [|n IH]; intros a s w; [reflexivity|].
  cbn [seq for_each replicate concat]. rewrite for_each_app.
  unfold bind. destruct (for_each body (seq 0 D) s w); [|reflexivity..].
  apply IH.
Qed.

Lemma length_sweeps n D : length (sweeps n D) = (n * D)%nat.
Proof.
  unfold sweeps. induction n as [|n IH]; [reflexivity|].
  cbn [replicate concat]. rewrite length_app, length_seq, IH. reflexivity.
Qed.

Lemma set_width_Ok d v (w w' : world F RD) :
  set_width d v w = Ok tt w' <->
  exists ws, widths w = Some ws /\ (d < length ws)%nat /\
             w' = set_widths (Some (<[d := v]> ws)) w.
Proof.
  unfold set_width, set_widths. destruct (widths w) as [ws|].
  - destruct (d <? length ws)%nat eqn:Hd.
    + apply Nat.ltb_lt in Hd. split.
      * intros E. inversion E. eauto.
      * intros (ws' & E & _ & ->). inversion E. reflexivity.
    + apply Nat.ltb_ge in Hd. split; [discriminate|].
      intros (ws' & E & Hlt & _). inversion E; subst. lia.
  - split; [discriminate|]. intros (? & E & _). discriminate.
Qed.

Lemma tune_step_Ok fuel d state prev (w : world F RD) st' w' :
  tune_step logprob fuel d (state, prev) w = Ok st' w' <->
  exists cur state1 w1 ws cur_d prev_d width,
    next__sample logprob fuel state w = Ok (cur, state1) w1 /\
    widths w1 = Some ws /\ ws !! d = Some width /\
    cur !! d = Some cur_d /\ prev !! d = Some prev_d /\
    st' = (state1, cur) /\
    w' = set_widths (Some (<[d := ema (fabs (cur_d - prev_d)) width]> ws)) w1.
Proof.
  unfold tune_step. split.
  - intros H. bind_inv H. destruct a as [cur state1].
    bind_inv H. apply index_Ok in E0 as [Hc ->].
    bind_inv H. apply index_Ok in E0 as [Hp ->].
    bind_inv H. apply get_width_Ok in E0 as (ws & Hws & Hw & ->).
    bind_inv H. destruct a2. apply set_width_Ok in E0 as (ws' & Hws' & _ & ->).
    inversion H; subst. rewrite Hws in Hws'. inversion Hws'; subst.
    exists cur, state1, w0, ws', a, a0, a1. auto 10.
  - intros (cur & state1 & w1 & ws & cur_d & prev_d & width &
            E & Hws & Hw & Hc & Hp & -> & ->).
    unfold bind. rewrite E. unfold index. rewrite Hc, Hp. cbn.
    unfold get_width, index. rewrite Hws, Hw. cbn.
    unfold set_width. rewrite Hws.
    apply lookup_lt_Some, Nat.ltb_lt in Hw. rewrite Hw. reflexivity.
Qed.

Lemma for_each_tuning fuel ds : forall st (w : world F RD) st' w',
  for_each (tune_step logprob fuel) ds st w = Ok st' w' <->
  tuning logprob fuel ds st w st' w'.
Proof.
  induction ds as [|d ds IH]; intros [state prev] w st' w'.
  - cbn. split.
    + intros E. inversion E. constructor.
    + intros T. inversion T. reflexivity.
  - cbn [for_each]. rewrite bind_Ok. split.
    + intros (st1 & w1 & E & H). apply tune_step_Ok in E
        as (cur & state1 & w0 & ws & cur_d & prev_d & width &
            E & Hws & Hw & Hc & Hp & -> & ->).
      apply IH in H. econstructor; eassumption.
    + intros T. inversion T; subst.
      eexists _, _. split; [|apply IH; eassumption].
      apply tune_step_Ok. eauto 15.
Qed.

Lemma default_widths_eq init (w : world F RD) :
  default_widths init w = Ok tt (defaulted init w).
Proof.
  unfold default_widths, defaulted, set_widths.
  destruct w as [[ws|] n r dr ev]; reflexivity.
Qed.

Lemma tune_eq fuel n init state (w : world F RD) :
  (if (0 <? n)%Z then tune logprob fuel n init state else ret (state, init)) w =
  for_each (tune_step logprob fuel) (sweeps (Z.to_nat n) (length init))
           (state, init) w.
Proof.
  destruct (0 <? n)%Z eqn:Hn.
  - unfold tune. apply for_each_sweeps.
  - apply Z.ltb_ge in Hn. replace (Z.to_nat n) with 0%nat by lia. reflexivity.
Qed.

Lemma next_sample_Created fuel init (w : world F RD) s g' w' :
  next_sample logprob fuel (Created init) w = Ok (s, g') w' <->
  exists st1 prev w1 fr',
    tuning logprob fuel (sweeps (Z.to_nat (ntune w)) (length init))
           (Fresh init, init) (defaulted init w) (st1, prev) w1 /\
    next__sample logprob fuel st1 w1 = Ok (s, fr') w' /\
    g' = Sampling fr'.
Proof.
  cbn [next_sample]. rewrite bind_Ok. split.
  - intros (u & w0 & E & H). rewrite default_widths_eq in E.
    inversion E; subst; clear E.
    bind_inv H. inversion E; subst; clear E.
    bind_inv H. rewrite tune_eq in E. destruct a as [st1 prev].
    apply for_each_tuning in E.
    bind_inv H. destruct a as [s0 fr']. inversion H; subst.
    eexists _, _, _, _. split; [exact E|]. split; [exact E0|reflexivity].
  - intros (st1 & prev & w1 & fr' & T & E & ->).
    exists tt, (defaulted init w). split; [apply default_widths_eq|].
    unfold bind at 1. cbn [get_ntune]. unfold bind at 1.
    replace (ntune (defaulted init w)) with (ntune w) by reflexivity.
    rewrite tune_eq. apply for_each_tuning in T. unfold _sample. rewrite T.
    unfold bind. rewrite E. reflexivity.
Qed.

Lemma next_sample_Sampling fuel state (w : world F RD) s g' w' :
  next_sample logprob fuel (Sampling state) w = Ok (s, g') w' <->
  exists fr', next__sample logprob fuel state w = Ok (s, fr') w' /\
              g' = Sampling fr'.
Proof.
  cbn [next_sample]. rewrite bind_Ok. split.
  - intros ([s0 fr'] & w0 & E & H). inversion H; subst. eauto.
  - intros (fr' & E & ->). exists (s, fr'), w'. auto.
Qed.

(** The tuning steps keep the dimension of the generator. *)
Lemma tuning_dim fuel ds : forall st (w : world F RD) st' w',
  tuning logprob fuel ds st w st' w' ->
  length (frame_x (fst st')) = length (frame_x (fst st)).
Proof.
  induction ds as [|d ds IH]; intros st w st' w' T; inversion T; subst.
  - reflexivity.
  - match goal with H : tuning _ _ _ _ _ _ _ |- _ => apply IH in H; rewrite H end.
    match goal with H : next__sample _ _ _ _ = _ |- _ =>
      apply next__sample_Ok in H as (_ & c & -> & -> & _) end.
    cbn. apply length_insert.
Qed.

(** Every pull yields a vector of the generator's dimension, and the
    generator then holds exactly that vector. *)
Lemma next_sample_dim fuel g (w : world F RD) s g' w' :
  next_sample logprob fuel g w = Ok (s, g') w' ->
  length s = length (sample_x g) /\ sample_x g' = s.
Proof.
  destruct g as [init|state].
  - intros H. apply next_sample_Created in H
      as (st1 & prev & w1 & fr' & T & E & ->).
    apply tuning_dim in T. cbn in T.
    apply next__sample_Ok in E as (_ & c & -> & -> & _).
    cbn. rewrite length_insert. auto.
  - intros H. apply next_sample_Sampling in H as (fr' & E & ->).
    apply next__sample_Ok in E as (_ & c & -> & -> & _).
    cbn. rewrite length_insert. auto.
Qed.

Lemma pulls_shape fuel n : forall g (w : world F RD) rows g' w',
  pulls logprob fuel n g w rows g' w' ->
  length rows = n /\
  Forall (fun row => length row = length (sample_x g)) rows.
Proof.
  induction n as [|n IH]; intros g w rows g' w' P; inversion P; subst.
  - split; [reflexivity|constructor].
  - match goal with H : pulls _ _ _ _ _ _ _ _ |- _ =>
      apply IH in H as [Hlen Hall] end.
    match goal with H : next_sample _ _ _ _ = _ |- _ =>
      apply next_sample_dim in H as [Hs Hx] end.
    split; [cbn; congruence|]. constructor; [exact Hs|].
    rewrite Hx, Hs in Hall. exact Hall.
Qed.

Lemma fill_full rows : forall i (samples : list (list F)),
  length samples = (i + length rows)%nat ->
  fill i rows samples = take i samples ++ rows.
Proof.
  induction rows as [|r rows IH]; intros i samples Hlen; cbn [fill length] in *.
  - rewrite Nat.add_0_r in Hlen. rewrite <- Hlen, firstn_all, app_nil_r.
    reflexivity.
  - rewrite IH by (rewrite length_insert; lia).
    rewrite (take_S_r _ _ r) by (apply list_lookup_insert_eq; lia).
    rewrite take_insert_ge by lia. rewrite <- app_assoc. reflexivity.
Qed.

Lemma zip_loop_Ok fuel n : forall i g samples (w : world F RD) m g' w',
  zip_loop logprob fuel n i g samples w = Ok (m, g') w' <->
  exists rows, pulls logprob fuel n g w rows g' w' /\ m = fill i rows samples.
Proof.
  induction n as [|n IH]; intros i g samples w m g' w'.
  - cbn. split.
    + intros E. inversion E; subst. exists []. split; [constructor|reflexivity].
    + intros (rows & P & ->). inversion P; subst. reflexivity.
  - cbn [zip_loop]. rewrite bind_Ok. split.
    + intros ([s g1] & w1 & E & H). apply IH in H as (rows & P & ->).
      exists (s :: rows). split; [econstructor; eassumption|reflexivity].
    + intros (rows & P & ->). inversion P; subst.
      eexists (_, _), _. split; [eassumption|]. apply IH. eauto.
Qed.

Lemma run_Ok fuel init nsteps (w : world F RD) m w' :
  (0 <= nsteps)%Z ->
  run logprob uninit fuel init nsteps w = Ok m w' <->
  exists g', pulls logprob fuel (Z.to_nat nsteps) (sample init) w m g' w'.
Proof.
  intros Hn. unfold run, run_gen, np_empty.
  apply Z.ltb_ge in Hn. rewrite Hn. rewrite bind_Ok. split.
  - intros ([m0 g'] & w1 & E & H). inversion H; subst; clear H.
    bind_inv E. inversion E0; subst; clear E0.
    apply zip_loop_Ok in E as (rows & P & ->). exists g'.
    destruct (pulls_shape _ _ _ _ _ _ _ P) as [Hlen _].
    rewrite fill_full by (rewrite length_replicate; lia). exact P.
  - intros (g' & P). exists (m, g'), w'. split; [|reflexivity].
    apply bind_Ok. eexists _, _. split; [reflexivity|].
    apply zip_loop_Ok. exists m. split; [exact P|].
    destruct (pulls_shape _ _ _ _ _ _ _ P) as [Hlen _].
    rewrite fill_full by (rewrite length_replicate; lia). reflexivity.
Qed.

(** *** The dimension cursor *)

Lemma wrap_S_mod (x : list F) d :
  (d < length x)%nat -> wrap x (S d) = (S d mod length x)%nat.
Proof.
  intros Hd. unfold wrap. destruct (S d <? length x)%nat eqn:E.
  - apply Nat.ltb_lt in E. rewrite Nat.mod_small; lia.
  - apply Nat.ltb_ge in E. replace (S d) with (length x) by lia.
    rewrite Nat.Div0.mod_same. reflexivity.
Qed.

Lemma tuning_cursor fuel ds : forall st (w : world F RD) st' w',
  tuning logprob fuel ds st w st' w' ->
  (ds = [] /\ st' = st) \/
  next_dim (fst st') =
    ((next_dim (fst st) + length ds) mod length (frame_x (fst st)))%nat.
Proof.
  induction ds as [|d ds IH]; intros st w st' w' T; inversion T; subst.
  - left. auto.
  - right.
    match goal with H : next__sample _ _ _ _ = _ |- _ =>
      apply next__sample_Ok in H as (Hlt & c & -> & -> & _) end.
    match goal with H : tuning _ _ _ _ _ _ _ |- _ =>
      apply IH in H as [[-> ->]|Hc] end; cbn [fst frame_x next_dim length] in *.
    + rewrite wrap_S_mod by (rewrite length_insert; exact Hlt).
      rewrite length_insert. f_equal. lia.
    + rewrite Hc. rewrite wrap_S_mod by (rewrite length_insert; exact Hlt).
      rewrite !length_insert. rewrite Nat.Div0.add_mod_idemp_l.
      f_equal. lia.
Qed.

(** A pull is one elementary step of [_sample] on the dimension the
    generator is due for. *)
Lemma next_sample_step fuel g (w : world F RD) s g' w' :
  next_sample logprob fuel g w = Ok (s, g') w' ->
  exists fr w0,
    next__sample logprob fuel fr w0 = Ok (s, Yielded s (logprob s) (gen_dim g)) w' /\
    g' = Sampling (Yielded s (logprob s) (gen_dim g)) /\
    next_dim fr = gen_dim g /\
    (gen_dim g < length s)%nat /\
    differ_only_at (gen_dim g) (frame_x fr) s /\
    length s = length (sample_x g) /\
    (forall state, g = Sampling state -> fr = state).
Proof.
  intros H.
  assert (exists fr w0 fr',
             next__sample logprob fuel fr w0 = Ok (s, fr') w' /\
             g' = Sampling fr' /\ next_dim fr = gen_dim g /\
             length (frame_x fr) = length (sample_x g) /\
             (forall state, g = Sampling state -> fr = state))
    as (fr & w0 & fr' & E & -> & Hd & Hlen & Hprev).
  { destruct g as [init|state].
    - apply next_sample_Created in H as (st1 & prev & w1 & fr' & T & E & ->).
      exists st1, w1, fr'. split; [exact E|]. split; [reflexivity|].
      split; [|split; [apply tuning_dim in T; exact T|discriminate]].
      apply tuning_cursor in T as [[_ Hst]|T].
      + inversion Hst. reflexivity.
      + cbn in T. rewrite T, length_sweeps. apply Nat.Div0.mod_mul.
    - apply next_sample_Sampling in H as (fr' & E & ->).
      exists state, w, fr'. split; [exact E|]. split; [reflexivity|].
      split; [reflexivity|]. split; [reflexivity|]. intros ? [= ->]. reflexivity. }
  pose proof E as E'.
  apply next__sample_Ok in E' as (Hlt & c & Hs & Hfr & _).
  rewrite Hd in *. subst fr'. exists fr, w0.
  assert (Hls : length s = length (frame_x fr)) by (subst s; apply length_insert).
  split; [exact E|]. split; [reflexivity|]. split; [exact Hd|].
  split; [lia|]. split; [|split; [lia|exact Hprev]].
  split; [exact Hls|]. intros j Hj. subst s.
  apply list_lookup_insert_ne. auto.
Qed.

Lemma pulls_rows fuel n : forall g (w : world F RD) rows g' w',
  pulls logprob fuel n g w rows g' w' ->
  forall i r, rows !! i = Some r ->
  exists fr w0 w1,
    let d := ((gen_dim g + i) mod length (sample_x g))%nat in
    next__sample logprob fuel fr w0 = Ok (r, Yielded r (logprob r) d) w1 /\
    (d < length r)%nat /\
    differ_only_at d (frame_x fr) r /\
    (forall r0, (0 < i)%nat -> rows !! pred i = Some r0 -> frame_x fr = r0) /\
    (forall state, i = 0%nat -> g = Sampling state -> fr = state).
Proof.
  induction n as [|n IH]; intros g w rows g' w' P i r Hi;
    inversion P; subst; [discriminate|].
  match goal with H : next_sample _ _ _ _ = _ |- _ =>
    apply next_sample_step in H
      as (fr & w0 & E & -> & Hnd & Hlt & Hdiff & Hlen & Hprev) end.
  destruct i as [|i]; cbn in Hi.
  - inversion Hi; subst r. exists fr, w0, w1. cbn zeta.
    rewrite Nat.add_0_r, Nat.mod_small by lia.
    split; [exact E|]. split; [exact Hlt|]. split; [exact Hdiff|].
    split; [lia|]. intros state _. apply Hprev.
  - match goal with H : pulls _ _ _ _ _ _ _ _ |- _ =>
      destruct (IH _ _ _ _ _ H i r Hi)
        as (fr1 & w2 & w3 & E1 & Hlt1 & Hd1 & Hp1 & Hst1) end.
    cbn [gen_dim sample_x frame_x next_dim] in E1, Hlt1, Hd1.
    rewrite wrap_S_mod in E1, Hlt1, Hd1 by exact Hlt.
    rewrite Nat.Div0.add_mod_idemp_l in E1, Hlt1, Hd1.
    replace (S (gen_dim g) + i)%nat with (gen_dim g + S i)%nat
      in E1, Hlt1, Hd1 by lia.
    rewrite Hlen in E1, Hlt1, Hd1. exists fr1, w2, w3. cbn zeta.
    split; [exact E1|]. split; [exact Hlt1|]. split; [exact Hd1|].
    split; [|discriminate].
    intros r0 _ Hr0. cbn [pred] in Hr0. destruct i as [|i].
    + cbn in Hr0. inversion Hr0; subst r0.
      rewrite (Hst1 _ eq_refl eq_refl). reflexivity.
    + apply Hp1; [lia|exact Hr0].
Qed.

(** *** A point that is not above the slice height *)



Lemma elementary_eq fuel x x_prob d (w : world F RD) ws width x_d :
  widths w = Some ws -> ws !! d = Some width -> x !! d = Some x_d ->
  elementary logprob fuel x x_prob d w =
  slice_coordinate logprob fuel x d width
    (x_prob - fst (exponential (rd w)) - epsilon)
    x_d
    (x_d - fst (uniform (snd (exponential (rd w)))) * width)
    (x_d - fst (uniform (snd (exponential (rd w)))) * width + width)
    (after_two_draws w).
Proof.
  intros Hws Hw Hx. unfold elementary. unfold bind at 1.
  unfold get_width, index. rewrite Hws, Hw. cbn [ret].
  unfold bind at 1. rewrite rd_exp_eq. unfold bind at 1. rewrite Hx. cbn [ret].
  unfold bind at 1. rewrite rd_uniform_eq. reflexivity.
Qed.

(** *** No path raises [InvalidConfiguration] *)

Lemma keeps_bind_anything {A B} (m : M F RD A) (k : A -> M F RD B) :
  keeps anything m -> (forall a, keeps anything (k a)) ->
  keeps anything (bind m k).
Proof. apply keeps_bind. intros; exact I. Qed.

Lemma keeps_anything {A} (m : M F RD A) :
  keeps same_sampler m -> keeps anything m.
Proof. apply keeps_weaken. intros; exact I. Qed.

Lemma keeps_set_width d v : keeps (F:=F) (RD:=RD) anything (set_width d v).
Proof.
  intros w. unfold set_width. destruct (widths w) as [ws|].
  - destruct (d <? length ws)%nat; [exact I|]. split; [exact I|discriminate].
  - split; [exact I|discriminate].
Qed.

Lemma keeps_for_each {A S} (body : A -> S -> M F RD S) l :
  (forall a s, keeps anything (body a s)) ->
  forall s, keeps anything (for_each body l s).
Proof.
  intros Hb. induction l as [|a l IH]; intros s; cbn [for_each].
  - intros w. exact I.
  - apply keeps_bind_anything; [apply Hb|exact IH].
Qed.

Lemma keeps_tune_step fuel d st :
  keeps (RD:=RD) anything (tune_step logprob fuel d st).
Proof.
  destruct st as [state prev]. unfold tune_step.
  apply keeps_bind_anything; [apply keeps_anything, keeps_next__sample|].
  intros [cur state'].
  apply keeps_bind_anything; [apply keeps_anything, keeps_index|]. intros cur_d.
  apply keeps_bind_anything; [apply keeps_anything, keeps_index|]. intros prev_d.
  apply keeps_bind_anything; [apply keeps_anything, keeps_get_width|]. intros width.
  apply keeps_bind_anything; [apply keeps_set_width|]. intros _ w. exact I.
Qed.

Lemma keeps_next_sample fuel g :
  keeps (RD:=RD) anything (next_sample logprob fuel g).
Proof.
  destruct g as [init|state]; cbn [next_sample].
  - apply keeps_bind_anything.
    { intros w. rewrite default_widths_eq. exact I. }
    intros _. apply keeps_bind_anything; [intros w; exact I|]. intros n.
    apply keeps_bind_anything.
    { destruct (0 <? n)%Z; [|intros w; exact I]. unfold tune.
      apply keeps_for_each. intros _ s. apply keeps_for_each.
      apply keeps_tune_step. }
    intros [state prev].
    apply keeps_bind_anything; [apply keeps_anything, keeps_next__sample|].
    intros [s state'] w. exact I.
  - apply keeps_bind_anything; [apply keeps_anything, keeps_next__sample|].
    intros [s state'] w. exact I.
Qed.

Lemma keeps_zip_loop fuel n : forall i g samples,
  keeps (RD:=RD) anything (zip_loop logprob fuel n i g samples).
Proof.
  induction n as [|n IH]; intros i g samples; cbn [zip_loop].
  - intros w. exact I.
  - apply keeps_bind_anything; [apply keeps_next_sample|].
    intros [s g']. apply IH.
Qed.

Lemma keeps_run fuel init nsteps :
  keeps (RD:=RD) anything (run logprob uninit fuel init nsteps).
Proof.
  unfold run, run_gen. apply keeps_bind_anything.
  - apply keeps_bind_anything; [|intros samples; apply keeps_zip_loop].
    intros w. unfold np_empty. destruct (nsteps <? 0)%Z; [|exact I].
    split; [exact I|discriminate].
  - intros [samples g] w. exact I.
Qed.

(** *** An empty initial vector *)

Lemma resume_nil fuel x_prob : forall d (w : world F RD),
  resume logprob fuel [] x_prob d w = OutOfFuel.
Proof.
  induction fuel as [|fuel IH]; intros d w; [reflexivity|]. cbn. apply IH.
Qed.

Lemma for_each_nil_body {A S} (body : A -> S -> M F RD S) (l : list nat) :
  forall s w, for_each (fun _ : nat => for_each body []) l s w = Ok s w.
Proof. induction l as [|a l IH]; intros s w; [reflexivity|]. cbn. apply IH. Qed.

Lemma next_sample_nil fuel (w : world F RD) :
  next_sample logprob fuel (sample []) w = OutOfFuel.
Proof.
  unfold sample. cbn [next_sample]. unfold bind at 1.
  rewrite default_widths_eq. unfold bind at 1. cbn [get_ntune].
  unfold bind at 1.
  assert (E : (if (0 <? ntune (defaulted [] w))%Z
               then tune logprob fuel (ntune (defaulted [] w)) [] (_sample [])
               else ret (_sample [], [])) (defaulted [] w)
              = Ok (_sample [], []) (defaulted [] w)).
  { destruct (0 <? _)%Z; [|reflexivity]. unfold tune. cbn [length seq].
    apply for_each_nil_body. }
  rewrite E. unfold bind, _sample. cbn [next__sample]. unfold bind.
  cbn [call_logprob]. rewrite resume_nil. reflexivity.
Qed.

(** *** No tuning unless [ntune] is positive *)

Lemma next_sample_untuned fuel init (w : world F RD) :
  (ntune w <= 0)%Z ->
  next_sample logprob fuel (sample init) w =
  bind (next__sample logprob fuel (_sample init))
       (fun p => ret (fst p, Sampling (snd p))) (defaulted init w).
Proof.
  intros Hn. unfold sample. cbn [next_sample]. unfold bind at 1.
  rewrite default_widths_eq. unfold bind at 1. cbn [get_ntune].
  replace (ntune (defaulted init w)) with (ntune w) by reflexivity.
  apply Z.ltb_ge in Hn. rewrite Hn. unfold bind, ret.
  destruct (next__sample logprob fuel (_sample init) (defaulted init w))
    as [[s state] w1| |]; reflexivity.
Qed.

(** *** What happens to the widths *)

Lemma tune_step_widths fuel d state prev (w : world F RD) st' w' ws :
  tune_step logprob fuel d (state, prev) w = Ok st' w' ->
  widths w = Some ws ->
  exists cur_d prev_d,
    snd st' !! d = Some cur_d /\ prev !! d = Some prev_d /\
    widths w' = Some (tune_width ws d (cur_d - prev_d)).
Proof.
  intros H Hws. apply tune_step_Ok in H
    as (cur & state1 & w1 & ws1 & cur_d & prev_d & width &
        E & Hws1 & Hw & Hc & Hp & -> & ->).
  eapply keeps_Ok in E; [|apply keeps_next__sample]. destruct E as [Hsame _].
  rewrite Hsame, Hws in Hws1. inversion Hws1; subst ws1.
  exists cur_d, prev_d. split; [exact Hc|]. split; [exact Hp|].
  unfold tune_width. rewrite Hw. reflexivity.
Qed.

Lemma next_sample_Sampling_frozen fuel state (w : world F RD) s g' w' :
  next_sample logprob fuel (Sampling state) w = Ok (s, g') w' ->
  same_sampler w w'.
Proof.
  intros H. apply next_sample_Sampling in H as (fr' & E & _).
  eapply keeps_Ok; [apply keeps_next__sample|exact E].
Qed.

Lemma tuning_widths fuel ds : forall st (w : world F RD) st' w',
  tuning logprob fuel ds st w st' w' ->
  ntune w' = ntune w /\
  forall ws, widths w = Some ws ->
    exists ws', widths w' = Some ws' /\ length ws' = length ws /\
                (ds = [] -> ws' = ws).
Proof.
  induction ds as [|d ds IH]; intros st w st' w' T; inversion T; subst.
  - split; [reflexivity|]. intros ws Hws. exists ws. auto.
  - match goal with H : next__sample _ _ _ _ = _ |- _ =>
      pose proof (keeps_Ok _ _ _ _ _ (keeps_next__sample fuel state) H)
        as [Hw Hn] end.
    match goal with H : tuning _ _ _ _ _ _ _ |- _ =>
      apply IH in H as [Hn' Hws'] end.
    cbn in Hn'. split; [congruence|].
    intros ws0 Hws0.
    destruct (Hws' _ eq_refl) as (ws' & E' & Hlen & _).
    exists ws'. split; [exact E'|]. split; [|discriminate].
    rewrite Hlen, length_insert. congruence.
Qed.

Lemma defaulted_widths init (w : world F RD) :
  exists ws, widths (defaulted init w) = Some ws /\
             (widths w = None -> ws = replicate (length init) one) /\
             (forall ws0, widths w = Some ws0 -> ws = ws0).
Proof.
  unfold defaulted. cbn. destruct (widths w) as [ws|].
  - exists ws. split; [reflexivity|]. split; [discriminate|]. congruence.
  - eexists. split; [reflexivity|]. split; [reflexivity|]. discriminate.
Qed.

Lemma next_sample_Created_widths fuel init (w : world F RD) s g' w' :
  next_sample logprob fuel (Created init) w = Ok (s, g') w' ->
  ntune w' = ntune w /\
  exists ws ws', widths (defaulted init w) = Some ws /\
                 widths w' = Some ws' /\ length ws' = length ws /\
                 ((ntune w <= 0)%Z -> ws' = ws).
Proof.
  intros H. apply next_sample_Created in H as (st1 & prev & w1 & fr' & T & E & _).
  apply (keeps_Ok _ _ _ _ _ (keeps_next__sample fuel st1)) in E as [Hw Hn].
  apply tuning_widths in T as [Hn1 Hws].
  destruct (defaulted_widths init w) as (ws & Hd & _).
  destruct (Hws _ Hd) as (ws' & E' & Hlen & Hnil).
  split; [rewrite Hn, Hn1; reflexivity|].
  exists ws, ws'. split; [exact Hd|]. split; [congruence|]. split; [exact Hlen|].
  intros Hle. apply Hnil. replace (Z.to_nat (ntune w)) with 0%nat by lia.
  reflexivity.
Qed.

Lemma pulls_Sampling_frozen fuel n : forall state (w : world F RD) rows g' w',
  pulls logprob fuel n (Sampling state) w rows g' w' -> same_sampler w w'.
Proof.
  induction n as [|n IH]; intros state w rows g' w' P; inversion P; subst.
  - apply same_sampler_refl.
  - match goal with H : next_sample _ _ _ _ = _ |- _ =>
      pose proof (next_sample_Sampling_frozen _ _ _ _ _ _ H) as Hs;
      apply next_sample_Sampling in H as (fr' & _ & ->) end.
    eapply same_sampler_trans; [exact Hs|]. eapply IH; eassumption.
Qed.

Lemma pulls_widths fuel n g (w : world F RD) rows g' w' ws :
  pulls logprob fuel n g w rows g' w' ->
  widths w = Some ws ->
  exists ws', widths w' = Some ws' /\ length ws' = length ws /\
              ((ntune w <= 0)%Z -> ws' = ws).
Proof.
  intros P Hws. inversion P; subst; [exists ws; auto|].
  destruct g as [init|state].
  - match goal with H : next_sample _ _ _ _ = _ |- _ =>
      pose proof H as H';
      apply next_sample_Created_widths in H
        as (Hn & ws1 & ws' & Hd & E' & Hlen & Hle);
      apply next_sample_Created in H' as (_ & _ & _ & fr' & _ & _ & ->) end.
    destruct (defaulted_widths init w) as (ws2 & Hd2 & _ & Hsame).
    rewrite Hd in Hd2. inversion Hd2; subst ws2. rewrite (Hsame _ Hws) in *.
    match goal with H : pulls _ _ _ _ _ _ _ _ |- _ =>
      apply pulls_Sampling_frozen in H as [Hw2 _] end.
    exists ws'. split; [congruence|]. auto.
  - apply pulls_Sampling_frozen in P as [Hw _]. exists ws.
    split; [congruence|]. auto.
Qed.

End SamplerFacts.

(** ** More fuel never changes a result *)

Section Fuel.
Context {F : Type} {FF : Float F} {RD : Type} {RS : RandomState F RD}.
Variable logprob : list F -> F.
Variable uninit : F.

Lemma refines_refl {A} (m : M F RD A) : refines m m.
Proof. intros w _. reflexivity. Qed.

Lemma refines_bind {A B} (m1 m2 : M F RD A) (k1 k2 : A -> M F RD B) :
  refines m1 m2 -> (forall a, refines (k1 a) (k2 a)) ->
  refines (bind m1 k1) (bind m2 k2).
Proof.
  intros Hm Hk w. unfold bind. specialize (Hm w).
  destruct (m1 w) as [a w1|e w1|]; intros H.
  - rewrite Hm by discriminate. apply Hk. exact H.
  - rewrite Hm by discriminate. reflexivity.
  - contradiction.
Qed.

Lemma refines_diverge {A} (m : M F RD A) : refines diverge m.
Proof. intros w H. contradiction. Qed.

Lemma step_out_fuel op x d width logy fuel : forall fuel' xd,
  (fuel <= fuel')%nat ->
  refines (RD:=RD) (step_out logprob op fuel x d width logy xd)
          (step_out logprob op fuel' x d width logy xd).
Proof.
  induction fuel as [|fuel IH]; intros fuel' xd Hle; [apply refines_diverge|].
  destruct fuel' as [|fuel']; [lia|]. cbn [step_out].
  apply refines_bind; [apply refines_refl|]. intros lp.
  destruct (flt logy lp); [apply IH; lia|apply refines_refl].
Qed.

Lemma shrink_fuel x d x_p logy fuel : forall fuel' a b,
  (fuel <= fuel')%nat ->
  refines (RD:=RD) (shrink logprob fuel x d x_p logy a b)
          (shrink logprob fuel' x d x_p logy a b).
Proof.
  induction fuel as [|fuel IH]; intros fuel' a b Hle; [apply refines_diverge|].
  destruct fuel' as [|fuel']; [lia|]. cbn [shrink].
  apply refines_bind; [apply refines_refl|]. intros v.
  apply refines_bind; [apply refines_refl|]. intros p.
  destruct (flt logy p); [apply refines_refl|].
  destruct (flt _ x_p); apply IH; lia.
Qed.

Lemma elementary_fuel fuel fuel' x x_prob d :
  (fuel <= fuel')%nat ->
  refines (RD:=RD) (elementary logprob fuel x x_prob d) (elementary logprob fuel' x x_prob d).
Proof.
  intros Hle. unfold elementary, slice_coordinate.
  apply refines_bind; [apply refines_refl|]. intros width.
  apply refines_bind; [apply refines_refl|]. intros e.
  apply refines_bind; [apply refines_refl|]. intros x_d.
  apply refines_bind; [apply refines_refl|]. intros u.
  apply refines_bind; [apply step_out_fuel; exact Hle|]. intros a.
  apply refines_bind; [apply step_out_fuel; exact Hle|]. intros b.
  apply refines_bind; [apply shrink_fuel; exact Hle|]. intros [c p].
  apply refines_refl.
Qed.

Lemma resume_fuel x x_prob fuel : forall fuel' d,
  (fuel <= fuel')%nat ->
  refines (RD:=RD) (resume logprob fuel x x_prob d) (resume logprob fuel' x x_prob d).
Proof.
  induction fuel as [|fuel IH]; intros fuel' d Hle; [apply refines_diverge|].
  destruct fuel' as [|fuel']; [lia|]. cbn [resume].
  destruct (d <? length x)%nat; [|apply IH; lia].
  apply refines_bind; [apply elementary_fuel; exact Hle|].
  intros [x' p]. apply refines_refl.
Qed.

Lemma next__sample_fuel fuel fuel' state :
  (fuel <= fuel')%nat ->
  refines (RD:=RD) (next__sample logprob fuel state) (next__sample logprob fuel' state).
Proof.
  intros Hle. destruct state as [init|x x_prob d]; cbn [next__sample].
  - apply refines_bind; [apply refines_refl|]. intros p.
    apply resume_fuel; exact Hle.
  - apply resume_fuel; exact Hle.
Qed.

Lemma for_each_fuel {A S} (b1 b2 : A -> S -> M F RD S) l :
  (forall a s, refines (b1 a s) (b2 a s)) ->
  forall s, refines (for_each b1 l s) (for_each b2 l s).
Proof.
  intros Hb. induction l as [|a l IH]; intros s; cbn [for_each].
  - apply refines_refl.
  - apply refines_bind; [apply Hb|exact IH].
Qed.

Lemma tune_step_fuel fuel fuel' d st :
  (fuel <= fuel')%nat ->
  refines (RD:=RD) (tune_step logprob fuel d st) (tune_step logprob fuel' d st).
Proof.
  intros Hle. destruct st as [state prev]. unfold tune_step.
  apply refines_bind; [apply next__sample_fuel; exact Hle|].
  intros [cur state']. apply refines_refl.
Qed.

Lemma next_sample_fuel fuel fuel' g :
  (fuel <= fuel')%nat ->
  refines (RD:=RD) (next_sample logprob fuel g) (next_sample logprob fuel' g).
Proof.
  intros Hle. destruct g as [init|state]; cbn [next_sample].
  - apply refines_bind; [apply refines_refl|]. intros _.
    apply refines_bind; [apply refines_refl|]. intros n.
    apply refines_bind.
    { destruct (0 <? n)%Z; [|apply refines_refl]. unfold tune.
      apply for_each_fuel. intros _ s. apply for_each_fuel.
      intros d st. apply tune_step_fuel; exact Hle. }
    intros [state prev].
    apply refines_bind; [apply next__sample_fuel; exact Hle|].
    intros [s state']. apply refines_refl.
  - apply refines_bind; [apply next__sample_fuel; exact Hle|].
    intros [s state']. apply refines_refl.
Qed.

Lemma zip_loop_fuel fuel fuel' n : forall i g samples,
  (fuel <= fuel')%nat ->
  refines (RD:=RD) (zip_loop logprob fuel n i g samples)
          (zip_loop logprob fuel' n i g samples).
Proof.
  induction n as [|n IH]; intros i g samples Hle; cbn [zip_loop].
  - apply refines_refl.
  - apply refines_bind; [apply next_sample_fuel; exact Hle|].
    intros [s g']. apply IH; exact Hle.
Qed.

(** A run that ends with some fuel ends in the same way with any larger
    amount. *)
Lemma run_fuel fuel fuel' init nsteps :
  (fuel <= fuel')%nat ->
  refines (RD:=RD) (run logprob uninit fuel init nsteps) (run logprob uninit fuel' init nsteps).
Proof.
  intros Hle. unfold run, run_gen.
  apply refines_bind; [|intros [m g]; apply refines_refl].
  apply refines_bind; [apply refines_refl|]. intros samples.
  apply zip_loop_fuel; exact Hle.
Qed.

End Fuel.

(** ** Rounding on binary64 never loses the sign of a positive number *)

Section Binary64Facts.
Import Binary64.
Local Open Scope Z_scope.

Lemma digits2_pos_lower m : 2 ^ (Zpos (digits2_pos m) - 1) <= Zpos m.
Proof.
  induction m as [m IH|m IH|]; cbn [digits2_pos].
  - rewrite Pos2Z.inj_succ. replace (Z.succ (Zpos (digits2_pos m)) - 1)
      with (Z.succ (Zpos (digits2_pos m) - 1)) by lia.
    rewrite Z.pow_succ_r by lia. lia.
  - rewrite Pos2Z.inj_succ. replace (Z.succ (Zpos (digits2_pos m)) - 1)
      with (Z.succ (Zpos (digits2_pos m) - 1)) by lia.
    rewrite Z.pow_succ_r by lia. lia.
  - cbn. lia.
Qed.

Lemma digits2_pos_upper m : Zpos m < 2 ^ Zpos (digits2_pos m).
Proof.
  induction m as [m IH|m IH|]; cbn [digits2_pos].
  - rewrite Pos2Z.inj_succ, Z.pow_succ_r by lia. lia.
  - rewrite Pos2Z.inj_succ, Z.pow_succ_r by lia. lia.
  - cbn. lia.
Qed.

Lemma digits2_pos_gt m j : 0 <= j -> 2 ^ j <= Zpos m -> j < Zpos (digits2_pos m).
Proof.
  intros Hj H. destruct (Z.lt_ge_cases j (Zpos (digits2_pos m))) as [|Hge]; [assumption|].
  pose proof (digits2_pos_upper m).
  pose proof (Z.pow_le_mono_r 2 _ _ ltac:(lia) Hge). lia.
Qed.

Lemma shr_1_lower mrs j :
  0 <= j -> 2 ^ (j + 1) <= shr_m mrs -> 2 ^ j <= shr_m (shr_1 mrs).
Proof.
  intros Hj H. rewrite Z.pow_add_r in H by lia. change (2 ^ 1) with 2 in H.
  assert (0 < 2 ^ j) by (apply Z.pow_pos_nonneg; lia).
  destruct mrs as [m r s]. cbn in *. destruct m as [|[p|p|]|]; cbn; lia.
Qed.

Lemma shr_1_nonneg mrs : 0 <= shr_m mrs -> 0 <= shr_m (shr_1 mrs).
Proof.
  destruct mrs as [m r s]. cbn. destruct m as [|[p|p|]|]; cbn; lia.
Qed.

Lemma iter_pos_nat {A} (f : A -> A) p : forall x,
  SpecFloat.iter_pos f p x = Nat.iter (Pos.to_nat p) f x.
Proof.
  induction p as [p IH|p IH|]; intros x; cbn [SpecFloat.iter_pos].
  - rewrite !IH. rewrite Pos2Nat.inj_xI.
    replace (S (2 * Pos.to_nat p))%nat with (Pos.to_nat p + (Pos.to_nat p + 1))%nat by lia.
    rewrite !Nat.iter_add. reflexivity.
  - rewrite !IH. rewrite Pos2Nat.inj_xO.
    replace (2 * Pos.to_nat p)%nat with (Pos.to_nat p + Pos.to_nat p)%nat by lia.
    rewrite Nat.iter_add. reflexivity.
  - reflexivity.
Qed.

Lemma shr_iter_lower k : forall j mrs,
  Z.of_nat k <= j -> 2 ^ j <= shr_m mrs ->
  2 ^ (j - Z.of_nat k) <= shr_m (Nat.iter k shr_1 mrs).
Proof.
  induction k as [|k IH]; intros j mrs Hk H.
  - cbn. rewrite Z.sub_0_r. exact H.
  - rewrite Nat.iter_succ. replace (j - Z.of_nat (S k)) with ((j - Z.of_nat k) - 1) by lia.
    apply shr_1_lower; [lia|].
    replace (j - Z.of_nat k - 1 + 1) with (j - Z.of_nat k) by lia.
    apply IH; [lia|exact H].
Qed.

Lemma shr_iter_nonneg k : forall mrs,
  0 <= shr_m mrs -> 0 <= shr_m (Nat.iter k shr_1 mrs).
Proof.
  induction k as [|k IH]; intros mrs H; [exact H|].
  rewrite Nat.iter_succ. apply shr_1_nonneg, IH, H.
Qed.

Lemma fexp_ge_emin e : emin <= fexp prec emax e.
Proof. unfold fexp, emin. apply Z.le_max_r. Qed.

Lemma shr_record_of_loc_m m l : shr_m (shr_record_of_loc m l) = m.
Proof. destruct l as [|[| |]]; reflexivity. Qed.

(* The first right shift of a rounding keeps the exponent at or above
   [emin], keeps a non-negative mantissa non-negative, and keeps a
   positive mantissa positive when it shifts by fewer places than the
   mantissa has digits. *)
Lemma shr_fexp_nonneg m e l :
  0 <= m ->
  0 <= shr_m (fst (shr_fexp prec emax m e l)) /\
  emin <= snd (shr_fexp prec emax m e l).
Proof.
  intros Hm. unfold shr_fexp, shr.
  pose proof (fexp_ge_emin (Zdigits2 m + e)) as Hf.
  destruct (fexp prec emax (Zdigits2 m + e) - e) as [|p|p] eqn:En; cbn [fst snd].
  - rewrite shr_record_of_loc_m. lia.
  - rewrite iter_pos_nat. split; [|lia].
    apply shr_iter_nonneg. rewrite shr_record_of_loc_m. exact Hm.
  - rewrite shr_record_of_loc_m. lia.
Qed.

Lemma shr_fexp_pos m e l :
  fexp prec emax (Zpos (digits2_pos m) + e) - e <= Zpos (digits2_pos m) - 1 ->
  1 <= shr_m (fst (shr_fexp prec emax (Zpos m) e l)) /\
  emin <= snd (shr_fexp prec emax (Zpos m) e l).
Proof.
  intros Hn. unfold shr_fexp, shr. cbn [Zdigits2].
  pose proof (fexp_ge_emin (Zpos (digits2_pos m) + e)) as Hf.
  destruct (fexp prec emax (Zpos (digits2_pos m) + e) - e) as [|p|p] eqn:En;
    cbn [fst snd].
  - rewrite shr_record_of_loc_m. lia.
  - rewrite iter_pos_nat. split; [|lia].
    pose proof (shr_iter_lower (Pos.to_nat p) (Zpos (digits2_pos m) - 1)
                  (shr_record_of_loc (Zpos m) l)) as H.
    rewrite positive_nat_Z, shr_record_of_loc_m in H.
    specialize (H Hn (digits2_pos_lower m)).
    assert (1 <= 2 ^ (Zpos (digits2_pos m) - 1 - Zpos p)).
    { change 1 with (2 ^ 0). apply Z.pow_le_mono_r; lia. }
    lia.
  - rewrite shr_record_of_loc_m. lia.
Qed.

Lemma fexp_shift_small m e :
  emin <= e ->
  fexp prec emax (Zpos (digits2_pos m) + e) - e <= Zpos (digits2_pos m) - 1.
Proof.
  intros He. unfold fexp, emin, SpecFloat.emin in *. unfold prec, emax in *. lia.
Qed.

Lemma round_nearest_even_ge mx lx : mx <= round_nearest_even mx lx.
Proof.
  destruct lx as [|[| |]]; cbn; try lia. destruct (Z.even mx); lia.
Qed.

(* The second half of [binary_round_aux]: a positive mantissa at an
   exponent not below [emin] gives a positive float. *)
Lemma round_tail_pos m e :
  1 <= m -> emin <= e ->
  strictly_positive
    (let '(mrs, e') := shr_fexp prec emax m e loc_Exact in
     match shr_m mrs with
     | Z0 => S754_zero false
     | Zpos m' => if e' <=? emax - prec then S754_finite false m' e'
                  else S754_infinity false
     | Zneg _ => S754_nan
     end).
Proof.
  intros Hm He. destruct m as [|m|m]; try lia.
  pose proof (shr_fexp_pos m e loc_Exact (fexp_shift_small m e He)) as [H1 H2].
  destruct (shr_fexp prec emax (Zpos m) e loc_Exact) as [mrs e']. cbn [fst snd] in *.
  destruct (shr_m mrs) as [|m'|m']; try lia.
  destruct (e' <=? emax - prec); cbn; [exact H2|exact I].
Qed.

Lemma round_tail_nonneg m e :
  0 <= m -> emin <= e ->
  non_negative
    (let '(mrs, e') := shr_fexp prec emax m e loc_Exact in
     match shr_m mrs with
     | Z0 => S754_zero false
     | Zpos m' => if e' <=? emax - prec then S754_finite false m' e'
                  else S754_infinity false
     | Zneg _ => S754_nan
     end).
Proof.
  intros Hm He. destruct (Z.eq_dec m 0) as [->|Hne].
  - unfold shr_fexp, shr. cbn [Zdigits2 shr_record_of_loc].
    destruct (fexp prec emax (0 + e) - e) as [|p|p]; cbn [shr_m]; try exact I.
    rewrite iter_pos_nat.
    assert (H : forall k, Nat.iter k shr_1 (Build_shr_record 0 false false)
                          = Build_shr_record 0 false false).
    { induction k as [|k IH]; [reflexivity|]. rewrite Nat.iter_succ, IH. reflexivity. }
    rewrite H. exact I.
  - pose proof (round_tail_pos m e ltac:(lia) He) as H.
    destruct (shr_fexp prec emax m e loc_Exact) as [mrs e'].
    destruct (shr_m mrs); [exact I| |exact H].
    destruct (e' <=? emax - prec); exact H.
Qed.

Lemma binary_round_aux_pos m e :
  fexp prec emax (Zpos (digits2_pos m) + e) - e <= Zpos (digits2_pos m) - 1 ->
  strictly_positive (binary_round_aux prec emax false (Zpos m) e loc_Exact).
Proof.
  intros Hn. unfold binary_round_aux.
  pose proof (shr_fexp_pos m e loc_Exact Hn) as [H1 H2].
  destruct (shr_fexp prec emax (Zpos m) e loc_Exact) as [mrs e']. cbn [fst snd] in *.
  apply round_tail_pos; [|exact H2].
  pose proof (round_nearest_even_ge (shr_m mrs) (loc_of_shr_record mrs)). lia.
Qed.

Lemma binary_round_aux_nonneg m e :
  non_negative (binary_round_aux prec emax false (Zpos m) e loc_Exact).
Proof.
  unfold binary_round_aux.
  pose proof (shr_fexp_nonneg (Zpos m) e loc_Exact ltac:(lia)) as [H1 H2].
  destruct (shr_fexp prec emax (Zpos m) e loc_Exact) as [mrs e']. cbn [fst snd] in *.
  apply round_tail_nonneg; [|exact H2].
  pose proof (round_nearest_even_ge (shr_m mrs) (loc_of_shr_record mrs)). lia.
Qed.

Lemma binary_round_pos m e :
  emin <= e -> strictly_positive (binary_round prec emax false m e).
Proof.
  intros He. unfold binary_round, shl_align.
  pose proof (fexp_ge_emin (Zpos (digits2_pos m) + e)) as Hf.
  destruct (fexp prec emax (Zpos (digits2_pos m) + e) - e) as [|d|d];
    apply binary_round_aux_pos, fexp_shift_small; lia.
Qed.

Lemma mul_0_9_positive w : strictly_positive w -> strictly_positive (SFmul prec emax lit_0_9 w).
Proof.
  destruct w as [s|[|]|  |[|] m e]; cbn [strictly_positive]; try contradiction.
  - intros _. exact I.
  - intros He. cbn [SFmul lit_0_9 xorb].
    destruct (Z.eq_dec e emin) as [->|Hne].
    + destruct (Pos.eq_dec m 1%positive) as [->|Hm]; [vm_compute; discriminate|].
      apply binary_round_aux_pos.
      assert (H : 2 ^ 53 <= Zpos (8106479329266893 * m)%positive) by (rewrite Pos2Z.inj_mul; lia).
      apply digits2_pos_gt in H; [|lia].
      unfold fexp, emin, SpecFloat.emin in *. unfold prec, emax in *. lia.
    + apply binary_round_aux_pos.
      assert (H : 2 ^ 52 <= Zpos (8106479329266893 * m)%positive) by (rewrite Pos2Z.inj_mul; lia).
      apply digits2_pos_gt in H; [|lia].
      unfold fexp, emin, SpecFloat.emin in *. unfold prec, emax in *. lia.
Qed.

Lemma mul_0_1_nonnegative d :
  finite d = true -> non_negative (SFmul prec emax lit_0_1 (SFabs d)).
Proof.
  destruct d as [s| s | |s m e]; cbn [finite]; try discriminate; intros _.
  - exact I.
  - cbn [SFabs SFmul lit_0_1 xorb]. apply binary_round_aux_nonneg.
Qed.

Lemma add_nonnegative_positive p q :
  non_negative p -> strictly_positive q -> strictly_positive (SFadd prec emax p q).
Proof.
  destruct q as [sq|[|]|  |[|] mq eq]; cbn [strictly_positive]; try contradiction.
  - intros Hp _. destruct p as [[|]|[|]|  |[|] mp ep]; cbn in Hp |- *;
      try contradiction; exact I.
  - intros Hp Hq. destruct p as [[|]|[|]|  |[|] mp ep]; cbn [non_negative strictly_positive] in Hp;
      try contradiction.
    + exact Hq.
    + exact I.
    + cbn [SFadd cond_Zopp]. unfold shl_align.
      destruct (Z.min ep eq - ep) as [|d|d], (Z.min ep eq - eq) as [|d'|d'];
        cbn [fst Z.add binary_normalize]; apply binary_round_pos; lia.
Qed.

Lemma positive_SFltb x : strictly_positive x -> SFltb (S754_zero false) x = true.
Proof. destruct x as [s|[|]|  |[|] m e]; cbn; try contradiction; reflexivity. Qed.

Lemma valid_positive x :
  valid_binary prec emax x = true -> SFltb (S754_zero false) x = true -> strictly_positive x.
Proof.
  destruct x as [s|[|]|  |[|] m e]; cbn; try discriminate; try (intros; exact I).
  intros Hb _. unfold bounded, canonical_mantissa in Hb.
  apply andb_prop in Hb as [Hc _]. apply Z.eqb_eq in Hc.
  pose proof (fexp_ge_emin (Zpos (digits2_pos m) + e)). lia.
Qed.

Lemma ema_positive delta w :
  finite delta = true -> strictly_positive w -> strictly_positive (ema (fabs delta) w)%fl.
Proof.
  intros Hd Hw. unfold ema. cbn [fadd fmul fabs tenth nine_tenths float64].
  apply add_nonnegative_positive; [apply mul_0_1_nonnegative; exact Hd|].
  apply mul_0_9_positive; exact Hw.
Qed.

End Binary64Facts.

(** ** Rounding to nearest is monotone: the order of the initial interval *)

Section Rounding64.
Import Binary64.
Local Open Scope Z_scope.

Lemma digits2_pos_unique m k :
  2 ^ (k - 1) <= Zpos m < 2 ^ k -> Zpos (digits2_pos m) = k.
Proof.
  intros [Hlo Hhi].
  pose proof (digits2_pos_lower m) as Dlo. pose proof (digits2_pos_upper m) as Dhi.
  destruct (Z.lt_trichotomy (Zpos (digits2_pos m)) k) as [Hlt|[Heq|Hgt]]; [|exact Heq|].
  - pose proof (Z.pow_le_mono_r 2 (Zpos (digits2_pos m)) (k - 1) ltac:(lia) ltac:(lia)). lia.
  - pose proof (Z.pow_le_mono_r 2 k (Zpos (digits2_pos m) - 1) ltac:(lia) ltac:(lia)). lia.
Qed.

Lemma digits2_pos_le m m' :
  Zpos m <= Zpos m' -> Zpos (digits2_pos m) <= Zpos (digits2_pos m').
Proof.
  intros H. pose proof (digits2_pos_lower m) as Dlo.
  pose proof (digits2_pos_gt m' (Zpos (digits2_pos m) - 1) ltac:(lia) ltac:(lia)). lia.
Qed.

Lemma shr_1_m mrs : 0 <= shr_m mrs -> shr_m (shr_1 mrs) = shr_m mrs / 2.
Proof.
  destruct mrs as [m r s]. cbn [shr_m]. intros Hm. rewrite <- Z.div2_div.
  destruct m as [|[p|p|]|]; try lia; reflexivity.
Qed.

Lemma shr_iter_m k : forall mrs,
  0 <= shr_m mrs -> shr_m (Nat.iter k shr_1 mrs) = shr_m mrs / 2 ^ Z.of_nat k.
Proof.
  induction k as [|k IH]; intros mrs Hm.
  - cbn. rewrite Z.div_1_r. reflexivity.
  - rewrite Nat.iter_succ, shr_1_m by (apply shr_iter_nonneg; exact Hm).
    rewrite IH by exact Hm. rewrite Z.div_div by lia.
    rewrite Nat2Z.inj_succ, Z.pow_succ_r by lia. f_equal. lia.
Qed.

Lemma shr_iter_exact k : forall m,
  0 <= m ->
  Nat.iter k shr_1 (Build_shr_record (m * 2 ^ Z.of_nat k) false false)
  = Build_shr_record m false false.
Proof.
  induction k as [|k IH]; intros m Hm.
  - cbn. rewrite Z.mul_1_r. reflexivity.
  - rewrite Nat.iter_succ_r.
    replace (shr_1 (Build_shr_record (m * 2 ^ Z.of_nat (S k)) false false))
      with (Build_shr_record (m * 2 ^ Z.of_nat k) false false); [apply IH; exact Hm|].
    rewrite Nat2Z.inj_succ, Z.pow_succ_r by lia.
    assert (0 <= m * 2 ^ Z.of_nat k) by (apply Z.mul_nonneg_nonneg; [lia|apply Z.pow_nonneg; lia]).
    replace (m * (2 * 2 ^ Z.of_nat k)) with (2 * (m * 2 ^ Z.of_nat k)) by lia.
    destruct (m * 2 ^ Z.of_nat k) as [|p|p]; try lia; reflexivity.
Qed.

(* The first right shift of a rounding, for a mantissa whose exponent is
   not above the one of its format. *)
Lemma first_shift (M : positive) e1 :
  e1 <= fexp prec emax (Zpos (digits2_pos M) + e1) ->
  exists mrs,
    shr_fexp prec emax (Zpos M) e1 loc_Exact
      = (mrs, fexp prec emax (Zpos (digits2_pos M) + e1)) /\
    shr_m mrs = Zpos M / 2 ^ (fexp prec emax (Zpos (digits2_pos M) + e1) - e1) /\
    (Zpos M mod 2 ^ (fexp prec emax (Zpos (digits2_pos M) + e1) - e1) = 0 ->
     loc_of_shr_record mrs = loc_Exact).
Proof.
  intros Hle. unfold shr_fexp, shr. cbn [Zdigits2 shr_record_of_loc].
  set (f := fexp prec emax (Zpos (digits2_pos M) + e1)) in *.
  destruct (f - e1) as [|p|p] eqn:En; try lia.
  - eexists. split; [f_equal; lia|]. cbn. rewrite Z.div_1_r. auto.
  - eexists. split; [f_equal; lia|]. rewrite iter_pos_nat. split.
    + rewrite shr_iter_m by (cbn; lia). cbn [shr_m]. rewrite positive_nat_Z. reflexivity.
    + intros Hmod.
      assert (Zpos M = Zpos M / 2 ^ Zpos p * 2 ^ Zpos p) as ->.
      { pose proof (Z.div_mod (Zpos M) (2 ^ Zpos p) ltac:(apply Z.pow_nonzero; lia)). lia. }
      rewrite <- (positive_nat_Z p) at 2.
      rewrite shr_iter_exact; [reflexivity|].
      apply Z.div_pos; [lia|apply Z.pow_pos_nonneg; lia].
Qed.


Lemma digits_div_pow2 (M : positive) k :
  0 <= k < Zpos (digits2_pos M) ->
  exists q : positive,
    Zpos q = Zpos M / 2 ^ k /\ Zpos (digits2_pos q) = Zpos (digits2_pos M) - k.
Proof.
  intros Hk. pose proof (digits2_pos_lower M) as Dlo.
  pose proof (digits2_pos_upper M) as Dhi.
  set (D := Zpos (digits2_pos M)) in *.
  assert (Hp : 0 < 2 ^ k) by (apply Z.pow_pos_nonneg; lia).
  assert (Hlo : 2 ^ (D - k - 1) <= Zpos M / 2 ^ k).
  { apply Z.div_le_lower_bound; [exact Hp|].
    rewrite <- Z.pow_add_r by lia. replace (k + (D - k - 1)) with (D - 1) by lia.
    exact Dlo. }
  assert (Hhi : Zpos M / 2 ^ k < 2 ^ (D - k)).
  { apply Z.div_lt_upper_bound; [exact Hp|].
    rewrite <- Z.pow_add_r by lia. replace (k + (D - k)) with D by lia. exact Dhi. }
  assert (0 < 2 ^ (D - k - 1)) by (apply Z.pow_pos_nonneg; lia).
  destruct (Zpos M / 2 ^ k) as [|q|q] eqn:Eq; try lia.
  exists q. split; [reflexivity|]. apply digits2_pos_unique.
  replace (D - k - 1) with (D - k - 1) in Hlo by lia. lia.
Qed.

Lemma div_pow2_small (M : positive) k :
  Zpos (digits2_pos M) <= k -> Zpos M / 2 ^ k = 0.
Proof.
  intros Hk. apply Z.div_small. pose proof (digits2_pos_upper M) as Dhi.
  pose proof (Z.pow_le_mono_r 2 _ _ ltac:(lia) Hk). lia.
Qed.

Lemma round_nearest_even_le mx lx : round_nearest_even mx lx <= mx + 1.
Proof.
  destruct lx as [|[| |]]; cbn; try lia. destruct (Z.even mx); lia.
Qed.

Lemma binary_round_aux_tail s m e l :
  binary_round_aux prec emax s m e l =
  round_tail s (round_nearest_even (shr_m (fst (shr_fexp prec emax m e l)))
                                   (loc_of_shr_record (fst (shr_fexp prec emax m e l))))
             (snd (shr_fexp prec emax m e l)).
Proof.
  unfold binary_round_aux, round_tail.
  destruct (shr_fexp prec emax m e l) as [mrs e']. reflexivity.
Qed.

Lemma round_tail_0 s f : round_tail s 0 f = S754_zero s.
Proof.
  unfold round_tail, shr_fexp, shr. cbn [Zdigits2 shr_record_of_loc].
  destruct (fexp prec emax (0 + f) - f) as [|p|p]; cbn [shr_m]; try reflexivity.
  rewrite iter_pos_nat.
  assert (H : forall k, Nat.iter k shr_1 (Build_shr_record 0 false false)
                        = Build_shr_record 0 false false).
  { induction k as [|k IH]; [reflexivity|]. rewrite Nat.iter_succ, IH. reflexivity. }
  rewrite H. reflexivity.
Qed.

(* The second right shift: it brings the rounded mantissa back to the
   exponent of its format. *)
Lemma round_tail_pos_spec s (m' : positive) f :
  emin <= f ->
  f <= fexp prec emax (Zpos (digits2_pos m') + f) ->
  exists m'' : positive,
    Zpos m'' = Zpos m' / 2 ^ (fexp prec emax (Zpos (digits2_pos m') + f) - f) /\
    Zpos (digits2_pos m'') + fexp prec emax (Zpos (digits2_pos m') + f)
      = Zpos (digits2_pos m') + f /\
    round_tail s (Zpos m') f =
      if fexp prec emax (Zpos (digits2_pos m') + f) <=? emax - prec
      then S754_finite s m'' (fexp prec emax (Zpos (digits2_pos m') + f))
      else S754_infinity s.
Proof.
  intros Hf Hle. pose proof (fexp_shift_small m' f Hf) as Hsmall.
  unfold round_tail, shr_fexp, shr. cbn [Zdigits2 shr_record_of_loc].
  set (e'' := fexp prec emax (Zpos (digits2_pos m') + f)) in *.
  destruct (e'' - f) as [|p|p] eqn:En; try lia.
  - exists m'. cbn [shr_m]. rewrite Z.div_1_r.
    replace e'' with f by lia. split; [reflexivity|]. split; reflexivity.
  - destruct (digits_div_pow2 m' (Zpos p) ltac:(lia)) as (q & Hq & Hd).
    exists q. split; [exact Hq|]. split; [lia|].
    rewrite iter_pos_nat, shr_iter_m by (cbn; lia). cbn [shr_m].
    rewrite positive_nat_Z, <- Hq. replace (f + Zpos p) with e'' by lia. reflexivity.
Qed.

Lemma shift_pos_digits p (M : positive) :
  Zpos (digits2_pos (Pos.iter xO M p)) = Zpos (digits2_pos M) + Zpos p.
Proof.
  apply digits2_pos_unique. change (Pos.iter xO M p) with (shift_pos p M).
  rewrite shift_pos_correct, Z.pow_pos_fold.
  pose proof (digits2_pos_lower M) as Dlo. pose proof (digits2_pos_upper M) as Dhi.
  assert (0 < 2 ^ Zpos p) by (apply Z.pow_pos_nonneg; lia).
  replace (Zpos (digits2_pos M) + Zpos p - 1) with (Zpos p + (Zpos (digits2_pos M) - 1)) by lia.
  replace (Zpos (digits2_pos M) + Zpos p) with (Zpos p + Zpos (digits2_pos M)) by lia.
  rewrite !Z.pow_add_r by lia. nia.
Qed.

(* [binary_round]: the mantissa is brought to the exponent [f] of its
   format, rounded down or up there, and normalised again. *)
Lemma binary_round_stages s (M : positive) ez :
  let f := fexp prec emax (Zpos (digits2_pos M) + ez) in
  let c := Z.min ez f in
  let mz := Zpos M * 2 ^ (ez - c) in
  exists m',
    mz / 2 ^ (f - c) <= m' <= mz / 2 ^ (f - c) + 1 /\
    (mz mod 2 ^ (f - c) = 0 -> m' = mz / 2 ^ (f - c)) /\
    binary_round prec emax s M ez = round_tail s m' f.
Proof.
  cbn zeta. unfold binary_round, shl_align.
  set (f := fexp prec emax (Zpos (digits2_pos M) + ez)).
  destruct (f - ez) as [|p|p] eqn:En.
  - replace (Z.min ez f) with ez by lia. rewrite Z.sub_diag, Z.mul_1_r.
    destruct (first_shift M ez ltac:(fold f; lia)) as (mrs & E & Hm & Hex). fold f in E, Hm, Hex.
    rewrite binary_round_aux_tail, E. cbn [fst snd].
    exists (round_nearest_even (shr_m mrs) (loc_of_shr_record mrs)).
    rewrite <- Hm. split; [|split; [|reflexivity]].
    + pose proof (round_nearest_even_ge (shr_m mrs) (loc_of_shr_record mrs)).
      pose proof (round_nearest_even_le (shr_m mrs) (loc_of_shr_record mrs)). lia.
    + intros Hmod. rewrite (Hex Hmod). reflexivity.
  - replace (Z.min ez f) with ez by lia. rewrite Z.sub_diag, Z.mul_1_r.
    destruct (first_shift M ez ltac:(fold f; lia)) as (mrs & E & Hm & Hex). fold f in E, Hm, Hex.
    rewrite binary_round_aux_tail, E. cbn [fst snd].
    exists (round_nearest_even (shr_m mrs) (loc_of_shr_record mrs)).
    rewrite <- Hm. split; [|split; [|reflexivity]].
    + pose proof (round_nearest_even_ge (shr_m mrs) (loc_of_shr_record mrs)).
      pose proof (round_nearest_even_le (shr_m mrs) (loc_of_shr_record mrs)). lia.
    + intros Hmod. rewrite (Hex Hmod). reflexivity.
  - replace (Z.min ez f) with f by lia. rewrite Z.sub_diag. cbn [Z.pow]. rewrite Z.div_1_r.
    assert (Hd : Zpos (digits2_pos (Pos.iter xO M p)) + f = Zpos (digits2_pos M) + ez)
      by (rewrite shift_pos_digits; lia).
    assert (Hv : Zpos (Pos.iter xO M p) = Zpos M * 2 ^ (ez - f)).
    { change (Pos.iter xO M p) with (shift_pos p M).
      rewrite shift_pos_correct, Z.pow_pos_fold. replace (ez - f) with (Zpos p) by lia. lia. }
    destruct (first_shift (Pos.iter xO M p) f) as (mrs & E & Hm & Hex).
    { rewrite Hd. fold f. lia. }
    rewrite Hd in E, Hm, Hex. fold f in E, Hm, Hex.
    rewrite Z.sub_diag in Hm, Hex. cbn [Z.pow] in Hm, Hex. rewrite Z.div_1_r in Hm.
    rewrite binary_round_aux_tail, E. cbn [fst snd].
    exists (round_nearest_even (shr_m mrs) (loc_of_shr_record mrs)).
    rewrite (Hex (Z.mod_1_r _)). cbn [round_nearest_even]. rewrite Hm, Hv.
    split; [lia|]. split; reflexivity.
Qed.


Lemma fexp_mono d d' : d <= d' -> fexp prec emax d <= fexp prec emax d'.
Proof. unfold fexp. lia. Qed.

Lemma digits2_pos_lt_pow m j : Zpos m < 2 ^ j -> Zpos (digits2_pos m) <= j.
Proof.
  intros H. pose proof (digits2_pos_lower m) as Dlo.
  destruct (Z.le_gt_cases (Zpos (digits2_pos m)) j) as [|Hgt]; [assumption|].
  pose proof (Z.pow_le_mono_r 2 j (Zpos (digits2_pos m) - 1) ltac:(lia) ltac:(lia)). lia.
Qed.

(* The digits of the mantissa once it is at the exponent of its format. *)
Lemma stages_digits (M : positive) ez :
  let d := Zpos (digits2_pos M) + ez in
  let f := fexp prec emax d in
  let c := Z.min ez f in
  let m1 := Zpos M * 2 ^ (ez - c) / 2 ^ (f - c) in
  (m1 = 0 /\ d <= f) \/
  (exists q : positive, m1 = Zpos q /\ Zpos (digits2_pos q) + f = d /\ f < d).
Proof.
  cbn zeta. set (D := Zpos (digits2_pos M)). set (f := fexp prec emax (D + ez)).
  set (c := Z.min ez f).
  pose proof (digits2_pos_lower M) as Dlo. pose proof (digits2_pos_upper M) as Dhi.
  fold D in Dlo, Dhi.
  assert (Hs : 0 < 2 ^ (ez - c)) by (apply Z.pow_pos_nonneg; lia).
  assert (Hk : 0 < 2 ^ (f - c)) by (apply Z.pow_pos_nonneg; lia).
  assert (Hup : Zpos M * 2 ^ (ez - c) < 2 ^ (D + ez - c)).
  { replace (D + ez - c) with (D + (ez - c)) by lia. rewrite Z.pow_add_r by lia. nia. }
  assert (Hdn : 2 ^ (D + ez - c - 1) <= Zpos M * 2 ^ (ez - c)).
  { replace (D + ez - c - 1) with ((D - 1) + (ez - c)) by lia.
    rewrite Z.pow_add_r by lia. nia. }
  destruct (Z.le_gt_cases (D + ez) f) as [Hle|Hgt].
  - left. split; [|exact Hle]. apply Z.div_small. split; [lia|].
    pose proof (Z.pow_le_mono_r 2 (D + ez - c) (f - c) ltac:(lia) ltac:(lia)). lia.
  - right.
    assert (Hlo : 2 ^ (D + ez - f - 1) <= Zpos M * 2 ^ (ez - c) / 2 ^ (f - c)).
    { apply Z.div_le_lower_bound; [exact Hk|].
      rewrite <- Z.pow_add_r by lia.
      replace (f - c + (D + ez - f - 1)) with (D + ez - c - 1) by lia. exact Hdn. }
    assert (Hhi : Zpos M * 2 ^ (ez - c) / 2 ^ (f - c) < 2 ^ (D + ez - f)).
    { apply Z.div_lt_upper_bound; [exact Hk|].
      rewrite <- Z.pow_add_r by lia.
      replace (f - c + (D + ez - f)) with (D + ez - c) by lia. exact Hup. }
    assert (0 < 2 ^ (D + ez - f - 1)) by (apply Z.pow_pos_nonneg; lia).
    destruct (Zpos M * 2 ^ (ez - c) / 2 ^ (f - c)) as [|q|q] eqn:Eq; try lia.
    exists q. split; [reflexivity|]. split; [|lia].
    rewrite (digits2_pos_unique q (D + ez - f)); lia.
Qed.

(* After rounding, the mantissa is not too short for its exponent. *)
Lemma stages_tail_le (M : positive) ez (p' : positive) :
  let d := Zpos (digits2_pos M) + ez in
  let f := fexp prec emax d in
  let c := Z.min ez f in
  Zpos M * 2 ^ (ez - c) / 2 ^ (f - c) <= Zpos p' ->
  f <= fexp prec emax (Zpos (digits2_pos p') + f).
Proof.
  cbn zeta. intros Hle.
  destruct (stages_digits M ez) as [[H0 Hd]|(q & Hq & Hd & _)]; cbn zeta in *.
  - revert Hd. unfold fexp, emin, SpecFloat.emin, prec, emax.
    pose proof (Pos2Z.is_pos (digits2_pos p')). lia.
  - rewrite Hq in Hle. apply digits2_pos_le in Hle.
    rewrite <- Hd at 1. apply fexp_mono. lia.
Qed.

(* What [binary_round] returns is a double of the sign asked for. *)
Lemma binary_round_shape s (M : positive) ez :
  match binary_round prec emax s M ez with
  | S754_zero s' | S754_infinity s' => s' = s
  | S754_finite s' m e => s' = s /\ bounded prec emax m e = true
  | S754_nan => False
  end.
Proof.
  destruct (binary_round_stages s M ez) as (m' & [Hlo Hhi] & _ & ->).
  cbn zeta in *.
  assert (Hm' : m' = 0 \/ exists p', m' = Zpos p').
  { destruct (stages_digits M ez) as [[H0 _]|(q & Hq & _)]; cbn zeta in *;
      destruct m' as [|p'|p']; eauto; lia. }
  destruct Hm' as [->|(p' & ->)]; [rewrite round_tail_0; reflexivity|].
  destruct (round_tail_pos_spec s p' (fexp prec emax (Zpos (digits2_pos M) + ez))
              (fexp_ge_emin _)) as (m'' & _ & Hc & ->).
  { apply stages_tail_le. exact Hlo. }
  destruct (_ <=? emax - prec) eqn:Hb; [|reflexivity].
  split; [reflexivity|]. unfold bounded, canonical_mantissa.
  rewrite Hc, Z.eqb_refl, Hb. reflexivity.
Qed.


(* Rounding a value that is not below a double gives a double that is not
   below it: its exponent is larger, or the same with a mantissa that is
   not smaller. *)
Lemma binary_round_lower s (M mx : positive) ez ex :
  fexp prec emax (Zpos (digits2_pos mx) + ex) = ex ->
  ez <= ex ->
  Zpos mx * 2 ^ (ex - ez) <= Zpos M ->
  match binary_round prec emax s M ez with
  | S754_infinity s' => s' = s
  | S754_finite s' m e => s' = s /\ (ex < e \/ (e = ex /\ Zpos mx <= Zpos m))
  | _ => False
  end.
Proof.
  intros Hcan Hez HM.
  pose proof (digits2_pos_lower mx) as Dlo.
  assert (Hp : 0 < 2 ^ (ex - ez)) by (apply Z.pow_pos_nonneg; lia).
  assert (Hd : Zpos (digits2_pos mx) + ex <= Zpos (digits2_pos M) + ez).
  { assert (2 ^ (Zpos (digits2_pos mx) - 1 + (ex - ez)) <= Zpos M)
      by (rewrite Z.pow_add_r by lia; nia).
    pose proof (digits2_pos_gt M (Zpos (digits2_pos mx) - 1 + (ex - ez))
                  ltac:(lia) ltac:(assumption)). lia. }
  pose proof (fexp_mono _ _ Hd) as Hf. rewrite Hcan in Hf.
  destruct (binary_round_stages s M ez) as (m' & [Hlo Hhi] & _ & ->).
  cbn zeta in *.
  set (f := fexp prec emax (Zpos (digits2_pos M) + ez)) in *.
  destruct (stages_digits M ez) as [[H0 Hd0]|(q & Hq & Hdq & Hfd)]; cbn zeta in *;
    fold f in H0 || fold f in Hq, Hdq, Hfd.
  { exfalso. pose proof (Pos2Z.is_pos (digits2_pos mx)). clear - Hd0 Hd Hcan H.
    unfold fexp, emin, SpecFloat.emin, prec, emax in *. lia. }
  rewrite Hq in Hlo, Hhi. destruct m' as [|p'|p']; try lia.
  destruct (round_tail_pos_spec s p' f (fexp_ge_emin _)) as (m'' & Hm'' & _ & ->).
  { apply stages_tail_le. fold f. rewrite Hq. exact Hlo. }
  assert (He : f <= fexp prec emax (Zpos (digits2_pos p') + f)).
  { apply stages_tail_le. fold f. rewrite Hq. exact Hlo. }
  destruct (_ <=? emax - prec); [|reflexivity].
  split; [reflexivity|].
  destruct (Z.eq_dec (fexp prec emax (Zpos (digits2_pos p') + f)) ex) as [Heq|Hne];
    [right|left; lia].
  split; [exact Heq|].
  assert (Hfe : f = ex) by lia.
  rewrite Heq in Hm''. replace (ex - f) with 0 in Hm'' by lia.
  cbn [Z.pow] in Hm''. rewrite Z.div_1_r in Hm''. rewrite Hm''.
  assert (Zpos mx <= Zpos q); [|lia].
  rewrite <- Hq. replace (Z.min ez f) with ez by lia.
  rewrite Z.sub_diag, Z.mul_1_r, Hfe. apply Z.div_le_lower_bound; [exact Hp|].
  rewrite Z.mul_comm. exact HM.
Qed.


(* Rounding a positive value that is not above a double gives zero or a
   double that is not above it. *)
Lemma binary_round_upper s (M mx : positive) ez ex :
  fexp prec emax (Zpos (digits2_pos mx) + ex) = ex ->
  ex <= emax - prec ->
  ez <= ex ->
  Zpos M <= Zpos mx * 2 ^ (ex - ez) ->
  match binary_round prec emax s M ez with
  | S754_zero s' => s' = s
  | S754_finite s' m e => s' = s /\ (e < ex \/ (e = ex /\ Zpos m <= Zpos mx))
  | _ => False
  end.
Proof.
  intros Hcan Hb Hez HM.
  pose proof (digits2_pos_lower mx) as Dlo. pose proof (digits2_pos_upper mx) as Dhi.
  assert (Hp : 0 < 2 ^ (ex - ez)) by (apply Z.pow_pos_nonneg; lia).
  assert (Hd : Zpos (digits2_pos M) + ez <= Zpos (digits2_pos mx) + ex).
  { assert (Zpos M < 2 ^ (Zpos (digits2_pos mx) + (ex - ez)))
      by (rewrite Z.pow_add_r by lia; nia).
    pose proof (digits2_pos_lt_pow M _ H). lia. }
  pose proof (fexp_mono _ _ Hd) as Hf. rewrite Hcan in Hf.
  destruct (binary_round_stages s M ez) as (m' & [Hlo Hhi] & Hex & ->).
  cbn zeta in *.
  set (d := Zpos (digits2_pos M) + ez) in *.
  set (f := fexp prec emax d) in *.
  destruct m' as [|p'|p'].
  - rewrite round_tail_0. reflexivity.
  - pose proof (stages_tail_le M ez p' Hlo) as He. cbn zeta in He. fold d f in He.
    destruct (round_tail_pos_spec s p' f (fexp_ge_emin _) He) as (m'' & Hm'' & _ & ->).
    set (e'' := fexp prec emax (Zpos (digits2_pos p') + f)) in *.
    assert (Hgoal : e'' < ex \/ (e'' = ex /\ Zpos m'' <= Zpos mx)).
    { destruct (Z.eq_dec f ex) as [Hfe|Hfne].
      - (* the value is rounded at the exponent of [x] *)
        assert (Hm1 : Zpos p' <= Zpos mx).
        { revert Hlo Hhi Hex. replace (Z.min ez f) with ez by lia.
          rewrite Z.sub_diag, Z.mul_1_r, Hfe. intros Hlo Hhi Hex.
          assert (Hq : Zpos M / 2 ^ (ex - ez) <= Zpos mx).
          { apply Z.div_le_upper_bound; [exact Hp|]. lia. }
          destruct (Z.eq_dec (Zpos M / 2 ^ (ex - ez)) (Zpos mx)) as [Heq|Hne]; [|lia].
          rewrite Hex; [lia|].
          pose proof (Z.div_mod (Zpos M) (2 ^ (ex - ez)) ltac:(lia)) as Hdm.
          pose proof (Z.mod_pos_bound (Zpos M) (2 ^ (ex - ez)) Hp).
          rewrite Heq in Hdm. lia. }
        right. apply digits2_pos_le in Hm1 as Hdig.
        assert (e'' <= ex).
        { rewrite <- Hcan. apply fexp_mono. lia. }
        assert (Hee : e'' = ex) by lia. split; [exact Hee|].
        rewrite Hm'', Hee, Hfe, Z.sub_diag. cbn [Z.pow]. rewrite Z.div_1_r. exact Hm1.
      - (* the value is rounded at a smaller exponent: [x] is normal *)
        assert (Hfx : f < ex) by lia.
        pose proof (fexp_ge_emin d) as Hfmin. fold f in Hfmin.
        assert (Hnorm : Zpos (digits2_pos mx) = 53).
        { revert Hcan Hfmin Hfx. unfold fexp, emin, SpecFloat.emin, prec, emax. lia. }
        assert (Hmx : 2 ^ 52 <= Zpos mx) by (rewrite Hnorm in Dlo; exact Dlo).
        destruct (stages_digits M ez) as [[H0 Hd0]|(q & Hq & Hdq & Hfd)];
          cbn zeta in *; fold d f in H0 || fold d f in Hq, Hdq, Hfd.
        + left. fold d in Hd0. fold f in Hd0. rewrite H0 in Hhi.
          assert (p' = 1%positive) as -> by lia.
          subst e''. cbn [digits2_pos]. revert Hd0 Hfx.
          unfold f, fexp, emin, SpecFloat.emin, prec, emax. lia.
        + rewrite Hq in Hhi.
          pose proof (digits2_pos_upper q) as Qhi.
          assert (Hdf : Zpos (digits2_pos q) <= 53).
          { revert Hdq. unfold f, fexp, emin, SpecFloat.emin, prec, emax. lia. }
          assert (Hp53 : Zpos p' <= 2 ^ 53).
          { pose proof (Z.pow_le_mono_r 2 _ _ ltac:(lia) Hdf). lia. }
          assert (Hdp : Zpos (digits2_pos p') <= Zpos (digits2_pos q) + 1).
          { apply digits2_pos_lt_pow. rewrite Z.pow_add_r by lia. lia. }
          assert (He'' : e'' <= ex).
          { subst e''. revert Hdp Hdq Hfx. unfold f, fexp, emin, SpecFloat.emin, prec, emax.
            lia. }
          destruct (Z.eq_dec e'' ex) as [Hee|Hne]; [right|left; lia].
          split; [exact Hee|]. rewrite Hm'', Hee.
          apply Z.div_le_upper_bound; [apply Z.pow_pos_nonneg; lia|].
          assert (2 ^ 1 <= 2 ^ (ex - f)) by (apply Z.pow_le_mono_r; lia).
          change (2 ^ 1) with 2 in *. nia. }
    replace (e'' <=? emax - prec) with true
      by (symmetry; apply Z.leb_le; destruct Hgoal as [|[? _]]; lia).
    split; [reflexivity|exact Hgoal].
  - pose proof (Z.div_pos (Zpos M * 2 ^ (ez - Z.min ez f)) (2 ^ (f - Z.min ez f))
                  ltac:(apply Z.mul_nonneg_nonneg; [lia|apply Z.pow_nonneg; lia])
                  ltac:(apply Z.pow_pos_nonneg; lia)). lia.
Qed.


Lemma binary_round_aux_eq s (M : positive) e :
  e <= fexp prec emax (Zpos (digits2_pos M) + e) ->
  binary_round_aux prec emax s (Zpos M) e loc_Exact = binary_round prec emax s M e.
Proof.
  intros H. unfold binary_round, shl_align.
  destruct (fexp prec emax (Zpos (digits2_pos M) + e) - e) as [|p|p] eqn:En;
    try reflexivity; lia.
Qed.

Lemma canonical_of_bounded m e :
  bounded prec emax m e = true ->
  fexp prec emax (Zpos (digits2_pos m) + e) = e /\ e <= emax - prec.
Proof.
  unfold bounded, canonical_mantissa. intros H.
  apply andb_prop in H as [H1 H2]. apply Z.eqb_eq in H1. apply Z.leb_le in H2. auto.
Qed.

Lemma digits2_pos_mul mx my :
  Zpos (digits2_pos mx) + Zpos (digits2_pos my) - 1 <= Zpos (digits2_pos (mx * my)).
Proof.
  pose proof (digits2_pos_lower mx) as Hx. pose proof (digits2_pos_lower my) as Hy.
  assert (0 < 2 ^ (Zpos (digits2_pos mx) - 1)) by (apply Z.pow_pos_nonneg; lia).
  assert (0 < 2 ^ (Zpos (digits2_pos my) - 1)) by (apply Z.pow_pos_nonneg; lia).
  assert (2 ^ (Zpos (digits2_pos mx) - 1 + (Zpos (digits2_pos my) - 1))
          <= Zpos (mx * my)).
  { rewrite Z.pow_add_r by lia. rewrite Pos2Z.inj_mul. nia. }
  pose proof (Pos2Z.is_pos (digits2_pos mx)). pose proof (Pos2Z.is_pos (digits2_pos my)).
  pose proof (digits2_pos_gt (mx * my)
                (Zpos (digits2_pos mx) - 1 + (Zpos (digits2_pos my) - 1))
                ltac:(lia) H1). lia.
Qed.

(* The product of two non-negative doubles is zero, a positive double or
   plus infinity. *)
Lemma SFmul_non_negative u w :
  valid_binary prec emax u = true -> valid_binary prec emax w = true ->
  finite u = true -> finite w = true ->
  non_negative u -> non_negative w ->
  non_negative (SFmul prec emax u w) /\
  valid_binary prec emax (SFmul prec emax u w) = true.
Proof.
  destruct u as [[|]|[|]| |[|] mu eu], w as [[|]|[|]| |[|] mw ew];
    cbn [finite non_negative strictly_positive valid_binary];
    try discriminate; try contradiction; intros Vu Vw _ _ Hu Hw;
    try (split; [exact I|reflexivity]).
  cbn [SFmul xorb].
  apply canonical_of_bounded in Vu as [Cu _]. apply canonical_of_bounded in Vw as [Cw _].
  rewrite binary_round_aux_eq.
  - pose proof (binary_round_shape false (mu * mw) (eu + ew)) as Hs.
    destruct (binary_round prec emax false (mu * mw) (eu + ew)) as [sz|sz| |sz m e];
      try contradiction; cbn [non_negative strictly_positive valid_binary].
    + subst sz. auto.
    + subst sz. auto.
    + destruct Hs as [-> Hb]. split; [|exact Hb].
      apply canonical_of_bounded in Hb as [Hc _].
      pose proof (fexp_ge_emin (Zpos (digits2_pos m) + e)). lia.
  - pose proof (digits2_pos_mul mu mw). revert Cu Cw H.
    unfold fexp, emin, SpecFloat.emin, prec, emax. lia.
Qed.

Lemma shl_align_value mx ex ez :
  ez <= ex -> Zpos (fst (shl_align mx ex ez)) = Zpos mx * 2 ^ (ex - ez).
Proof.
  intros H. unfold shl_align. destruct (ez - ex) as [|p|p] eqn:En; cbn [fst]; try lia.
  - replace (ex - ez) with 0 by lia. lia.
  - change (Pos.iter xO mx p) with (shift_pos p mx).
    rewrite shift_pos_correct, Z.pow_pos_fold. replace (ex - ez) with (Zpos p) by lia. lia.
Qed.

(* Doubles of one sign are ordered by exponent, then by mantissa. *)
Lemma SFltb_same_sign (s : bool) m1 e1 m2 e2 :
  e1 < e2 \/ (e1 = e2 /\ Zpos m1 <= Zpos m2) ->
  if s then SFltb (S754_finite true m1 e1) (S754_finite true m2 e2) = false
  else SFltb (S754_finite false m2 e2) (S754_finite false m1 e1) = false.
Proof.
  intros H. unfold SFltb, SFcompare.
  change (Pos.compare_cont Eq m1 m2) with (Pos.compare m1 m2).
  change (Pos.compare_cont Eq m2 m1) with (Pos.compare m2 m1).
  destruct s.
  - destruct (Z.compare_spec e1 e2); try reflexivity; [|lia].
    destruct (Pos.compare_spec m1 m2); try reflexivity; lia.
  - destruct (Z.compare_spec e2 e1); try reflexivity; [|lia].
    destruct (Pos.compare_spec m2 m1); try reflexivity; lia.
Qed.

Lemma SFltb_irrefl x : SFltb x x = false.
Proof.
  destruct x as [s|[|]| |[|] m e]; try reflexivity; unfold SFltb, SFcompare;
    rewrite Z.compare_refl; change (Pos.compare_cont Eq m m) with (Pos.compare m m);
    rewrite Pos.compare_refl; reflexivity.
Qed.


Lemma binary_normalize_shape z e :
  valid_binary prec emax (binary_normalize prec emax z e false) = true /\
  binary_normalize prec emax z e false <> S754_nan.
Proof.
  destruct z as [|p|p]; cbn [binary_normalize]; [split; [reflexivity|discriminate]| |].
  - pose proof (binary_round_shape false p e) as H.
    destruct (binary_round prec emax false p e); try contradiction;
      (split; [|discriminate]); [reflexivity|reflexivity|apply H].
  - pose proof (binary_round_shape true p e) as H.
    destruct (binary_round prec emax true p e); try contradiction;
      (split; [|discriminate]); [reflexivity|reflexivity|apply H].
Qed.

(* Adding a positive number to a double does not give less. *)
Lemma SFadd_finite_positive sx mx ex my ey :
  bounded prec emax mx ex = true ->
  SFltb (SFadd prec emax (S754_finite sx mx ex) (S754_finite false my ey))
        (S754_finite sx mx ex) = false.
Proof.
  intros Hb. apply canonical_of_bounded in Hb as [Hcan Hbd].
  cbn [SFadd]. cbn zeta.
  pose proof (shl_align_value mx ex (Z.min ex ey) ltac:(lia)) as Hx.
  pose proof (shl_align_value my ey (Z.min ex ey) ltac:(lia)) as Hy.
  set (Px := fst (shl_align mx ex (Z.min ex ey))) in *.
  set (Py := fst (shl_align my ey (Z.min ex ey))) in *.
  destruct sx; cbn [cond_Zopp].
  - destruct (- Zpos Px + Zpos Py) as [|P|P] eqn:ES; cbn [binary_normalize].
    + reflexivity.
    + pose proof (binary_round_shape false P (Z.min ex ey)) as Hs.
      destruct (binary_round prec emax false P (Z.min ex ey)) as [sz|sz| |sz m e];
        try contradiction; try (subst sz; reflexivity).
      destruct Hs as [-> _]. reflexivity.
    + pose proof (binary_round_upper true P mx (Z.min ex ey) ex Hcan Hbd
                    ltac:(lia) ltac:(lia)) as Hu.
      destruct (binary_round prec emax true P (Z.min ex ey)) as [sz|sz| |sz m e];
        try contradiction; [subst sz; reflexivity|].
      destruct Hu as [-> Hu]. refine (SFltb_same_sign true m e mx ex _); intuition lia.
  - change (Zpos Px + Zpos Py) with (Zpos (Px + Py)). cbn [binary_normalize].
    pose proof (binary_round_lower false (Px + Py) mx (Z.min ex ey) ex Hcan
                  ltac:(lia) ltac:(lia)) as Hl.
    destruct (binary_round prec emax false (Px + Py) (Z.min ex ey)) as [sz|sz| |sz m e];
      try contradiction; [subst sz; reflexivity|].
    destruct Hl as [-> Hl]. refine (SFltb_same_sign false mx ex m e _); intuition lia.
Qed.

(* Adding a negative number to a double does not give more. *)
Lemma SFadd_finite_negative sx mx ex my ey :
  bounded prec emax mx ex = true ->
  SFltb (S754_finite sx mx ex)
        (SFadd prec emax (S754_finite sx mx ex) (S754_finite true my ey)) = false.
Proof.
  intros Hb. apply canonical_of_bounded in Hb as [Hcan Hbd].
  cbn [SFadd]. cbn zeta.
  pose proof (shl_align_value mx ex (Z.min ex ey) ltac:(lia)) as Hx.
  pose proof (shl_align_value my ey (Z.min ex ey) ltac:(lia)) as Hy.
  set (Px := fst (shl_align mx ex (Z.min ex ey))) in *.
  set (Py := fst (shl_align my ey (Z.min ex ey))) in *.
  destruct sx; cbn [cond_Zopp].
  - change (- Zpos Px + - Zpos Py) with (Zneg (Px + Py)). cbn [binary_normalize].
    pose proof (binary_round_lower true (Px + Py) mx (Z.min ex ey) ex Hcan
                  ltac:(lia) ltac:(lia)) as Hl.
    destruct (binary_round prec emax true (Px + Py) (Z.min ex ey)) as [sz|sz| |sz m e];
      try contradiction; [subst sz; reflexivity|].
    destruct Hl as [-> Hl]. refine (SFltb_same_sign true mx ex m e _); intuition lia.
  - destruct (Zpos Px + - Zpos Py) as [|P|P] eqn:ES; cbn [binary_normalize].
    + reflexivity.
    + pose proof (binary_round_upper false P mx (Z.min ex ey) ex Hcan Hbd
                    ltac:(lia) ltac:(lia)) as Hu.
      destruct (binary_round prec emax false P (Z.min ex ey)) as [sz|sz| |sz m e];
        try contradiction; [subst sz; reflexivity|].
      destruct Hu as [-> Hu]. refine (SFltb_same_sign false m e mx ex _); intuition lia.
    + pose proof (binary_round_shape true P (Z.min ex ey)) as Hs.
      destruct (binary_round prec emax true P (Z.min ex ey)) as [sz|sz| |sz m e];
        try contradiction; try (subst sz; reflexivity).
      destruct Hs as [-> _]. reflexivity.
Qed.


(* Subtracting a non-negative double does not give more. *)
Lemma SFsub_non_negative x p :
  valid_binary prec emax x = true -> finite x = true ->
  non_negative p -> valid_binary prec emax p = true ->
  SFltb x (SFsub prec emax x p) = false /\
  valid_binary prec emax (SFsub prec emax x p) = true /\
  SFsub prec emax x p <> S754_nan.
Proof.
  intros Vx Fx Hp Vp.
  destruct p as [[|]|[|]| |[|] mp ep]; cbn [non_negative strictly_positive] in Hp;
    try contradiction.
  - destruct x as [[|]|sx| |sx mx ex]; try discriminate; cbn [SFsub];
      (split; [try reflexivity; apply SFltb_irrefl|split; [try reflexivity; exact Vx|discriminate]]).
  - destruct x as [[|]|sx| |sx mx ex]; try discriminate; cbn [SFsub negb];
      (split; [reflexivity|split; [reflexivity|discriminate]]).
  - destruct x as [sx|sx| |sx mx ex]; try discriminate.
    + cbn [SFsub negb]. split; [reflexivity|]. split; [exact Vp|discriminate].
    + change (SFsub prec emax (S754_finite sx mx ex) (S754_finite false mp ep))
        with (SFadd prec emax (S754_finite sx mx ex) (S754_finite true mp ep)).
      split; [apply SFadd_finite_negative; exact Vx|].
      cbn [SFadd]. apply binary_normalize_shape.
Qed.

(* Adding a non-negative double does not give less. *)
Lemma SFadd_non_negative a w :
  valid_binary prec emax a = true -> a <> S754_nan ->
  non_negative w -> finite w = true ->
  SFltb (SFadd prec emax a w) a = false /\ SFadd prec emax a w <> S754_nan.
Proof.
  intros Va Ha Hw Fw.
  destruct w as [[|]|[|]| |[|] mw ew]; cbn [non_negative strictly_positive] in Hw;
    try contradiction; try discriminate.
  - destruct a as [[|]|[|]| |sa ma ea]; try contradiction; cbn [SFadd];
      (split; [try reflexivity; apply SFltb_irrefl|discriminate]).
  - destruct a as [[|]|[|]| |sa ma ea]; try contradiction;
      try (cbn [SFadd]; split; [reflexivity|discriminate]).
    split; [apply SFadd_finite_positive; exact Va|].
    cbn [SFadd]. apply binary_normalize_shape.
Qed.

(* The initial interval on doubles: its left end is not right of the
   current coordinate nor of its right end. *)
Lemma initial_interval_order x_d u width :
  valid_binary prec emax x_d = true -> finite x_d = true ->
  valid_binary prec emax u = true -> finite u = true -> non_negative u ->
  valid_binary prec emax width = true -> finite width = true -> non_negative width ->
  let a := interval_left x_d u width in
  let b := interval_right a width in
  a <> nan /\ (x_d <? a)%fl = false /\ b <> nan /\ (b <? a)%fl = false.
Proof.
  intros Vx Fx Vu Fu Hu Vw Fw Hw. cbn zeta. unfold interval_left, interval_right.
  cbn [fsub fmul fadd flt float64].
  destruct (SFmul_non_negative u width Vu Vw Fu Fw Hu Hw) as [Hp Vp].
  destruct (SFsub_non_negative x_d _ Vx Fx Hp Vp) as (Hle & Va & Ha).
  destruct (SFadd_non_negative _ width Va Ha Hw Fw) as (Hab & Hb).
  auto.
Qed.

End Rounding64.

(** ** The main theorems *)

Section Claims.
Context {F : Type} {FF : Float F} {RD : Type} {RS : RandomState F RD}.
Variable logprob : list F -> F.
Variable uninit : F.

Local Open Scope float_scope.

(** C1: every state [sample] emits was produced by an elementary step of
    [_sample] whose rejection loop accepted it, that is, its log-density
    is strictly above the slice height [logy] that step computed when it
    started; and the log-density the generator caches is that of the
    emitted state. *)
Theorem emitted_state_above_slice_height fuel g (w : world F RD) s g' w' :
  next_sample logprob fuel g w = Ok (s, g') w' ->
  exists fr w0 fr',
    next__sample logprob fuel fr w0 = Ok (s, fr') w' /\
    g' = Sampling fr' /\
    frame_x fr' = s /\
    cached logprob fr' = logprob s /\
    (logprob s >? logy_at logprob fr w0) = true.
Proof.
  intros H.
  assert (exists fr w0 fr',
             next__sample logprob fuel fr w0 = Ok (s, fr') w' /\
             g' = Sampling fr') as (fr & w0 & fr' & E & ->).
  { destruct g as [init|state].
    - apply next_sample_Created in H as (st1 & prev & w1 & fr' & _ & E & ->).
      eauto.
    - apply next_sample_Sampling in H as (fr' & E & ->). eauto. }
  exists fr, w0, fr'. split; [exact E|]. split; [reflexivity|].
  apply next__sample_Ok in E as (_ & c & Hs & -> & Hacc).
  cbn [frame_x cached]. auto.
Qed.

(** C5: for [nsteps >= 0], [run] returns exactly when [nsteps] successive
    pulls from the generator succeed, its result is the list of the
    pulled states in order (no cell of the allocated matrix survives),
    the world it leaves is the one after the last of these pulls, the
    matrix has [nsteps] rows of [len(init)] entries, and for
    [nsteps = 0] it returns the empty matrix without touching the world
    (no draw, no evaluation, not even the generator's first line). *)
Theorem run_pulls_exactly_nsteps fuel init nsteps (w : world F RD) :
  (0 <= nsteps)%Z ->
  (forall m w',
      run logprob uninit fuel init nsteps w = Ok m w' <->
      exists g', pulls logprob fuel (Z.to_nat nsteps) (sample init) w m g' w') /\
  (forall m w',
      run logprob uninit fuel init nsteps w = Ok m w' ->
      length m = Z.to_nat nsteps /\
      Forall (fun row => length row = length init) m) /\
  (nsteps = 0%Z -> run logprob uninit fuel init nsteps w = Ok [] w).
Proof.
  intros Hn.
  assert (Hiff : forall m w',
      run logprob uninit fuel init nsteps w = Ok m w' <->
      exists g', pulls logprob fuel (Z.to_nat nsteps) (sample init) w m g' w')
    by (intros m w'; apply run_Ok; exact Hn).
  split; [exact Hiff|]. split.
  - intros m w' H. apply Hiff in H as (g' & P).
    apply pulls_shape in P. exact P.
  - intros ->. reflexivity.
Qed.

(** C3 (amended): nothing validates the configuration, and no call ends
    in [InvalidConfiguration].  A negative [nsteps] fails at once with
    the [ValueError] of the allocation, the world untouched; with
    [ntune <= 0] the first pull goes from the default widths straight to
    the first elementary step; for an empty [init], [nsteps = 0] returns
    the empty matrix and any positive [nsteps] never returns; and a
    width vector with no entry for dimension [d] raises [IndexError]
    when the elementary step on [d] starts. *)
Theorem configuration_is_not_validated fuel init nsteps (w : world F RD) :
  (forall e w', run logprob uninit fuel init nsteps w = Raise e w' ->
                e <> InvalidConfiguration) /\
  ((nsteps < 0)%Z -> run logprob uninit fuel init nsteps w = Raise ValueError w) /\
  ((ntune w <= 0)%Z ->
     next_sample logprob fuel (sample init) w =
     bind (next__sample logprob fuel (_sample init))
          (fun p => ret (fst p, Sampling (snd p))) (defaulted init w)) /\
  (init = [] -> nsteps = 0%Z -> run logprob uninit fuel init nsteps w = Ok [] w) /\
  (init = [] -> (0 < nsteps)%Z -> run logprob uninit fuel init nsteps w = OutOfFuel) /\
  (forall ws x x_prob d,
      widths w = Some ws -> (length ws <= d)%nat ->
      elementary logprob fuel x x_prob d w = Raise IndexError w).
Proof.
  repeat split.
  - intros e w' H.
    eapply keeps_Raise in H; [|apply keeps_run]. apply H.
  - intros Hn. apply Z.ltb_lt in Hn. unfold run, run_gen, np_empty, bind.
    rewrite Hn. reflexivity.
  - apply next_sample_untuned.
  - intros -> ->. reflexivity.
  - intros -> Hn. unfold run, run_gen, np_empty.
    replace (nsteps <? 0)%Z with false by (symmetry; apply Z.ltb_ge; lia).
    destruct (Z.to_nat nsteps) as [|n] eqn:E; [lia|].
    unfold bind at 1 2. cbn [ret zip_loop]. unfold bind at 1.
    rewrite next_sample_nil. reflexivity.
  - intros ws x x_prob d Hws Hd. unfold elementary, bind, get_width, index.
    rewrite Hws. rewrite (lookup_ge_None_2 ws d) by lia. reflexivity.
Qed.

(** C4: a pull from a generator that is already sampling leaves the
    widths as they are (they are frozen), and so does any number of
    further pulls; the first pull fills in the default widths and then
    runs the tuning steps of [ntune] sweeps, that is [ntune * len(init)]
    elementary steps, each followed by the update
    [widths[d] = 0.1 * |cur[d] - prev[d]| + 0.9 * widths[d]] of the width
    of its dimension (the steps of [tuning], each the body [tune_step] of
    the inner tuning loop), their states being kept only as the next
    [prev]; the state it returns is the one pulled after them, and with
    [ntune <= 0] the widths are the configured or default ones. *)
Theorem widths_change_only_while_tuning fuel g (w : world F RD) s g' w' :
  next_sample logprob fuel g w = Ok (s, g') w' ->
  match g with
  | Sampling _ => widths w' = widths w
  | Created init =>
      exists st1 prev w1 fr',
        tuning logprob fuel (sweeps (Z.to_nat (ntune w)) (length init))
               (Fresh init, init) (defaulted init w) (st1, prev) w1 /\
        length (sweeps (Z.to_nat (ntune w)) (length init)) =
          (Z.to_nat (ntune w) * length init)%nat /\
        next__sample logprob fuel st1 w1 = Ok (s, fr') w' /\
        g' = Sampling fr' /\
        widths w' = widths w1 /\
        ((ntune w <= 0)%Z -> widths w' = widths (defaulted init w))
  end /\
  (forall n rows g'' w'',
      pulls logprob fuel n g' w' rows g'' w'' -> widths w'' = widths w') /\
  (forall d state prev (w0 : world F RD) state' cur w0',
      tune_step logprob fuel d (state, prev) w0 = Ok (state', cur) w0' ->
      exists w1 ws width cur_d prev_d,
        next__sample logprob fuel state w0 = Ok (cur, state') w1 /\
        widths w1 = Some ws /\ ws !! d = Some width /\
        cur !! d = Some cur_d /\ prev !! d = Some prev_d /\
        widths w0' =
          Some (<[d := (tenth * fabs (cur_d - prev_d) + nine_tenths * width)%fl]> ws)).
Proof.
  intros H. split; [|split].
  - destruct g as [init|state].
    + pose proof H as H'.
      apply next_sample_Created in H as (st1 & prev & w1 & fr' & T & E & ->).
      exists st1, prev, w1, fr'. split; [exact T|].
      split; [apply length_sweeps|]. split; [exact E|]. split; [reflexivity|].
      split.
      * eapply keeps_Ok in E; [|apply keeps_next__sample]. apply E.
      * intros Hle.
        apply next_sample_Created_widths in H'
          as (_ & ws & ws' & Hd & E' & _ & Hsame).
        rewrite E', Hd, (Hsame Hle). reflexivity.
    + apply next_sample_Sampling_frozen in H. apply H.
  - intros n rows g'' w'' P.
    assert (exists fr', g' = Sampling fr') as (fr' & ->).
    { destruct g as [init|state].
      - apply next_sample_Created in H as (_ & _ & _ & fr' & _ & _ & ->). eauto.
      - apply next_sample_Sampling in H as (fr' & _ & ->). eauto. }
    apply pulls_Sampling_frozen in P. apply P.
  - intros d state prev w0 state' cur w0' T.
    apply tune_step_Ok in T
      as (cur0 & state1 & w1 & ws & cur_d & prev_d & width &
          E & Hws & Hw & Hc & Hp & Hst & ->).
    inversion Hst; subst. exists w1, ws, width, cur_d, prev_d. auto 10.
Qed.

(** C8 (amended): every row [run] returns has length [len(init)]; row [i]
    is the result of one elementary step of [_sample] on dimension
    [i mod len(init)], so it differs from the internal state that step
    started from in at most that one coordinate, and for [i > 0] that
    internal state is the previous row. *)
Theorem snapshot_differs_in_at_most_one_coordinate
    fuel init nsteps (w : world F RD) m w' :
  run logprob uninit fuel init nsteps w = Ok m w' ->
  Forall (fun row => length row = length init) m /\
  forall i r, m !! i = Some r ->
    exists fr w0 w1,
      let d := (i mod length init)%nat in
      next__sample logprob fuel fr w0 = Ok (r, Yielded r (logprob r) d) w1 /\
      (d < length init)%nat /\
      differ_only_at d (frame_x fr) r /\
      (forall r0, (0 < i)%nat -> m !! pred i = Some r0 -> frame_x fr = r0).
Proof.
  intros H.
  assert (Hn : (0 <= nsteps)%Z).
  { destruct (nsteps <? 0)%Z eqn:E; [|apply Z.ltb_ge; exact E].
    unfold run, run_gen, np_empty in H. rewrite E in H. discriminate. }
  apply run_Ok in H as (g' & P); [|exact Hn].
  pose proof (pulls_shape _ _ _ _ _ _ _ _ P) as [_ Hall].
  cbn [sample sample_x] in Hall.
  split; [exact Hall|]. intros i r Hi.
  destruct (pulls_rows _ _ _ _ _ _ _ _ P i r Hi)
    as (fr & w0 & w1 & E & Hlt & Hd & Hp & _).
  cbn [gen_dim sample sample_x] in E, Hlt, Hd. rewrite Nat.add_0_l in *.
  exists fr, w0, w1. cbn zeta. split; [exact E|].
  split; [|split; [exact Hd|exact Hp]].
  rewrite Forall_lookup in Hall. rewrite (Hall _ _ Hi) in Hlt. exact Hlt.
Qed.

(** C10: when [widths] is [None], the first pull from the generator a
    [sample] call returned behaves as the same pull on a sampler whose
    widths are [len(init)] ones (the default is stored before anything
    else runs); after it the instance holds a width vector of length
    [len(init)], all ones when no tuning is configured; and whatever
    later [sample] calls on the instance are consumed, for whatever
    initial vectors, the stored vector keeps that length (it is not
    derived again), and keeps its entries when no tuning is configured. *)
Theorem default_widths_fixed_at_first_use fuel init (w : world F RD) s g' w' :
  widths w = None ->
  next_sample logprob fuel (sample init) w = Ok (s, g') w' ->
  next_sample logprob fuel (sample init) w =
    next_sample logprob fuel (sample init)
                (set_widths (Some (replicate (length init) one)) w) /\
  exists ws,
    widths w' = Some ws /\ length ws = length init /\
    ((ntune w <= 0)%Z -> ws = replicate (length init) one) /\
    forall fuel2 init2 n rows g2 w2,
      pulls logprob fuel2 n (sample init2) w' rows g2 w2 ->
      exists ws2, widths w2 = Some ws2 /\ length ws2 = length ws /\
                  ((ntune w <= 0)%Z -> ws2 = ws).
Proof.
  intros Hnone H. split.
  - unfold sample. cbn [next_sample]. unfold bind at 1 3.
    rewrite !default_widths_eq. unfold defaulted. cbn [widths set_widths].
    rewrite Hnone. destruct w; reflexivity.
  - apply next_sample_Created_widths in H
      as (Hn & ws & ws' & Hd & E' & Hlen & Hsame).
    destruct (defaulted_widths init w) as (ws0 & Hd0 & Hones & _).
    rewrite Hd in Hd0. inversion Hd0; subst ws0. specialize (Hones Hnone).
    exists ws'. split; [exact E'|].
    split; [rewrite Hlen, Hones; apply length_replicate|].
    split; [intros Hle; rewrite (Hsame Hle); exact Hones|].
    intros fuel2 init2 n rows g2 w2 P.
    destruct (pulls_widths _ _ _ _ _ _ _ _ _ P E') as (ws2 & E2 & Hlen2 & Hsame2).
    exists ws2. rewrite Hn in Hsame2. auto.
Qed.

End Claims.

(** C2: an elementary step on dimension [d] reads [width = widths[d]],
    draws [e] from the exponential and then [u] from the uniform
    generator, and continues (step-out, shrinkage) with the slice height
    [logy = x_prob - e - 1e-9] and the interval [a = x[d] - u * width],
    [b = a + width], all computed in floating point; on doubles, for a
    finite [x[d]] and finite [u >= 0] and [width >= 0], neither end is
    NaN, the left end is not right of the current coordinate
    ([x[d] < a] is false) and not right of the right end ([b < a] is
    false). *)
Theorem slice_height_and_initial_interval :
  (forall (F : Type) (FF : Float F) (RD : Type) (RS : RandomState F RD)
          (logprob : list F -> F) fuel x x_prob d (w : world F RD) ws width x_d,
      widths w = Some ws -> ws !! d = Some width -> x !! d = Some x_d ->
      let e := fst (exponential (rd w)) in
      let u := fst (uniform (snd (exponential (rd w)))) in
      let logy := (x_prob - e - epsilon)%fl in
      let a := (x_d - u * width)%fl in
      let b := (a + width)%fl in
      elementary logprob fuel x x_prob d w =
      slice_coordinate logprob fuel x d width logy x_d a b (after_two_draws w)) /\
  (forall x_d u width : spec_float,
      valid_binary Binary64.prec Binary64.emax x_d = true ->
      Binary64.finite x_d = true ->
      valid_binary Binary64.prec Binary64.emax u = true ->
      Binary64.finite u = true -> Binary64.non_negative u ->
      valid_binary Binary64.prec Binary64.emax width = true ->
      Binary64.finite width = true -> Binary64.non_negative width ->
      let a := (x_d - u * width)%fl in
      let b := (a + width)%fl in
      a <> Binary64.nan /\ (x_d <? a)%fl = false /\
      b <> Binary64.nan /\ (b <? a)%fl = false).
Proof.
  split.
  - intros F FF RD RS logprob fuel x x_prob d w ws width x_d Hws Hw Hx.
    cbn zeta. eapply elementary_eq; eassumption.
  - intros x_d u width Vx Fx Vu Fu Hu Vw Fw Hw.
    exact (initial_interval_order x_d u width Vx Fx Vu Fu Hu Vw Fw Hw).
Qed.



(** ** Two runs on two random sources *)

Section TwoSources.
Context {F : Type} {FF : Float F} {RD1 RD2 : Type}
        {RS1 : RandomState F RD1} {RS2 : RandomState F RD2}.
Variable logprob : list F -> F.

Variable R : RD1 -> RD2 -> Prop.

Hypothesis HR : same_draws R.

Lemma rel_ret {A} (a : A) : M_rel (F:=F) R (ret a) (ret a).
Proof. intros w1 w2 Hw. cbn. auto. Qed.

Lemma rel_raise {A} e : M_rel (F:=F) (A:=A) R (raise e) (raise e).
Proof. intros w1 w2 Hw. cbn. auto. Qed.

Lemma rel_bind {A B} (m1 : M F RD1 A) (m2 : M F RD2 A)
    (k1 : A -> M F RD1 B) (k2 : A -> M F RD2 B) :
  M_rel (F:=F) R m1 m2 -> (forall a, M_rel (F:=F) R (k1 a) (k2 a)) -> M_rel (F:=F) R (bind m1 k1) (bind m2 k2).
Proof.
  intros Hm Hk w1 w2 Hw. unfold bind. specialize (Hm w1 w2 Hw).
  destruct (m1 w1) as [a1 w1'|e1 w1'|], (m2 w2) as [a2 w2'|e2 w2'|];
    cbn in Hm; try contradiction; try exact Hm.
  destruct Hm as [-> Hw']. apply Hk. exact Hw'.
Qed.

Lemma rel_call_logprob x : M_rel (F:=F) R (call_logprob logprob x) (call_logprob logprob x).
Proof.
  intros w1 w2 (Hws & Hn & Hr & Hd & He). cbn. unfold world_rel. cbn.
  auto 10.
Qed.

Lemma rel_rd_exp : M_rel (F:=F) R rd_exp rd_exp.
Proof.
  intros w1 w2 (Hws & Hn & Hr & Hd & He). rewrite !rd_exp_eq.
  destruct (HR _ _ Hr) as (E1 & E2 & _). cbn. unfold world_rel. cbn. auto 10.
Qed.

Lemma rel_rd_uniform : M_rel (F:=F) R rd_uniform rd_uniform.
Proof.
  intros w1 w2 (Hws & Hn & Hr & Hd & He). rewrite !rd_uniform_eq.
  destruct (HR _ _ Hr) as (_ & _ & E1 & E2). cbn. unfold world_rel. cbn. auto 10.
Qed.

Lemma rel_index v d : M_rel (F:=F) R (index v d) (index v d).
Proof. unfold index. destruct (v !! d); [apply rel_ret|apply rel_raise]. Qed.

Lemma rel_get_width d : M_rel (F:=F) R (get_width d) (get_width d).
Proof.
  intros w1 w2 Hw. unfold get_width. pose proof Hw as (Hws & _).
  rewrite <- Hws. clear Hws. destruct (widths w1) as [ws|] eqn:E.
  - apply rel_index. exact Hw.
  - cbn. split; [reflexivity|exact Hw].
Qed.

Lemma rel_set_width d v : M_rel (F:=F) R (set_width d v) (set_width d v).
Proof.
  intros w1 w2 Hw. unfold set_width. pose proof Hw as (Hws & Hn & Hr & Hd & He).
  rewrite <- Hws. clear Hws. destruct (widths w1) as [ws|] eqn:E.
  - destruct (d <? length ws)%nat; cbn; [|auto].
    unfold world_rel; cbn; auto 10.
  - cbn. auto.
Qed.

Lemma rel_step_out op fuel x d width logy : forall xd,
  M_rel (F:=F) R (step_out logprob op fuel x d width logy xd)
        (step_out logprob op fuel x d width logy xd).
Proof.
  induction fuel as [|fuel IH]; intros xd; [intros w1 w2 _; exact I|].
  cbn [step_out]. apply rel_bind; [apply rel_call_logprob|].
  intros lp. destruct (flt logy lp); [apply IH|apply rel_ret].
Qed.

Lemma rel_shrink fuel x d x_p logy : forall a b,
  M_rel (F:=F) R (shrink logprob fuel x d x_p logy a b)
        (shrink logprob fuel x d x_p logy a b).
Proof.
  induction fuel as [|fuel IH]; intros a b; [intros w1 w2 _; exact I|].
  cbn [shrink]. apply rel_bind; [apply rel_rd_uniform|]. intros v.
  apply rel_bind; [apply rel_call_logprob|]. intros p.
  destruct (flt logy p); [apply rel_ret|]. destruct (flt _ x_p); apply IH.
Qed.

Lemma rel_elementary fuel x x_prob d :
  M_rel (F:=F) R (elementary logprob fuel x x_prob d) (elementary logprob fuel x x_prob d).
Proof.
  unfold elementary, slice_coordinate.
  apply rel_bind; [apply rel_get_width|]. intros width.
  apply rel_bind; [apply rel_rd_exp|]. intros e.
  apply rel_bind; [apply rel_index|]. intros x_d.
  apply rel_bind; [apply rel_rd_uniform|]. intros u.
  apply rel_bind; [apply rel_step_out|]. intros a.
  apply rel_bind; [apply rel_step_out|]. intros b.
  apply rel_bind; [apply rel_shrink|]. intros [c p]. apply rel_ret.
Qed.

Lemma rel_resume fuel x x_prob : forall d,
  M_rel (F:=F) R (resume logprob fuel x x_prob d) (resume logprob fuel x x_prob d).
Proof.
  induction fuel as [|fuel IH]; intros d; [intros w1 w2 _; exact I|].
  cbn [resume]. destruct (d <? length x)%nat; [|apply IH].
  apply rel_bind; [apply rel_elementary|]. intros [x' p]. apply rel_ret.
Qed.

Lemma rel_next__sample fuel state :
  M_rel (F:=F) R (next__sample logprob fuel state) (next__sample logprob fuel state).
Proof.
  destruct state as [init|x x_prob d]; cbn [next__sample]; [|apply rel_resume].
  apply rel_bind; [apply rel_call_logprob|]. intros p. apply rel_resume.
Qed.

Lemma rel_for_each {A S} (b1 : A -> S -> M F RD1 S) (b2 : A -> S -> M F RD2 S) l :
  (forall a s, M_rel (F:=F) R (b1 a s) (b2 a s)) ->
  forall s, M_rel (F:=F) R (for_each b1 l s) (for_each b2 l s).
Proof.
  intros Hb. induction l as [|a l IH]; intros s; cbn [for_each].
  - apply rel_ret.
  - apply rel_bind; [apply Hb|exact IH].
Qed.

Lemma rel_tune_step fuel d st :
  M_rel (F:=F) R (tune_step logprob fuel d st) (tune_step logprob fuel d st).
Proof.
  destruct st as [state prev]. unfold tune_step.
  apply rel_bind; [apply rel_next__sample|]. intros [cur state'].
  apply rel_bind; [apply rel_index|]. intros cur_d.
  apply rel_bind; [apply rel_index|]. intros prev_d.
  apply rel_bind; [apply rel_get_width|]. intros width.
  apply rel_bind; [apply rel_set_width|]. intros _. apply rel_ret.
Qed.

Lemma rel_next_sample fuel g :
  M_rel (F:=F) R (next_sample logprob fuel g) (next_sample logprob fuel g).
Proof.
  destruct g as [init|state]; cbn [next_sample].
  - apply rel_bind.
    { intros w1 w2 Hw. unfold default_widths.
      pose proof Hw as (Hws & Hn & Hr & Hd & He).
      rewrite <- Hws. clear Hws. destruct (widths w1) eqn:E; cbn; [auto|].
      unfold world_rel; cbn; auto 10. }
    intros _. apply rel_bind.
    { intros w1 w2 Hw. cbn. split; [apply Hw|exact Hw]. }
    intros n. apply rel_bind.
    { destruct (0 <? n)%Z; [|apply rel_ret]. unfold tune.
      apply rel_for_each. intros _ s. apply rel_for_each. apply rel_tune_step. }
    intros [state prev]. apply rel_bind; [apply rel_next__sample|].
    intros [s state']. apply rel_ret.
  - apply rel_bind; [apply rel_next__sample|]. intros [s state']. apply rel_ret.
Qed.

(* The two matrices being filled agree on the rows written so far, and
   when the loops end every row has been written. *)
Lemma rel_zip_loop fuel n : forall i g (s1 s2 : list (list F)),
  length s1 = (i + n)%nat -> length s2 = (i + n)%nat -> take i s1 = take i s2 ->
  M_rel (F:=F) R (zip_loop logprob fuel n i g s1) (zip_loop logprob fuel n i g s2).
Proof.
  induction n as [|n IH]; intros i g s1 s2 H1 H2 Ht; cbn [zip_loop].
  - intros w1 w2 Hw. cbn. split; [|exact Hw].
    rewrite Nat.add_0_r in H1, H2.
    rewrite <- (firstn_all s1), <- (firstn_all s2), H1, H2.
    f_equal. exact Ht.
  - apply rel_bind; [apply rel_next_sample|]. intros [s g'].
    apply IH.
    + rewrite length_insert. lia.
    + rewrite length_insert. lia.
    + rewrite !(take_S_r _ _ s) by (apply list_lookup_insert_eq; lia).
      rewrite !take_insert_ge by lia. congruence.
Qed.

Lemma rel_run uninit1 uninit2 fuel init nsteps :
  M_rel (F:=F) R (run logprob uninit1 fuel init nsteps) (run logprob uninit2 fuel init nsteps).
Proof.
  unfold run, run_gen, np_empty. apply rel_bind; [|intros [m g]; apply rel_ret].
  destruct (nsteps <? 0)%Z eqn:E.
  - intros w1 w2 Hw. cbn. auto.
  - intros w1 w2 Hw. unfold bind, ret.
    apply rel_zip_loop; [| |reflexivity|exact Hw];
      rewrite length_replicate; reflexivity.
Qed.

End TwoSources.

(** C9: two runs with the same log-density, initial vector and [nsteps],
    on samplers in the same configuration and with random sources that
    produce the same draws, end in the same way; a run that returns a
    matrix returns the very matrix the other run returns, whatever the
    memory [np.empty] handed to either of them contained, and whatever
    fuel either of them was given. *)
Theorem identical_draws_give_identical_output
    {F : Type} {FF : Float F} {RD1 RD2 : Type}
    {RS1 : RandomState F RD1} {RS2 : RandomState F RD2}
    (logprob : list F -> F) (R : RD1 -> RD2 -> Prop)
    (uninit1 uninit2 : F) fuel init nsteps
    (w1 : world F RD1) (w2 : world F RD2) :
  same_draws R ->
  world_rel R w1 w2 ->
  outcome_rel R (run logprob uninit1 fuel init nsteps w1)
                (run logprob uninit2 fuel init nsteps w2) /\
  (forall m w1',
     run logprob uninit1 fuel init nsteps w1 = Ok m w1' ->
     exists w2', run logprob uninit2 fuel init nsteps w2 = Ok m w2' /\
                 world_rel R w1' w2') /\
  (forall fuel1 fuel2 m1 m2 w1' w2',
     run logprob uninit1 fuel1 init nsteps w1 = Ok m1 w1' ->
     run logprob uninit2 fuel2 init nsteps w2 = Ok m2 w2' ->
     m1 = m2 /\ world_rel R w1' w2').
Proof.
  intros HR Hw.
  pose proof (rel_run logprob R HR uninit1 uninit2 fuel init nsteps w1 w2 Hw) as H.
  split; [exact H|]. split.
  - intros m w1' E. rewrite E in H.
    destruct (run logprob uninit2 fuel init nsteps w2) as [m2 w2'| |];
      cbn in H; try contradiction.
    destruct H as [-> Hw']. exists w2'. auto.
  - intros fuel1 fuel2 m1 m2 w1' w2' E1 E2.
    pose proof (run_fuel logprob uninit1 fuel1 (Nat.max fuel1 fuel2) init nsteps
                  (Nat.le_max_l _ _) w1) as F1.
    pose proof (run_fuel logprob uninit2 fuel2 (Nat.max fuel1 fuel2) init nsteps
                  (Nat.le_max_r _ _) w2) as F2.
    rewrite E1 in F1. rewrite E2 in F2.
    specialize (F1 ltac:(discriminate)). specialize (F2 ltac:(discriminate)).
    pose proof (rel_run logprob R HR uninit1 uninit2 (Nat.max fuel1 fuel2)
                  init nsteps w1 w2 Hw) as H'.
    rewrite F1, F2 in H'. exact H'.
Qed.

(** C7: on binary64, starting from widths that are positive doubles, any
    finite sequence of tuning updates
    [widths[d] = 0.1 * |delta| + 0.9 * widths[d]] with finite deltas
    leaves every width strictly positive (rounding can take a width to
    plus infinity, never to zero, below zero or to NaN); and the update a
    tuning step of the program performs is this one, with [delta] the
    difference between the new and the previous state in coordinate
    [d]. *)
Theorem tuned_widths_stay_positive
    (ws : list spec_float) (updates : list (nat * spec_float)) :
  Forall Binary64.positive_double ws ->
  Forall (fun u => Binary64.finite (snd u) = true) updates ->
  Forall (fun w => (zero <? w)%fl = true /\ Binary64.strictly_positive w)
         (fold_left (fun ws u => tune_width ws (fst u) (snd u)) updates ws) /\
  forall (RD : Type) (RS : RandomState spec_float RD) logprob fuel d state prev
         (w : world spec_float RD) st' w' ws0,
    tune_step logprob fuel d (state, prev) w = Ok st' w' ->
    widths w = Some ws0 ->
    exists cur_d prev_d,
      snd st' !! d = Some cur_d /\ prev !! d = Some prev_d /\
      widths w' = Some (tune_width ws0 d (cur_d - prev_d)%fl).
Proof.
  intros Hws Hup. split.
  - assert (Hinv : Forall Binary64.strictly_positive ws).
    { eapply Forall_impl; [exact Hws|]. intros x [Hv Hp].
      apply valid_positive; assumption. }
    clear Hws.
    assert (Hfold : Forall Binary64.strictly_positive
              (fold_left (fun ws u => tune_width ws (fst u) (snd u)) updates ws)).
    { revert ws Hinv. induction Hup as [|[d delta] updates Hd _ IH]; intros ws Hinv.
      - exact Hinv.
      - cbn [fold_left fst snd] in *. apply IH. unfold tune_width.
        destruct (ws !! d) as [width|] eqn:E; [|exact Hinv].
        apply Forall_insert; [exact Hinv|].
        apply ema_positive; [exact Hd|].
        eapply Forall_lookup_1; eassumption. }
    eapply Forall_impl; [exact Hfold|]. intros x Hx.
    split; [apply positive_SFltb|]; exact Hx.
  - intros RD RS logprob fuel d state prev w st' w' ws0 H Hw.
    eapply tune_step_widths; eassumption.
Qed.

(** ** The theorems at concrete inputs *)

Section Witnesses.
Import Binary64 Scenario.

(* The decimal literals of the source, read as doubles: each is the
   correctly rounded quotient of two integers. *)
Lemma literals_are_nearest_doubles :
  lit_1 = of_Z 1 /\
  lit_0_1 = SFdiv prec emax (of_Z 1) (of_Z 10) /\
  lit_0_9 = SFdiv prec emax (of_Z 9) (of_Z 10) /\
  lit_1e_9 = SFdiv prec emax (of_Z 1) (of_Z 1000000000) /\
  half = SFdiv prec emax (of_Z 1) (of_Z 2).
Proof. repeat split; vm_compute; reflexivity. Qed.

Lemma emitted_state_above_slice_height_witness :
  exists s g' w',
    next_sample normal_logpdf 100 (sample origin) (default_sampler varied_source)
      = Ok (s, g') w' /\
    exists fr w0 fr',
      next__sample normal_logpdf 100 fr w0 = Ok (s, fr') w' /\
      g' = Sampling fr' /\
      frame_x fr' = s /\
      cached normal_logpdf fr' = normal_logpdf s /\
      (normal_logpdf s >? logy_at normal_logpdf fr w0)%fl = true.
Proof.
  destruct (next_sample normal_logpdf 100 (sample origin)
              (default_sampler varied_source)) as [[s g'] w'| |] eqn:E;
    [|vm_compute in E; discriminate E..].
  exists s, g', w'. split; [reflexivity|].
  exact (emitted_state_above_slice_height normal_logpdf 100 (sample origin)
           (default_sampler varied_source) s g' w' E).
Defined.

(** C2, as stated, fails on doubles: with [x[d] = width = 1.0] and a
    uniform draw of [1 - 2^-53] the elementary step starts from an
    interval whose right end is [x[d]] itself, so [x[d] < b] is false,
    and whose length [b - a] is not [width]; with [x[d] = 1e17],
    [width = 1.0] and a draw of [0.5] both ends are [x[d]]. *)
Lemma initial_interval_can_miss_the_coordinate :
  (exists logy a b,
      (forall fuel,
          elementary normal_logpdf fuel [lit_1; zero] (normal_logpdf [lit_1; zero])
                     0 near_one_sampler =
          slice_coordinate normal_logpdf fuel [lit_1; zero] 0 lit_1 logy lit_1 a b
                           (after_two_draws near_one_sampler)) /\
      a = (lit_1 - almost_one * lit_1)%fl /\ b = (a + lit_1)%fl /\
      (zero <? lit_1)%fl = true /\
      (almost_one <? zero)%fl = false /\ (almost_one <? one)%fl = true /\
      b = lit_1 /\ (lit_1 <? b)%fl = false /\ (b - a)%fl <> lit_1) /\
  (let a := (large - half * lit_1)%fl in
   let b := (a + lit_1)%fl in
   (half <? zero)%fl = false /\ (half <? one)%fl = true /\
   a = large /\ b = large /\ (large <? b)%fl = false /\ (b - a)%fl <> lit_1).
Proof.
  split.
  - eexists _, _, _. split.
    + intros fuel.
      exact (elementary_eq normal_logpdf fuel [lit_1; zero] _ 0%nat near_one_sampler
               [lit_1; lit_1] lit_1 lit_1 eq_refl eq_refl eq_refl).
    + repeat split; try (vm_compute; reflexivity); vm_compute; discriminate.
  - cbn zeta. repeat split; try (vm_compute; reflexivity); vm_compute; discriminate.
Qed.

Lemma slice_height_and_initial_interval_witness :
  (let w := World (Some [lit_1; lit_1]) 0 varied_source 0 0 in
   let e := fst (exponential (rd w)) in
   let u := fst (uniform (snd (exponential (rd w)))) in
   let logy := (normal_logpdf origin - e - epsilon)%fl in
   let a := (zero - u * lit_1)%fl in
   let b := (a + lit_1)%fl in
   elementary normal_logpdf 100 origin (normal_logpdf origin) 0 w =
   slice_coordinate normal_logpdf 100 origin 0 lit_1 logy zero a b
                    (after_two_draws w)) /\
  (let a := (large - half * lit_1)%fl in
   let b := (a + lit_1)%fl in
   a <> nan /\ (large <? a)%fl = false /\ b <> nan /\ (b <? a)%fl = false).
Proof.
  split.
  - exact (proj1 slice_height_and_initial_interval spec_float float64
             (script spec_float) (scripted spec_float) normal_logpdf 100 origin
             (normal_logpdf origin) 0%nat
             (World (Some [lit_1; lit_1]) 0 varied_source 0 0)
             [lit_1; lit_1] lit_1 zero eq_refl eq_refl eq_refl).
  - refine (proj2 slice_height_and_initial_interval large half lit_1
              eq_refl eq_refl eq_refl eq_refl _ eq_refl eq_refl _);
      cbn; unfold emin, SpecFloat.emin, prec, emax; lia.
Defined.

(** C3, as stated, fails: a negative [ntune] is an invalid configuration,
    yet the run is not stopped by any error: it draws, evaluates and
    returns three rows. *)
Lemma negative_ntune_is_not_rejected :
  invalid_configuration origin 3 negative_ntune /\
  exists m w',
    run normal_logpdf nan 100 origin 3 negative_ntune = Ok m w' /\
    length m = 3%nat /\ (0 < draws w')%nat /\ (0 < evals w')%nat.
Proof.
  split.
  - right. left. cbn. lia.
  - eexists _, _. split; [vm_compute; reflexivity|].
    cbn. repeat split; lia.
Qed.

Lemma configuration_is_not_validated_witness :
  (-1 < 0)%Z /\
  run normal_logpdf nan 100 origin (-1) negative_ntune
    = Raise ValueError negative_ntune.
Proof.
  split; [lia|].
  exact (proj1 (proj2 (configuration_is_not_validated normal_logpdf nan 100
                         origin (-1) negative_ntune)) ltac:(lia)).
Defined.

Lemma widths_change_only_while_tuning_witness :
  exists s g' w',
    next_sample normal_logpdf 100 (sample origin) tuned_sampler = Ok (s, g') w' /\
    (exists st1 prev w1 fr',
        tuning normal_logpdf 100 (sweeps (Z.to_nat 2) (length origin))
               (Fresh origin, origin) (defaulted origin tuned_sampler)
               (st1, prev) w1 /\
        next__sample normal_logpdf 100 st1 w1 = Ok (s, fr') w' /\
        widths w' = widths w1) /\
    widths w' = Some [S754_finite false 8568368507050012 (-53);
                      S754_finite false 8767968042535072 (-53)] /\
    forall n rows g'' w'',
      pulls normal_logpdf 100 n g' w' rows g'' w'' -> widths w'' = widths w'.
Proof.
  destruct (next_sample normal_logpdf 100 (sample origin) tuned_sampler)
    as [[s g'] w'| |] eqn:E; [|vm_compute in E; discriminate E..].
  exists s, g', w'. split; [reflexivity|].
  assert (Hw' : widths w' = Some [S754_finite false 8568368507050012 (-53);
                                  S754_finite false 8767968042535072 (-53)]).
  { pose proof E as E2. vm_compute in E2. injection E2 as _ _ <-. reflexivity. }
  destruct (widths_change_only_while_tuning normal_logpdf 100
              (sample origin) tuned_sampler s g' w' E)
    as [(st1 & prev & w1 & fr' & T & _ & N & _ & Hw & _) [Hfrozen _]].
  split; [exists st1, prev, w1, fr'; split; [exact T|split; [exact N|exact Hw]]|].
  split; [exact Hw'|exact Hfrozen].
Defined.

Lemma run_pulls_exactly_nsteps_witness :
  (0 <= 5)%Z /\
  exists m w',
    run normal_logpdf nan 100 origin 5 (default_sampler varied_source) = Ok m w' /\
    length m = Z.to_nat 5 /\ Forall (fun row => length row = length origin) m.
Proof.
  split; [lia|].
  destruct (run normal_logpdf nan 100 origin 5 (default_sampler varied_source))
    as [m w'| |] eqn:E; [|vm_compute in E; discriminate E..].
  exists m, w'. split; [reflexivity|].
  exact (proj1 (proj2 (run_pulls_exactly_nsteps normal_logpdf nan 100 origin 5
                         (default_sampler varied_source) ltac:(lia))) m w' E).
Defined.


Lemma tuned_widths_stay_positive_witness :
  Forall (fun w => (zero <? w)%fl = true /\ strictly_positive w)
         (fold_left (fun ws u => tune_width ws (fst u) (snd u))
                    [(0%nat, lit_0_1); (1%nat, zero); (0%nat, SFopp lit_1)]
                    [lit_1; lit_0_9]).
Proof.
  refine (proj1 (tuned_widths_stay_positive [lit_1; lit_0_9]
                   [(0%nat, lit_0_1); (1%nat, zero); (0%nat, SFopp lit_1)] _ _)).
  - repeat constructor.
  - repeat constructor.
Defined.

(** C8, as stated, fails in the scenario: with a random source whose
    uniform draws are all 0.5 every candidate is the current point, so
    the five rows returned are all equal and consecutive rows differ in
    no coordinate. *)
Lemma rows_can_differ_in_no_coordinate :
  exists m w',
    run normal_logpdf nan 100 origin 5 (default_sampler midpoint_source) = Ok m w' /\
    length m = 5%nat /\
    exists r r', m !! 0%nat = Some r /\ m !! 1%nat = Some r' /\
                 differing r r' = 0%nat /\ differing r r' <> 1%nat.
Proof.
  eexists _, _. split; [vm_compute; reflexivity|].
  split; [reflexivity|]. eexists _, _.
  split; [reflexivity|]. split; [reflexivity|].
  split; [vm_compute; reflexivity|vm_compute; discriminate].
Qed.

Lemma snapshot_differs_in_at_most_one_coordinate_witness :
  exists m w',
    run normal_logpdf nan 100 origin 5 (default_sampler midpoint_source) = Ok m w' /\
    Forall (fun row => length row = length origin) m.
Proof.
  destruct (run normal_logpdf nan 100 origin 5 (default_sampler midpoint_source))
    as [m w'| |] eqn:E; [|vm_compute in E; discriminate E..].
  exists m, w'. split; [reflexivity|].
  exact (proj1 (snapshot_differs_in_at_most_one_coordinate normal_logpdf nan 100
                  origin 5 (default_sampler midpoint_source) m w' E)).
Defined.

Lemma identical_draws_give_identical_output_witness :
  exists m w1',
    run normal_logpdf nan 100 origin 5 (default_sampler varied_source) = Ok m w1' /\
    exists w2',
      run normal_logpdf zero 100 origin 5 (default_sampler varied_source) = Ok m w2' /\
      world_rel eq w1' w2'.
Proof.
  assert (HR : same_draws (F:=spec_float) (@eq (script spec_float)))
    by (intros r1 r2 ->; auto).
  assert (Hw : world_rel eq (default_sampler varied_source)
                            (default_sampler varied_source))
    by (repeat split).
  destruct (run normal_logpdf nan 100 origin 5 (default_sampler varied_source))
    as [m w1'| |] eqn:E; [|vm_compute in E; discriminate E..].
  exists m, w1'. split; [reflexivity|].
  exact (proj1 (proj2 (identical_draws_give_identical_output normal_logpdf eq
                         nan zero 100 origin 5 (default_sampler varied_source)
                         (default_sampler varied_source) HR Hw)) m w1' E).
Defined.

Lemma default_widths_fixed_at_first_use_witness :
  exists s g' w',
    widths (default_sampler varied_source) = None /\
    next_sample normal_logpdf 100 (sample origin) (default_sampler varied_source)
      = Ok (s, g') w' /\
    exists ws, widths w' = Some ws /\ length ws = length origin.
Proof.
  destruct (next_sample normal_logpdf 100 (sample origin)
              (default_sampler varied_source)) as [[s g'] w'| |] eqn:E;
    [|vm_compute in E; discriminate E..].
  exists s, g', w'. split; [reflexivity|]. split; [reflexivity|].
  destruct (proj2 (default_widths_fixed_at_first_use normal_logpdf 100 origin
                     (default_sampler varied_source) s g' w' eq_refl E))
    as (ws & Ews & Hlen & _).
  exists ws. split; [exact Ews|exact Hlen].
Defined.

End Witnesses.

(** * Further properties of the sampler and of [run] *)

(** ** The two loops of an elementary step, more closely *)

Section Loops.
Context {F : Type} {FF : Float F} {RD : Type} {RS : RandomState F RD}.
Variable logprob : list F -> F.

Local Open Scope float_scope.

Lemma stepped_S_r (op : F -> F -> F) width k xd :
  stepped op width (S k) xd = stepped op width k (op xd width).
Proof. unfold stepped. rewrite Nat.iter_succ_r. reflexivity. Qed.

Lemma advanced_advanced de dd r de' dd' r' (w : world F RD) :
  advanced de' dd' r' (advanced de dd r w) = advanced (de + de') (dd + dd') r' w.
Proof.
  unfold advanced. cbn. f_equal; lia.
Qed.

Lemma call_logprob_advanced x (w : world F RD) :
  call_logprob logprob x w = Ok (logprob x) (advanced 1 0 (rd w) w).
Proof.
  unfold call_logprob, advanced. do 2 f_equal; lia.
Qed.

Lemma rd_uniform_advanced (w : world F RD) :
  rd_uniform w = Ok (fst (uniform (rd w))) (advanced 0 1 (snd (uniform (rd w))) w).
Proof.
  rewrite rd_uniform_eq. unfold advanced. do 2 f_equal; lia.
Qed.

Lemma rd_exp_advanced (w : world F RD) :
  rd_exp w = Ok (fst (exponential (rd w))) (advanced 0 1 (snd (exponential (rd w))) w).
Proof.
  rewrite rd_exp_eq. unfold advanced. do 2 f_equal; lia.
Qed.

(* A step-out loop makes one evaluation per test and no draw; the
   rejection loop makes one draw and one evaluation per candidate. *)
Lemma step_out_cost op fuel x d width logy : forall xd (w : world F RD) a' w',
  step_out logprob op fuel x d width logy xd w = Ok a' w' ->
  exists k, w' = advanced (S k) 0 (rd w) w.
Proof.
  induction fuel as [|fuel IH]; intros xd w a' w' H; [discriminate|].
  cbn [step_out] in H. unfold bind in H. rewrite call_logprob_advanced in H.
  destruct (logprob (<[d := xd]> x) >? logy).
  - apply IH in H as (k & ->). exists (S k).
    rewrite advanced_advanced. reflexivity.
  - inversion H; subst. exists 0%nat. reflexivity.
Qed.

Lemma shrink_cost fuel x d x_p logy : forall a b (w : world F RD) c p w',
  shrink logprob fuel x d x_p logy a b w = Ok (c, p) w' ->
  exists k r, w' = advanced (S k) (S k) r w.
Proof.
  induction fuel as [|fuel IH]; intros a b w c p w' H; [discriminate|].
  cbn [shrink] in H. unfold bind in H at 1. rewrite rd_uniform_advanced in H.
  unfold bind in H at 1. rewrite call_logprob_advanced in H.
  destruct (logprob (<[d := a + fst (uniform (rd w)) * (b - a)]> x) >? logy).
  - inversion H; subst. exists 0%nat, (snd (uniform (rd w))).
    rewrite advanced_advanced. reflexivity.
  - destruct (a + fst (uniform (rd w)) * (b - a) <? x_p);
      apply IH in H as (k & r & ->); exists (S k), r;
      rewrite !advanced_advanced; cbn; f_equal; lia.
Qed.

(** X1: a step-out loop returns [a'] exactly when, for some [k] below the
    fuel, [a'] is the start moved [k] times by [width], the log-density
    is above the slice height at each of the [k] points before it and is
    not above it at [a'] itself; the loop then has made [k + 1]
    evaluations and no draw. *)
Theorem step_out_returns_first_point_outside_slice
    op fuel x d width logy xd (w : world F RD) a' w' :
  step_out logprob op fuel x d width logy xd w = Ok a' w' <->
  exists k,
    (k < fuel)%nat /\
    a' = stepped op width k xd /\
    (forall j, (j < k)%nat ->
       (logprob (<[d := stepped op width j xd]> x) >? logy) = true) /\
    (logprob (<[d := a']> x) >? logy) = false /\
    w' = advanced (S k) 0 (rd w) w.
Proof.
  revert xd w. induction fuel as [|fuel IH]; intros xd w.
  - split; [discriminate|]. intros (k & Hk & _). lia.
  - cbn [step_out]. unfold bind. rewrite call_logprob_advanced.
    destruct (logprob (<[d := xd]> x) >? logy) eqn:Hin.
    + rewrite IH. split.
      * intros (k & Hk & -> & Hbefore & Hout & ->). exists (S k).
        split; [lia|]. split; [symmetry; apply stepped_S_r|].
        split; [|split; [exact Hout|]].
        -- intros [|j] Hj; [exact Hin|]. rewrite stepped_S_r. apply Hbefore. lia.
        -- rewrite advanced_advanced. cbn. reflexivity.
      * intros (k & Hk & -> & Hbefore & Hout & ->). destruct k as [|k].
        -- cbn in Hout. congruence.
        -- exists k. split; [lia|]. split; [apply stepped_S_r|].
           split; [|split; [exact Hout|]].
           ++ intros j Hj. rewrite <- stepped_S_r. apply Hbefore. lia.
           ++ rewrite advanced_advanced. cbn. reflexivity.
    + split.
      * intros E. inversion E; subst. exists 0%nat.
        split; [lia|]. split; [reflexivity|]. split; [intros j Hj; lia|].
        split; [exact Hin|reflexivity].
      * intros (k & Hk & -> & Hbefore & Hout & ->). destruct k as [|k].
        -- reflexivity.
        -- specialize (Hbefore 0%nat ltac:(lia)). cbn in Hbefore. congruence.
Qed.

(** A step that does not move the point never leaves the slice. *)
Lemma step_out_stuck op fuel x d width logy xd (w : world F RD) :
  op xd width = xd ->
  (logprob (<[d := xd]> x) >? logy) = true ->
  step_out logprob op fuel x d width logy xd w = OutOfFuel.
Proof.
  intros Hfix Hin. revert w. induction fuel as [|fuel IH]; intros w; [reflexivity|].
  cbn [step_out]. unfold bind. rewrite call_logprob_advanced, Hin, Hfix.
  apply IH.
Qed.

(** X2: when subtracting the width leaves the left end of the initial
    interval where it is (a zero width, or a width too small to change a
    large coordinate) and that end is inside the slice, the elementary
    step never ends, whatever the fuel. *)
Theorem step_out_never_ends_when_width_is_absorbed
    fuel x x_prob d (w : world F RD) ws width x_d :
  widths w = Some ws -> ws !! d = Some width -> x !! d = Some x_d ->
  let logy := x_prob - fst (exponential (rd w)) - epsilon in
  let a := x_d - fst (uniform (snd (exponential (rd w)))) * width in
  a - width = a ->
  (logprob (<[d := a]> x) >? logy) = true ->
  elementary logprob fuel x x_prob d w = OutOfFuel.
Proof.
  intros Hws Hw Hx logy a Hfix Hin.
  rewrite (elementary_eq logprob fuel x x_prob d w ws width x_d Hws Hw Hx).
  unfold slice_coordinate, bind. fold a. fold logy.
  rewrite (step_out_stuck fsub fuel x d width logy a _ Hfix Hin). reflexivity.
Qed.


End Loops.

(** ** What a run costs *)

Section Cost.
Context {F : Type} {FF : Float F} {RD : Type} {RS : RandomState F RD}.
Variable logprob : list F -> F.
Variable uninit : F.

Local Open Scope float_scope.

(* An elementary step makes one evaluation per step-out test and per
   candidate, and one draw for the height, one for the interval and one
   per candidate. *)
Lemma elementary_cost fuel x x_prob d (w : world F RD) x' p w' :
  elementary logprob fuel x x_prob d w = Ok (x', p) w' ->
  exists kl kr ks r,
    w' = advanced (kl + kr + ks + 3) (ks + 3) r w.
Proof.
  unfold elementary. intros H. bind_inv H.
  apply (get_width_Ok logprob) in E as (ws & _ & _ & ->).
  bind_inv H. rewrite rd_exp_advanced in E. inversion E; subst; clear E.
  bind_inv H. apply index_Ok in E as [_ ->].
  bind_inv H. rewrite rd_uniform_advanced in E. inversion E; subst; clear E.
  unfold slice_coordinate in H.
  bind_inv H. apply step_out_cost in E as (kl & ->).
  bind_inv H. apply step_out_cost in E as (kr & ->).
  bind_inv H.
  match type of E with _ = Ok ?q _ => destruct q as [c p'] end.
  apply shrink_cost in E as (ks & r & ->).
  inversion H; subst. exists kl, kr, ks, r.
  rewrite !advanced_advanced. cbn. unfold advanced. f_equal; lia.
Qed.

Lemma resume_cost fuel x x_prob : forall d (w : world F RD) s fr' w',
  resume logprob fuel x x_prob d w = Ok (s, fr') w' ->
  cost_at_least 3 3 w w' /\ fresh_cost fr' = 0%nat.
Proof.
  induction fuel as [|fuel IH]; intros d w s fr' w' H; [discriminate|].
  cbn [resume] in H. destruct (d <? length x)%nat; [|eapply IH; exact H].
  bind_inv H. destruct a as [x' p]. inversion H; subst; clear H.
  apply elementary_cost in E as (kl & kr & ks & r & ->).
  split; [|reflexivity]. unfold cost_at_least, advanced. cbn. lia.
Qed.

Lemma next__sample_cost fuel fr (w : world F RD) s fr' w' :
  next__sample logprob fuel fr w = Ok (s, fr') w' ->
  cost_at_least (3 + fresh_cost fr) 3 w w' /\ fresh_cost fr' = 0%nat.
Proof.
  destruct fr as [init|x x_prob d]; cbn [next__sample fresh_cost]; intros H.
  - bind_inv H. rewrite call_logprob_advanced in E. inversion E; subst; clear E.
    apply resume_cost in H as [(H1 & H2 & H3) H0]. split; [|exact H0].
    unfold cost_at_least, advanced in *. cbn in *. lia.
  - apply resume_cost in H as [(H1 & H2 & H3) H0]. split; [|exact H0].
    unfold cost_at_least in *. lia.
Qed.

Lemma tuning_cost fuel ds : forall st (w : world F RD) st' w',
  tuning logprob fuel ds st w st' w' ->
  (evals w + 3 * length ds + fresh_cost (fst st)
     <= evals w' + fresh_cost (fst st'))%nat /\
  (draws w + 3 * length ds <= draws w')%nat /\
  (draws w' + evals w <= evals w' + draws w)%nat.
Proof.
  induction ds as [|d ds IH]; intros st w st' w' T; inversion T; subst.
  - cbn. lia.
  - match goal with H : next__sample _ _ _ _ = _ |- _ =>
      apply next__sample_cost in H as [(Ce & Cd & Cc) C0] end.
    match goal with H : tuning _ _ _ _ _ _ _ |- _ =>
      apply IH in H as (Ge & Gd & Gc) end.
    cbn [fst length set_widths evals draws] in *. lia.
Qed.

Lemma next_sample_cost fuel g (w : world F RD) s g' w' :
  next_sample logprob fuel g w = Ok (s, g') w' ->
  match g with
  | Created init =>
      cost_at_least (3 * (Z.to_nat (ntune w) * length init) + 4)
                    (3 * (Z.to_nat (ntune w) * length init) + 3) w w'
  | Sampling _ => cost_at_least 3 3 w w'
  end /\
  ntune w' = ntune w /\ exists state, g' = Sampling state.
Proof.
  destruct g as [init|state]; intros H.
  - pose proof H as H'.
    apply next_sample_Created_widths in H' as [Hn _].
    apply next_sample_Created in H as (st1 & prev & w1 & fr' & T & E & ->).
    apply tuning_cost in T as (G1 & G2 & G3). rewrite length_sweeps in *.
    apply next__sample_cost in E as [(H1 & H2 & H3) _].
    cbn [fst fresh_cost defaulted set_widths evals draws] in *.
    split; [|split; [exact Hn|eauto]].
    unfold cost_at_least. lia.
  - pose proof (next_sample_Sampling_frozen _ _ _ _ _ _ _ H) as [_ Hn].
    apply next_sample_Sampling in H as (fr' & E & ->).
    apply next__sample_cost in E as [(H1 & H2 & H3) _].
    split; [|split; [exact Hn|eauto]].
    unfold cost_at_least in *. cbn [fresh_cost] in *. lia.
Qed.

Lemma pulls_Sampling_cost fuel n : forall state (w : world F RD) rows g' w',
  pulls logprob fuel n (Sampling state) w rows g' w' ->
  cost_at_least (3 * n) (3 * n) w w'.
Proof.
  induction n as [|n IH]; intros state w rows g' w' P; inversion P; subst.
  - unfold cost_at_least. lia.
  - match goal with H : next_sample _ _ _ _ = _ |- _ =>
      apply next_sample_cost in H as [(Ce & Cd & Cc) [_ [st ->]]] end.
    match goal with H : pulls _ _ _ _ _ _ _ _ |- _ =>
      apply IH in H as (Ge & Gd & Gc) end.
    unfold cost_at_least. lia.
Qed.

(** X4: a run that returns at least one row has evaluated the log-density
    at least once for the initial vector and three times for each
    elementary step (the tuning steps and the [nsteps] returned ones), has
    made at least three draws for each of these steps, and has made no
    fewer evaluations than draws. *)
Theorem run_costs_three_evaluations_per_step
    fuel init nsteps (w : world F RD) m w' :
  (0 < nsteps)%Z ->
  run logprob uninit fuel init nsteps w = Ok m w' ->
  (evals w + 3 * elementary_steps init nsteps w + 1 <= evals w')%nat /\
  (draws w + 3 * elementary_steps init nsteps w <= draws w')%nat /\
  (draws w' - draws w <= evals w' - evals w)%nat.
Proof.
  intros Hn H. apply run_Ok in H as (g' & P); [|lia].
  unfold elementary_steps.
  destruct (Z.to_nat nsteps) as [|n] eqn:En; [lia|].
  inversion P; subst.
  match goal with H : next_sample _ _ _ _ = _ |- _ =>
    apply next_sample_cost in H as [(Ce & Cd & Cc) [_ [st ->]]] end.
  match goal with H : pulls _ _ _ _ _ _ _ _ |- _ =>
    apply pulls_Sampling_cost in H as (Ge & Gd & Gc) end.
  cbn [sample] in *. lia.
Qed.

End Cost.

(** ** Which exceptions a run can end in *)

Section Errors.
Context {F : Type} {FF : Float F} {RD : Type} {RS : RandomState F RD}.
Variable logprob : list F -> F.
Variable uninit : F.

(* The dimension of the run, an invariant [Inv] of the world that says at
   least that the widths are set, and the exceptions [E] that can occur:
   [IndexError] can unless the widths cover all [D] dimensions. *)
Variable D : nat.
Variable Inv : world F RD -> Prop.
Variable E : exn -> Prop.
Hypothesis I_widths :
  forall w, Inv w -> exists ws, widths w = Some ws /\ ((D <= length ws)%nat \/ E IndexError).
Hypothesis I_stable :
  forall w w' ws ws',
    Inv w -> widths w = Some ws -> widths w' = Some ws' -> length ws' = length ws -> Inv w'.

Lemma triple_ret {A} (a : A) (Q : A -> Prop) : Q a -> triple Inv E (ret a) Q.
Proof. intros HQ w Hw. cbn. auto. Qed.

Lemma triple_bind {A B} (m : M F RD A) (k : A -> M F RD B) (Q : A -> Prop)
    (Q' : B -> Prop) :
  triple Inv E m Q -> (forall a, Q a -> triple Inv E (k a) Q') ->
  triple Inv E (bind m k) Q'.
Proof.
  intros Hm Hk w Hw. unfold bind. specialize (Hm w Hw).
  destruct (m w) as [a w1|e w1|]; [|exact Hm|exact I].
  destruct Hm as [Hw1 HQ]. apply (Hk a HQ w1 Hw1).
Qed.

Lemma I_same_widths w w' : Inv w -> widths w' = widths w -> Inv w'.
Proof.
  intros Hw Hsame. destruct (I_widths w Hw) as (ws & Hws & _).
  apply (I_stable w w' ws ws Hw Hws); [congruence|reflexivity].
Qed.

Lemma triple_call_logprob x :
  triple Inv E (call_logprob logprob x) (fun _ => True).
Proof. intros w Hw. cbn. split; [|exact I]. eapply I_same_widths; eauto. Qed.

Lemma triple_rd_exp : triple Inv E rd_exp (fun _ => True).
Proof.
  intros w Hw. rewrite rd_exp_eq. split; [|exact I].
  eapply I_same_widths; eauto.
Qed.

Lemma triple_rd_uniform : triple Inv E rd_uniform (fun _ => True).
Proof.
  intros w Hw. rewrite rd_uniform_eq. split; [|exact I].
  eapply I_same_widths; eauto.
Qed.

Lemma triple_index (v : list F) d :
  (d < length v)%nat -> triple Inv E (index v d) (fun _ => True).
Proof.
  intros Hd w Hw. unfold index.
  destruct (lookup_lt_is_Some_2 v d Hd) as [a ->]. cbn. auto.
Qed.

Lemma triple_get_width d :
  (d < D)%nat -> triple Inv E (get_width d) (fun _ => True).
Proof.
  intros Hd w Hw. unfold get_width, index.
  destruct (I_widths w Hw) as (ws & -> & Hcover).
  destruct (ws !! d) as [a|] eqn:Hl; cbn; [auto|].
  apply lookup_ge_None_1 in Hl. destruct Hcover as [Hle|HE]; [lia|exact HE].
Qed.

Lemma triple_set_width d v :
  (d < D)%nat -> triple Inv E (set_width d v) (fun _ => True).
Proof.
  intros Hd w Hw. unfold set_width.
  destruct (I_widths w Hw) as (ws & Hws & Hcover). rewrite Hws.
  destruct (d <? length ws)%nat eqn:Hlt.
  - split; [|exact I].
    eapply (I_stable w _ ws (<[d := v]> ws) Hw Hws); [reflexivity|].
    apply length_insert.
  - apply Nat.ltb_ge in Hlt. destruct Hcover as [Hle|HE]; [lia|exact HE].
Qed.

Lemma triple_step_out op fuel x d width logy : forall xd,
  triple Inv E (step_out logprob op fuel x d width logy xd) (fun _ => True).
Proof.
  induction fuel as [|fuel IH]; intros xd; [intros w _; exact I|].
  cbn [step_out]. eapply triple_bind; [apply triple_call_logprob|].
  intros lp _. destruct (flt logy lp); [apply IH|apply triple_ret; exact I].
Qed.

Lemma triple_shrink fuel x d x_p logy : forall a b,
  triple Inv E (shrink logprob fuel x d x_p logy a b) (fun _ => True).
Proof.
  induction fuel as [|fuel IH]; intros a b; [intros w _; exact I|].
  cbn [shrink]. eapply triple_bind; [apply triple_rd_uniform|]. intros v _.
  eapply triple_bind; [apply triple_call_logprob|]. intros p _.
  destruct (flt logy p); [apply triple_ret; exact I|].
  destruct (flt _ x_p); apply IH.
Qed.

Lemma triple_elementary fuel x x_prob d :
  (d < length x)%nat -> length x = D ->
  triple Inv E (elementary logprob fuel x x_prob d)
         (fun r => length (fst r) = D).
Proof.
  intros Hd Hx. unfold elementary, slice_coordinate.
  eapply triple_bind; [apply triple_get_width; lia|]. intros width _.
  eapply triple_bind; [apply triple_rd_exp|]. intros e _.
  eapply triple_bind; [apply triple_index; exact Hd|]. intros x_d _.
  eapply triple_bind; [apply triple_rd_uniform|]. intros u _.
  eapply triple_bind; [apply triple_step_out|]. intros a _.
  eapply triple_bind; [apply triple_step_out|]. intros b _.
  eapply triple_bind; [apply triple_shrink|]. intros [c p] _.
  apply triple_ret. cbn. rewrite length_insert. exact Hx.
Qed.

Lemma triple_resume fuel x x_prob : forall d,
  length x = D ->
  triple Inv E (resume logprob fuel x x_prob d)
         (fun r => length (fst r) = D /\ length (frame_x (snd r)) = D).
Proof.
  induction fuel as [|fuel IH]; intros d Hx; [intros w _; exact I|].
  cbn [resume]. destruct (d <? length x)%nat eqn:Hd; [|apply IH; exact Hx].
  apply Nat.ltb_lt in Hd.
  eapply triple_bind; [apply triple_elementary; [exact Hd|exact Hx]|].
  intros [x' p] Hx'. apply triple_ret. cbn in *. auto.
Qed.

Lemma triple_next__sample fuel state :
  length (frame_x state) = D ->
  triple Inv E (next__sample logprob fuel state)
         (fun r => length (fst r) = D /\ length (frame_x (snd r)) = D).
Proof.
  intros Hx. destruct state as [init|x x_prob d]; cbn [next__sample frame_x] in *.
  - eapply triple_bind; [apply triple_call_logprob|]. intros p _.
    apply triple_resume. exact Hx.
  - apply triple_resume. exact Hx.
Qed.

Lemma triple_tune_step fuel d state prev :
  (d < D)%nat -> length (frame_x state) = D -> length prev = D ->
  triple Inv E (tune_step logprob fuel d (state, prev))
         (fun st => length (frame_x (fst st)) = D /\ length (snd st) = D).
Proof.
  intros Hd Hx Hp. unfold tune_step.
  eapply triple_bind; [apply triple_next__sample; exact Hx|].
  intros [cur state'] [Hc Hs]. cbn [fst snd] in *.
  eapply triple_bind; [apply triple_index; lia|]. intros cur_d _.
  eapply triple_bind; [apply triple_index; lia|]. intros prev_d _.
  eapply triple_bind; [apply triple_get_width; exact Hd|]. intros width _.
  eapply triple_bind; [apply triple_set_width; exact Hd|]. intros _ _.
  apply triple_ret. cbn. auto.
Qed.

Lemma triple_for_each {A S} (body : A -> S -> M F RD S) (P : A -> Prop)
    (Q : S -> Prop) l :
  (forall a s, P a -> Q s -> triple Inv E (body a s) Q) ->
  Forall P l -> forall s, Q s -> triple Inv E (for_each body l s) Q.
Proof.
  intros Hb Hl. induction Hl as [|a l Ha _ IH]; intros s Hs; cbn [for_each].
  - apply triple_ret. exact Hs.
  - eapply triple_bind; [apply Hb; assumption|]. intros s' Hs'. apply IH, Hs'.
Qed.

Lemma Forall_seq_lt n : Forall (fun d => (d < n)%nat) (seq 0 n).
Proof. apply Forall_forall. intros d Hd. apply elem_of_seq in Hd. lia. Qed.

(* Once the widths are set (and [Inv] holds), a pull keeps [Inv] and the
   dimension, and raises only what [E] allows. *)
Lemma triple_sampling fuel state :
  length (frame_x state) = D ->
  triple Inv E (next_sample logprob fuel (Sampling state))
         (fun r => exists state', snd r = Sampling state' /\
                                  length (frame_x state') = D).
Proof.
  intros Hx. cbn [next_sample].
  eapply triple_bind; [apply triple_next__sample; exact Hx|].
  intros [s state'] [_ Hs]. apply triple_ret. exists state'. auto.
Qed.

Lemma triple_created_body fuel init n :
  length init = D ->
  triple Inv E
    (bind (if (0 <? n)%Z then tune logprob fuel n init (_sample init)
           else ret (_sample init, init))
          (fun st => bind (next__sample logprob fuel (fst st))
                          (fun r => ret (fst r, Sampling (snd r)))))
    (fun r => exists state', snd r = Sampling state' /\
                             length (frame_x state') = D).
Proof.
  intros Hx.
  eapply triple_bind
    with (Q := fun st => length (frame_x (fst st)) = D /\ length (snd st) = D).
  - destruct (0 <? n)%Z; [|apply triple_ret; cbn; auto].
    unfold tune.
    apply (triple_for_each _ (fun _ => True)
             (fun st => length (frame_x (fst st)) = D /\ length (snd st) = D)).
    + intros _ st _ Hst.
      apply (triple_for_each _ (fun d => (d < D)%nat)
               (fun st => length (frame_x (fst st)) = D /\ length (snd st) = D)).
      * intros d [state prev] Hd [Hs Hp]. apply triple_tune_step; assumption.
      * rewrite Hx. apply Forall_seq_lt.
      * exact Hst.
    + apply Forall_forall. intros; exact I.
    + cbn. auto.
  - intros st [Hs _].
    eapply triple_bind; [apply triple_next__sample; exact Hs|].
    intros [s state'] [_ Hs']. apply triple_ret. exists state'. auto.
Qed.

End Errors.

Section RunErrors.
Context {F : Type} {FF : Float F} {RD : Type} {RS : RandomState F RD}.
Variable logprob : list F -> F.
Variable uninit : F.

Lemma next_sample_Created_eq fuel init (w : world F RD) :
  next_sample logprob fuel (Created init) w =
  bind (if (0 <? ntune w)%Z then tune logprob fuel (ntune w) init (_sample init)
        else ret (_sample init, init))
       (fun st => bind (next__sample logprob fuel (fst st))
                       (fun r => ret (fst r, Sampling (snd r))))
       (defaulted init w).
Proof.
  cbn [next_sample]. unfold bind at 1. rewrite default_widths_eq.
  unfold bind at 1. cbn [get_ntune].
  replace (ntune (defaulted init w)) with (ntune w) by reflexivity.
  unfold bind, ret.
  destruct ((if (0 <? ntune w)%Z
             then tune logprob fuel (ntune w) init (_sample init)
             else fun w0 => Ok (_sample init, init) w0) (defaulted init w))
    as [[state prev] w1| |]; [|reflexivity..].
  cbn [fst]. destruct (next__sample logprob fuel state w1) as [[s st'] w2| |];
    reflexivity.
Qed.

(* The world in which the body of a pull runs once the default widths
   are in place. *)
Lemma pull_outcome D (Inv : world F RD -> Prop) (E : exn -> Prop) :
  (forall w, Inv w ->
     exists ws, widths w = Some ws /\ ((D <= length ws)%nat \/ E IndexError)) ->
  (forall w w' ws ws',
     Inv w -> widths w = Some ws -> widths w' = Some ws' ->
     length ws' = length ws -> Inv w') ->
  forall fuel g (w : world F RD),
    length (sample_x g) = D ->
    Inv (match g with Created init => defaulted init w | Sampling _ => w end) ->
    match next_sample logprob fuel g w with
    | Ok r w' => Inv w' /\ exists state, snd r = Sampling state /\
                                         length (frame_x state) = D
    | Raise e _ => E e
    | OutOfFuel => True
    end.
Proof.
  intros HW HS fuel g w Hx Hw. destruct g as [init|state].
  - rewrite next_sample_Created_eq.
    exact (triple_created_body logprob D Inv E HW HS fuel init (ntune w) Hx
             (defaulted init w) Hw).
  - exact (triple_sampling logprob D Inv E HW HS fuel state Hx w Hw).
Qed.

Lemma wide_widths D (w : world F RD) :
  wide D w ->
  exists ws, widths w = Some ws /\ ((D <= length ws)%nat \/ False).
Proof. intros (ws & Hws & Hle). eauto. Qed.

Lemma wide_stable D (w w' : world F RD) ws ws' :
  wide D w -> widths w = Some ws -> widths w' = Some ws' ->
  length ws' = length ws -> wide D w'.
Proof.
  intros (ws0 & Hws0 & Hle) Hws Hws' Hlen. exists ws'. split; [exact Hws'|].
  rewrite Hws in Hws0. inversion Hws0; subst. lia.
Qed.

Lemma has_widths_widths D (w : world F RD) :
  has_widths w ->
  exists ws, widths w = Some ws /\
             ((D <= length ws)%nat \/ IndexError = IndexError).
Proof. intros (ws & Hws). eauto. Qed.

Lemma has_widths_stable (w w' : world F RD) (ws ws' : list F) :
  has_widths w -> widths w = Some ws -> widths w' = Some ws' ->
  length ws' = length ws -> has_widths w'.
Proof. intros _ _ Hws' _. exists ws'. exact Hws'. Qed.

(* Successful pulls keep the invariant and the length of the vector
   the generator holds. *)
Lemma pulls_outcome D (Inv : world F RD -> Prop) (E : exn -> Prop) :
  (forall w, Inv w ->
     exists ws, widths w = Some ws /\ ((D <= length ws)%nat \/ E IndexError)) ->
  (forall w w' ws ws',
     Inv w -> widths w = Some ws -> widths w' = Some ws' ->
     length ws' = length ws -> Inv w') ->
  forall fuel k g (w : world F RD) rows g' w',
    pulls logprob fuel k g w rows g' w' ->
    length (sample_x g) = D ->
    Inv (match g with Created init => defaulted init w | Sampling _ => w end) ->
    length (sample_x g') = D /\
    Inv (match g' with Created init => defaulted init w' | Sampling _ => w' end).
Proof.
  intros HW HS fuel k g w rows g' w' P.
  induction P as [g w|n g w s g1 w1 rows g' w' E1 P IH]; intros Hx Hw.
  - auto.
  - pose proof (pull_outcome D Inv E HW HS fuel g w Hx Hw) as Hp.
    rewrite E1 in Hp. destruct Hp as (Hw1 & state & Hg & Hs).
    cbn in Hg. subst g1. apply IH; [exact Hs|exact Hw1].
Qed.

(** X5: with [widths] [None] or a vector of floats, a [next] on the
    generator of [sample], the first or any later one, raises only
    [IndexError], and only when the vector was supplied with fewer
    entries than [init]; with default widths, or widths at least as long
    as [init], no pull raises. *)
Theorem pull_raises_only_index_error_for_short_widths
    fuel init k (w : world F RD) rows g w1 e w2 :
  pulls logprob fuel k (sample init) w rows g w1 ->
  next_sample logprob fuel g w1 = Raise e w2 ->
  e = IndexError /\
  exists ws, widths w = Some ws /\ (length ws < length init)%nat.
Proof.
  intros P H.
  destruct (defaulted_widths init w) as (ws & Hd & Hnone & Hsome).
  destruct (le_lt_dec (length init) (length ws)) as [Hle|Hlt].
  - exfalso.
    destruct (pulls_outcome (length init) (wide (length init)) (fun _ => False)
                (wide_widths _) (wide_stable _) fuel k (sample init) w rows g w1
                P eq_refl (ex_intro _ ws (conj Hd Hle))) as [Hx Hw1].
    pose proof (pull_outcome (length init) (wide (length init)) (fun _ => False)
                  (wide_widths _) (wide_stable _) fuel g w1 Hx Hw1) as Hp.
    rewrite H in Hp. exact Hp.
  - destruct (widths w) as [ws0|] eqn:Hw0.
    + rewrite (Hsome ws0 eq_refl) in *.
      split; [|exists ws0; auto].
      destruct (pulls_outcome (length init) has_widths (fun e => e = IndexError)
                  (has_widths_widths _) has_widths_stable fuel k (sample init) w
                  rows g w1 P eq_refl (ex_intro _ ws0 Hd)) as [Hx Hw1].
      pose proof (pull_outcome (length init) has_widths (fun e => e = IndexError)
                    (has_widths_widths _) has_widths_stable fuel g w1 Hx Hw1) as Hp.
      rewrite H in Hp. exact Hp.
    + rewrite (Hnone eq_refl), length_replicate in Hlt. lia.
Qed.

End RunErrors.

(** ** Widths that are shorter or longer than the initial vector *)

Section WidthLengths.
Context {F : Type} {FF : Float F} {RD : Type} {RS : RandomState F RD}.
Variable logprob : list F -> F.
Variable uninit : F.

Lemma elementary_reads_width fuel x x_prob d (w : world F RD) r w' :
  elementary logprob fuel x x_prob d w = Ok r w' ->
  exists ws, widths w = Some ws /\ (d < length ws)%nat.
Proof.
  unfold elementary. intros H. bind_inv H.
  apply (get_width_Ok logprob) in E as (ws & Hws & Hw & _).
  exists ws. split; [exact Hws|]. eapply lookup_lt_Some; exact Hw.
Qed.

Lemma resume_reads_width fuel x x_prob : forall d (w : world F RD) r w',
  resume logprob fuel x x_prob d w = Ok r w' ->
  exists ws, widths w = Some ws /\ (wrap x d < length ws)%nat.
Proof.
  induction fuel as [|fuel IH]; intros d w r w' H; [discriminate|].
  cbn [resume] in H. unfold wrap. destruct (d <? length x)%nat eqn:Hd.
  - bind_inv H. eapply elementary_reads_width; exact E.
  - apply IH in H. rewrite wrap_0 in H. exact H.
Qed.

Lemma next__sample_reads_width fuel fr (w : world F RD) r w' :
  next__sample logprob fuel fr w = Ok r w' ->
  exists ws, widths w = Some ws /\ (next_dim fr < length ws)%nat.
Proof.
  destruct fr as [init|x x_prob d]; cbn [next__sample next_dim]; intros H.
  - bind_inv H. inversion E; subst; clear E.
    apply resume_reads_width in H. rewrite wrap_0 in H. exact H.
  - apply resume_reads_width in H. exact H.
Qed.

(* Every dimension a tuning run visits has a width. *)
Lemma tuning_dims_have_widths fuel ds : forall st (w : world F RD) st' w' ws,
  tuning logprob fuel ds st w st' w' ->
  widths w = Some ws ->
  Forall (fun d => (d < length ws)%nat) ds.
Proof.
  induction ds as [|d ds IH]; intros st w st' w' ws T Hws; inversion T; subst.
  - constructor.
  - match goal with H : next__sample _ _ _ _ = _ |- _ =>
      apply (keeps_Ok _ _ _ _ _ (keeps_next__sample logprob fuel state)) in H
        as [Hsame _] end.
    match goal with H : widths w1 = Some _ |- _ => rename H into Hws1 end.
    rewrite Hsame, Hws in Hws1. inversion Hws1; subst.
    constructor.
    + eapply lookup_lt_Some; eassumption.
    + match goal with H : tuning _ _ _ _ _ _ _ |- _ =>
        eapply IH in H; [|reflexivity] end.
      rewrite length_insert in *. assumption.
Qed.

Lemma pulls_short fuel n : forall state (w : world F RD) rows g' w' ws,
  pulls logprob fuel n (Sampling state) w rows g' w' ->
  widths w = Some ws ->
  (length ws < length (frame_x state))%nat ->
  n = 0%nat \/ (next_dim state + n <= length ws)%nat.
Proof.
  induction n as [|n IH]; intros state w rows g' w' ws P Hws Hshort;
    [left; reflexivity|right].
  inversion P; subst.
  match goal with H : next_sample _ _ _ _ = _ |- _ =>
    pose proof (next_sample_Sampling_frozen _ _ _ _ _ _ _ H) as [Hsame _];
    apply next_sample_Sampling in H as (fr' & E & ->) end.
  pose proof (next__sample_reads_width _ _ _ _ _ E) as (ws0 & Hws0 & Hd).
  rewrite Hws in Hws0. inversion Hws0; subst ws0.
  apply next__sample_Ok in E as (Hlt & c & -> & -> & _).
  match goal with H : pulls _ _ _ _ _ _ _ _ |- _ =>
    eapply IH in H; [|rewrite Hsame; exact Hws
                     |cbn [frame_x]; rewrite length_insert; exact Hshort] end.
  cbn [next_dim] in *. unfold wrap in *. rewrite length_insert in *.
  destruct (S (next_dim state) <? length (frame_x state))%nat eqn:Hw.
  - lia.
  - apply Nat.ltb_ge in Hw. lia.
Qed.

Lemma tuning_nil_inv fuel st (w : world F RD) st' w' :
  tuning logprob fuel [] st w st' w' -> st' = st /\ w' = w.
Proof. intros T. inversion T. auto. Qed.

Lemma In_sweeps n D d : (d < D)%nat -> In d (sweeps (S n) D).
Proof.
  intros Hd. unfold sweeps. cbn [replicate concat]. apply in_or_app. left.
  apply in_seq. lia.
Qed.

(** X6: when the width vector supplied is shorter than [init], a run
    that returns rows has made no tuning sweep and returns at most
    [len(widths)] rows: the elementary step for the first dimension
    without a width is never completed. *)
Theorem run_with_short_widths_returns_few_rows
    fuel init nsteps (w : world F RD) ws m w' :
  widths w = Some ws ->
  (length ws < length init)%nat ->
  (0 < nsteps)%Z ->
  run logprob uninit fuel init nsteps w = Ok m w' ->
  (ntune w <= 0)%Z /\ (length m <= length ws)%nat /\
  (elementary_steps init nsteps w <= length ws)%nat.
Proof.
  intros Hws Hshort Hn H.
  apply run_Ok in H as (g' & P); [|lia].
  pose proof (pulls_shape _ _ _ _ _ _ _ _ P) as [Hlen _].
  unfold elementary_steps. rewrite Hlen.
  destruct (Z.to_nat nsteps) as [|n] eqn:En; [lia|].
  inversion P; subst.
  match goal with H : next_sample _ _ _ _ = _ |- _ =>
    apply next_sample_Created in H as (st1 & prev & wt & fr' & T & E & ->) end.
  assert (Hd : widths (defaulted init w) = Some ws).
  { destruct (defaulted_widths init w) as (ws1 & Hd & _ & Hsome).
    rewrite (Hsome ws Hws) in Hd. exact Hd. }
  assert (Hnt : Z.to_nat (ntune w) = 0%nat).
  { destruct (Z.to_nat (ntune w)) as [|k] eqn:Ek; [reflexivity|].
    pose proof (tuning_dims_have_widths _ _ _ _ _ _ _ T Hd) as Hall.
    rewrite Forall_forall in Hall.
    specialize (Hall (length ws)
                  (proj2 (list_elem_of_In _ _) (In_sweeps k _ _ Hshort))).
    lia. }
  rewrite Hnt in T. apply tuning_nil_inv in T as [Hst ->].
  inversion Hst; subst st1 prev; clear Hst.
  pose proof (next__sample_reads_width _ _ _ _ _ E) as (ws0 & Hws0 & Hd0).
  rewrite Hd in Hws0. inversion Hws0; subst ws0.
  pose proof (keeps_Ok _ _ _ _ _ (keeps_next__sample logprob fuel _) E) as [Hsame _].
  apply next__sample_Ok in E as (Hlt & c & -> & -> & _).
  match goal with H : pulls _ _ _ _ _ _ _ _ |- _ =>
    eapply pulls_short in H;
      [|rewrite Hsame; exact Hd
       |cbn [frame_x]; rewrite length_insert; exact Hshort] end.
  cbn [next_dim frame_x] in *. unfold wrap in *. rewrite length_insert in *.
  destruct (1 <? length init)%nat eqn:Hone.
  - split; [lia|]. cbn [length]. lia.
  - apply Nat.ltb_ge in Hone. lia.
Qed.

Lemma Forall_sweeps_lt n D : Forall (fun d => (d < D)%nat) (sweeps n D).
Proof.
  unfold sweeps. induction n as [|n IH]; cbn [replicate concat]; [constructor|].
  apply Forall_app. split; [|exact IH].
  apply Forall_forall. intros d Hd. apply elem_of_seq in Hd. lia.
Qed.

Lemma tuning_surplus fuel D ds : forall st (w : world F RD) st' w' ws,
  tuning logprob fuel ds st w st' w' ->
  Forall (fun d => (d < D)%nat) ds ->
  widths w = Some ws ->
  exists ws', widths w' = Some ws' /\ length ws' = length ws /\
              drop D ws' = drop D ws.
Proof.
  induction ds as [|d ds IH]; intros st w st' w' ws T Hall Hws; inversion T; subst.
  - exists ws. auto.
  - match goal with H : next__sample _ _ _ _ = _ |- _ =>
      apply (keeps_Ok _ _ _ _ _ (keeps_next__sample logprob fuel state)) in H
        as [Hsame _] end.
    match goal with H : widths w1 = Some _ |- _ => rename H into Hws1 end.
    rewrite Hsame, Hws in Hws1. inversion Hws1; subst.
    inversion Hall; subst.
    match goal with H : tuning _ _ _ _ _ _ _ |- _ =>
      eapply IH in H as (ws' & Hws' & Hlen & Hdrop); [|assumption|reflexivity] end.
    exists ws'. split; [exact Hws'|]. rewrite length_insert in Hlen.
    split; [exact Hlen|]. rewrite Hdrop. apply drop_insert_lt. assumption.
Qed.

(** X7: the entries of the width vector beyond the first [len(init)] are
    never changed by a run, with or without tuning, and the vector keeps
    its length. *)
Theorem run_leaves_surplus_widths_alone
    fuel init nsteps (w : world F RD) ws m w' :
  widths w = Some ws ->
  run logprob uninit fuel init nsteps w = Ok m w' ->
  exists ws', widths w' = Some ws' /\ length ws' = length ws /\
              drop (length init) ws' = drop (length init) ws.
Proof.
  intros Hws H.
  assert (Hn : (0 <= nsteps)%Z).
  { destruct (nsteps <? 0)%Z eqn:E; [|apply Z.ltb_ge; exact E].
    unfold run, run_gen, np_empty in H. rewrite E in H. discriminate. }
  apply run_Ok in H as (g' & P); [|exact Hn].
  inversion P; subst; [exists ws; auto|].
  match goal with H : next_sample _ _ _ _ = _ |- _ =>
    apply next_sample_Created in H as (st1 & prev & wt & fr' & T & E & ->) end.
  assert (Hd : widths (defaulted init w) = Some ws).
  { destruct (defaulted_widths init w) as (ws1 & Hd & _ & Hsome).
    rewrite (Hsome ws Hws) in Hd. exact Hd. }
  eapply tuning_surplus in T as (ws' & Hws' & Hlen & Hdrop);
    [|apply Forall_sweeps_lt|exact Hd].
  apply (keeps_Ok _ _ _ _ _ (keeps_next__sample logprob fuel st1)) in E as [Hsame _].
  match goal with H : pulls _ _ _ _ _ _ _ _ |- _ =>
    apply pulls_Sampling_frozen in H as [Hsame2 _] end.
  exists ws'. split; [congruence|]. auto.
Qed.

End WidthLengths.

(** ** NaN and the infinities on binary64 *)

Section Binary64Edges.
Import Binary64.
Context {RD : Type} {RS : RandomState spec_float RD}.
Variable logprob : list spec_float -> spec_float.
Variable uninit : spec_float.

Local Open Scope float_scope.

(* Nothing compares above NaN or above plus infinity. *)
Lemma nothing_above_nan_or_infinity (logy v : spec_float) :
  logy = nan \/ logy = infinity -> (v >? logy) = false.
Proof.
  intros [-> | ->]; cbn.
  - reflexivity.
  - destruct v as [| [|] | |]; reflexivity.
Qed.

(* What compares above a slice height is a number, and not minus
   infinity. *)
Lemma above_is_a_number (logy v : spec_float) :
  (v >? logy) = true -> v <> nan /\ v <> neg_infinity.
Proof.
  intros H. split; intros ->; cbn in H.
  - destruct logy; discriminate.
  - destruct logy as [| [|] | |]; discriminate.
Qed.

(* A slice height computed from a NaN or plus infinite log-density is NaN
   or plus infinity, whatever the exponential draw. *)
Lemma slice_height_of_nan_or_infinity (x_prob e : spec_float) :
  x_prob = nan \/ x_prob = infinity ->
  slice_height x_prob e = nan \/ slice_height x_prob e = infinity.
Proof.
  intros [-> | ->]; unfold slice_height; cbn.
  - left. reflexivity.
  - destruct e as [s|[|]| |s m ex]; cbn; auto.
Qed.

Lemma first_step_fails fuel init (w : world spec_float RD) r w' :
  logprob init = nan \/ logprob init = infinity ->
  next__sample logprob fuel (Fresh init) w <> Ok r w'.
Proof.
  intros Hstart H. destruct r as [s fr'].
  apply next__sample_Ok in H as (_ & c & _ & _ & Hacc).
  unfold logy_at in Hacc. cbn [cached] in Hacc.
  rewrite nothing_above_nan_or_infinity in Hacc; [discriminate|].
  apply slice_height_of_nan_or_infinity. exact Hstart.
Qed.

(** X8: when the log-density of the initial vector is NaN or plus
    infinity, no candidate is ever accepted: a run asked for at least one
    row never returns one, with any fuel, tuned or not. *)
Theorem run_never_returns_from_nan_or_infinite_start
    fuel init nsteps (w : world spec_float RD) m w' :
  logprob init = nan \/ logprob init = infinity ->
  (0 < nsteps)%Z ->
  run logprob uninit fuel init nsteps w <> Ok m w'.
Proof.
  intros Hstart Hn H. apply run_Ok in H as (g' & P); [|lia].
  destruct (Z.to_nat nsteps) as [|n] eqn:En; [lia|].
  inversion P; subst.
  match goal with H : next_sample _ _ _ _ = _ |- _ =>
    apply next_sample_Created in H as (st1 & prev & wt & fr' & T & E & _) end.
  inversion T; subst.
  - eapply first_step_fails; eassumption.
  - eapply first_step_fails; eassumption.
Qed.

(** X9: the log-density of every state a generator emits is a number and
    is not minus infinity; so is the log-density the generator then
    caches. *)
Theorem emitted_log_density_is_a_number
    fuel g (w : world spec_float RD) s g' w' :
  next_sample logprob fuel g w = Ok (s, g') w' ->
  logprob s <> nan /\ logprob s <> neg_infinity /\
  exists state, g' = Sampling state /\ cached logprob state = logprob s.
Proof.
  intros H. apply next_sample_step in H
    as (fr & w0 & E & -> & _ & _ & _ & _ & _).
  apply next__sample_Ok in E as (_ & c & _ & _ & Hacc).
  apply above_is_a_number in Hacc as [Hnan Hinf].
  split; [exact Hnan|]. split; [exact Hinf|]. eexists. split; reflexivity.
Qed.

Lemma SFadd_nan_r x : SFadd prec emax x nan = nan.
Proof. destruct x as [| | |]; reflexivity. Qed.

Lemma ema_nan_width delta : ema delta nan = nan.
Proof.
  unfold ema. cbn [fadd fmul tenth nine_tenths float64].
  change (SFmul prec emax lit_0_9 nan) with nan. apply SFadd_nan_r.
Qed.

Lemma ema_nan_delta width : ema (fabs nan) width = nan.
Proof. unfold ema. cbn. reflexivity. Qed.

Lemma tune_width_keeps_nan ws d d' delta :
  ws !! d = Some nan -> tune_width ws d' delta !! d = Some nan.
Proof.
  intros Hd. unfold tune_width. destruct (ws !! d') as [width|] eqn:Hd'; [|exact Hd].
  destruct (Nat.eq_dec d' d) as [->|Hne].
  - rewrite Hd in Hd'. inversion Hd'; subst width.
    rewrite list_lookup_insert_eq by (eapply lookup_lt_Some; exact Hd).
    f_equal; apply ema_nan_width.
  - rewrite list_lookup_insert_ne by exact Hne. exact Hd.
Qed.

(** X10: a tuning update whose difference is NaN makes the width NaN, and
    a width that is NaN stays NaN under every later sequence of tuning
    updates. *)
Theorem nan_width_is_never_repaired (ws : list spec_float) d width :
  ws !! d = Some width ->
  tune_width ws d nan !! d = Some nan /\
  forall updates : list (nat * spec_float),
    width = nan ->
    fold_left (fun ws u => tune_width ws (fst u) (snd u)) updates ws !! d
      = Some nan.
Proof.
  intros Hd. split.
  - unfold tune_width. rewrite Hd.
    rewrite list_lookup_insert_eq by (eapply lookup_lt_Some; exact Hd).
    f_equal; apply ema_nan_delta.
  - intros updates ->. revert ws Hd.
    induction updates as [|[d' delta] updates IH]; intros ws Hd; [exact Hd|].
    cbn [fold_left fst snd]. apply IH. apply tune_width_keeps_nan. exact Hd.
Qed.

End Binary64Edges.

(** ** Asking for more rows *)

Section Prefix.
Context {F : Type} {FF : Float F} {RD : Type} {RS : RandomState F RD}.
Variable logprob : list F -> F.
Variable uninit : F.

Lemma pulls_app fuel n k : forall g (w : world F RD) rows g' w',
  pulls logprob fuel (n + k) g w rows g' w' <->
  exists rows1 rows2 g1 w1,
    pulls logprob fuel n g w rows1 g1 w1 /\
    pulls logprob fuel k g1 w1 rows2 g' w' /\
    rows = rows1 ++ rows2.
Proof.
  induction n as [|n IH]; intros g w rows g' w'; cbn [Nat.add].
  - split.
    + intros P. exists [], rows, g, w. split; [constructor|]. auto.
    + intros (rows1 & rows2 & g1 & w1 & P1 & P2 & ->). inversion P1; subst.
      exact P2.
  - split.
    + intros P. inversion P; subst.
      match goal with H : pulls _ _ (n + k) _ _ _ _ _ |- _ =>
        apply IH in H as (rows1 & rows2 & g2 & w2 & P1 & P2 & ->) end.
      exists (s :: rows1), rows2, g2, w2.
      split; [econstructor; eassumption|]. auto.
    + intros (rows1 & rows2 & g1 & w1 & P1 & P2 & ->). inversion P1; subst.
      cbn [app]. econstructor; [eassumption|]. apply IH. eauto 10.
Qed.

(** X11: a run asked for [n + k] rows returns the rows the run asked for
    [n] rows returns from the same world, followed by [k] further rows:
    asking for more extends the chain and changes none of its earlier
    rows. *)
Theorem longer_run_extends_shorter_run
    fuel init n k (w : world F RD) rows w'' :
  (0 <= n)%Z -> (0 <= k)%Z ->
  run logprob uninit fuel init (n + k) w = Ok rows w'' ->
  exists rows1 rows2 w',
    run logprob uninit fuel init n w = Ok rows1 w' /\
    rows = rows1 ++ rows2 /\
    length rows1 = Z.to_nat n /\ length rows2 = Z.to_nat k.
Proof.
  intros Hn Hk H. apply run_Ok in H as (g' & P); [|lia].
  rewrite Z2Nat.inj_add in P by lia.
  apply pulls_app in P as (rows1 & rows2 & g1 & w1 & P1 & P2 & ->).
  exists rows1, rows2, w1.
  split; [apply run_Ok; [exact Hn|]; exists g1; exact P1|].
  split; [reflexivity|].
  apply pulls_shape in P1 as [H1 _]. apply pulls_shape in P2 as [H2 _]. auto.
Qed.

End Prefix.

(** ** These theorems at concrete inputs *)

Section MoreWitnesses.
Import Binary64 Scenario.

Lemma step_out_returns_first_point_outside_slice_witness :
  exists a' w',
    step_out normal_logpdf fsub 100 origin 0 lit_1 (of_Z (-3)) (SFopp lit_1)
             (default_sampler varied_source) = Ok a' w' /\
    exists k,
      (k < 100)%nat /\
      a' = stepped fsub lit_1 k (SFopp lit_1) /\
      (normal_logpdf (<[0%nat := a']> origin) >? of_Z (-3))%fl = false /\
      w' = advanced (S k) 0 varied_source (default_sampler varied_source).
Proof.
  destruct (step_out normal_logpdf fsub 100 origin 0 lit_1 (of_Z (-3))
              (SFopp lit_1) (default_sampler varied_source))
    as [a' w'| |] eqn:E; [|vm_compute in E; discriminate E..].
  exists a', w'. split; [reflexivity|].
  destruct (proj1 (step_out_returns_first_point_outside_slice normal_logpdf fsub
                     100 origin 0%nat lit_1 (of_Z (-3)) (SFopp lit_1)
                     (default_sampler varied_source) a' w') E)
    as (k & Hk & Ha & _ & Hout & Hw).
  exists k. split; [exact Hk|]. split; [exact Ha|]. split; [exact Hout|exact Hw].
Defined.

Lemma step_out_never_ends_when_width_is_absorbed_witness :
  let w := World (Some [zero; lit_1]) 0 varied_source 0 0 in
  let logy := (normal_logpdf origin - fst (exponential (rd w)) - epsilon)%fl in
  let a := (zero - fst (uniform (snd (exponential (rd w)))) * zero)%fl in
  (a - zero)%fl = a /\
  (normal_logpdf (<[0%nat := a]> origin) >? logy)%fl = true /\
  elementary normal_logpdf 1000 origin (normal_logpdf origin) 0 w = OutOfFuel.
Proof.
  cbn zeta. split; [reflexivity|]. split; [vm_compute; reflexivity|].
  exact (step_out_never_ends_when_width_is_absorbed normal_logpdf 1000 origin
           (normal_logpdf origin) 0%nat
           (World (Some [zero; lit_1]) 0 varied_source 0 0)
           [zero; lit_1] zero zero eq_refl eq_refl eq_refl eq_refl
           ltac:(vm_compute; reflexivity)).
Defined.


Lemma run_costs_three_evaluations_per_step_witness :
  (0 < 3)%Z /\
  exists m w',
    run normal_logpdf nan 100 origin 3 tuned_sampler = Ok m w' /\
    (evals tuned_sampler + 3 * elementary_steps origin 3 tuned_sampler + 1
       <= evals w')%nat.
Proof.
  split; [lia|].
  destruct (run normal_logpdf nan 100 origin 3 tuned_sampler)
    as [m w'| |] eqn:E; [|vm_compute in E; discriminate E..].
  exists m, w'. split; [reflexivity|].
  exact (proj1 (run_costs_three_evaluations_per_step normal_logpdf nan 100 origin 3
                  tuned_sampler m w' ltac:(lia) E)).
Defined.

Lemma pull_raises_only_index_error_for_short_widths_witness :
  exists rows g w1 e w2,
    pulls normal_logpdf 100 1 (sample origin)
          (World (Some [lit_1]) 0 varied_source 0 0) rows g w1 /\
    next_sample normal_logpdf 100 g w1 = Raise e w2 /\
    e = IndexError /\
    exists ws, Some [lit_1] = Some ws /\ (length ws < length origin)%nat.
Proof.
  destruct (next_sample normal_logpdf 100 (sample origin)
              (World (Some [lit_1]) 0 varied_source 0 0))
    as [[s g] w1| |] eqn:E1; [|vm_compute in E1; discriminate E1..].
  pose proof E1 as E1'. vm_compute in E1'. injection E1' as <- <- <-.
  match type of E1 with _ = Ok (?s, ?g) ?w1 =>
    destruct (next_sample normal_logpdf 100 g w1) as [r w2|e w2|] eqn:E2;
      [vm_compute in E2; discriminate E2| |vm_compute in E2; discriminate E2];
    exists [s], g, w1, e, w2
  end.
  assert (P : pulls normal_logpdf 100 1 (sample origin)
                (World (Some [lit_1]) 0 varied_source 0 0) _ _ _)
    by (eapply pulls_S; [exact E1|apply pulls_O]).
  split; [exact P|]. split; [exact E2|].
  exact (pull_raises_only_index_error_for_short_widths normal_logpdf 100 origin 1
           (World (Some [lit_1]) 0 varied_source 0 0) _ _ _ e w2 P E2).
Defined.

Lemma run_with_short_widths_returns_few_rows_witness :
  exists m w',
    run normal_logpdf nan 100 origin 1 (World (Some [lit_1]) 0 varied_source 0 0)
      = Ok m w' /\
    (length m <= 1)%nat.
Proof.
  destruct (run normal_logpdf nan 100 origin 1
              (World (Some [lit_1]) 0 varied_source 0 0))
    as [m w'| |] eqn:E; [|vm_compute in E; discriminate E..].
  exists m, w'. split; [reflexivity|].
  exact (proj1 (proj2 (run_with_short_widths_returns_few_rows normal_logpdf nan 100
                         origin 1 (World (Some [lit_1]) 0 varied_source 0 0)
                         [lit_1] m w' eq_refl ltac:(cbn; lia) ltac:(lia) E))).
Defined.

Lemma run_leaves_surplus_widths_alone_witness :
  exists m w',
    run normal_logpdf nan 100 origin 2
        (World (Some [lit_1; lit_1; lit_0_9; lit_0_1]) 2 varied_source 0 0)
      = Ok m w' /\
    exists ws', widths w' = Some ws' /\ length ws' = 4%nat /\
                drop 2 ws' = [lit_0_9; lit_0_1].
Proof.
  destruct (run normal_logpdf nan 100 origin 2
              (World (Some [lit_1; lit_1; lit_0_9; lit_0_1]) 2 varied_source 0 0))
    as [m w'| |] eqn:E; [|vm_compute in E; discriminate E..].
  exists m, w'. split; [reflexivity|].
  exact (run_leaves_surplus_widths_alone normal_logpdf nan 100 origin 2
           (World (Some [lit_1; lit_1; lit_0_9; lit_0_1]) 2 varied_source 0 0)
           [lit_1; lit_1; lit_0_9; lit_0_1] m w' eq_refl E).
Defined.

Lemma run_never_returns_from_nan_or_infinite_start_witness :
  ((fun _ : list spec_float => nan) origin = nan \/
   (fun _ : list spec_float => nan) origin = infinity) /\
  (0 < 1)%Z /\
  forall fuel m w',
    run (fun _ => nan) nan fuel origin 1 (default_sampler varied_source) <> Ok m w'.
Proof.
  split; [left; reflexivity|]. split; [lia|]. intros fuel m w'.
  exact (run_never_returns_from_nan_or_infinite_start (fun _ => nan) nan fuel
           origin 1 (default_sampler varied_source) m w'
           (or_introl eq_refl) ltac:(lia)).
Defined.

Lemma emitted_log_density_is_a_number_witness :
  exists s g' w',
    next_sample normal_logpdf 100 (sample origin) (default_sampler varied_source)
      = Ok (s, g') w' /\
    normal_logpdf s <> nan /\ normal_logpdf s <> neg_infinity.
Proof.
  destruct (next_sample normal_logpdf 100 (sample origin)
              (default_sampler varied_source)) as [[s g'] w'| |] eqn:E;
    [|vm_compute in E; discriminate E..].
  exists s, g', w'. split; [reflexivity|].
  destruct (emitted_log_density_is_a_number normal_logpdf 100 (sample origin)
              (default_sampler varied_source) s g' w' E) as (H1 & H2 & _).
  split; [exact H1|exact H2].
Defined.

Lemma nan_width_is_never_repaired_witness :
  [lit_1; lit_0_9] !! 1%nat = Some lit_0_9 /\
  tune_width [lit_1; lit_0_9] 1 nan !! 1%nat = Some nan.
Proof.
  split; [reflexivity|].
  exact (proj1 (nan_width_is_never_repaired [lit_1; lit_0_9] 1 lit_0_9 eq_refl)).
Defined.

Lemma longer_run_extends_shorter_run_witness :
  (0 <= 2)%Z /\ (0 <= 3)%Z /\
  exists rows w'',
    run normal_logpdf nan 100 origin (2 + 3) (default_sampler varied_source)
      = Ok rows w'' /\
    exists rows1 rows2 w',
      run normal_logpdf nan 100 origin 2 (default_sampler varied_source)
        = Ok rows1 w' /\
      rows = rows1 ++ rows2 /\
      length rows1 = Z.to_nat 2 /\ length rows2 = Z.to_nat 3.
Proof.
  split; [lia|]. split; [lia|].
  destruct (run normal_logpdf nan 100 origin (2 + 3) (default_sampler varied_source))
    as [rows w''| |] eqn:E; [|vm_compute in E; discriminate E..].
  exists rows, w''. split; [reflexivity|].
  exact (longer_run_extends_shorter_run normal_logpdf nan 100 origin 2 3
           (default_sampler varied_source) rows w'' ltac:(lia) ltac:(lia) E).
Defined.

End MoreWitnesses.
